(** * The DDL safety and execution pipeline of skeema's applier

    A shallow embedding of [internal/applier/ddlstatement.go]: the construction
    of a [DDLStatement] from a diff, statement modifiers and a target
    ([NewDDLStatement] with [needTableSize], [getTableSize], [getWrapper] and
    [getConnectParams]), its [ClientState] report, [Execute] and
    [Statement]; and of parts of package tengo: the string functions of
    [internal/tengo/util.go] ([EscapeIdentifier],
    [EscapeValueForCreateTable], [SplitHostOptionalPort],
    [reformatCreateOptions], [StripDisplayWidth], [baseDSN],
    [longestIncreasingSubsequence]), the reserved words ([ReservedWordMap],
    [IsReservedWord]) and [ContainerNameForImage].

    Go values are embedded as follows.
    - [string] is a Rocq [string], a text of bytes; [int], [int64] and
      [uint64] are [Z], with the conversion [int64(x)] of an unsigned value
      written out as [int64].
    - [strings.ToUpper] and [strings.ToLower] map a text of ASCII bytes byte
      by byte, as the library does on its fast path, and any other text
      with the mappings of package [unicode], which are the members of the
      class [Unicode] and are left open.
    - A pointer or an interface value that the code dereferences without a
      check ([diff], [target], [target.Instance], [target.Dir],
      [target.Dir.Config]) is a record: the development covers the calls in
      which they are not nil.
    - [error] is [option error] ([None] is Go's [nil]); a nillable pointer
      result is an [option].
    - [map[string]string] is a [gmap string string].
    - The function's effects are explicit: a heap of [StatementModifiers]
      cells for the one variable whose address is taken ([&mods]), and the
      list of calls made to the database and to the diff.
    - A run-time panic (an index or a slice out of range, a failed type
      assertion) is the outcome [Panic], or [None] for a function without
      another effect. *)

From Stdlib Require Import ZArith String Ascii List Lia DecimalString.
From stdpp Require Import base option gmap strings list sorting.

Local Open Scope Z_scope.

(** ** Strings *)

Definition nl : string := String "010" EmptyString.

(** Go's [strings.ToUpper] and [strings.ToLower] take two paths. A text
    whose bytes are all below [utf8.RuneSelf] (128) is mapped byte by byte:
    the letters a-z to A-Z, or A-Z to a-z, every other byte kept. Any other
    text is mapped rune by rune with [strings.Map(unicode.ToUpper, s)] or
    [strings.Map(unicode.ToLower, s)]; the tables of package [unicode] are
    not among the sources, so these two mappings are the members of a class
    and every definition and theorem that upper-cases or lower-cases a text
    is stated for any of them. *)
Class Unicode : Type := {
  MapToUpper : string -> string;
  MapToLower : string -> string
}.

Fixpoint isASCII (s : string) : bool :=
  match s with
  | EmptyString => true
  | String c rest => (nat_of_ascii c <? 128)%nat && isASCII rest
  end.

Definition upperAscii (c : ascii) : ascii :=
  let n := nat_of_ascii c in
  if ((97 <=? n) && (n <=? 122))%nat then ascii_of_nat (n - 32) else c.

Fixpoint ToUpperASCII (s : string) : string :=
  match s with
  | EmptyString => EmptyString
  | String c rest => String (upperAscii c) (ToUpperASCII rest)
  end.

(** [strings.ToUpper]. *)
Definition ToUpper {uni : Unicode} (s : string) : string :=
  if isASCII s then ToUpperASCII s else MapToUpper s.

(** [strings.Contains s substr]. *)
Fixpoint Contains (s substr : string) : bool :=
  String.prefix substr s
  || match s with
     | EmptyString => false
     | String _ rest => Contains rest substr
     end.

(** The proposition that [Contains] decides. *)
Definition substring (substr s : string) : Prop :=
  exists before after, s = before +:+ substr +:+ after.

(** [strconv.FormatInt(i, 10)] and [strconv.Itoa(i)]. *)
Definition FormatInt (i : Z) : string := NilZero.string_of_int (Z.to_int i).
Definition Itoa (i : Z) : string := FormatInt i.

(** ** Integers *)

(** The conversion [int64(x)] of a [uint64] value [x]: values from [2^63]
    upwards wrap around to negative numbers. *)
Definition int64 (x : Z) : Z := (x + 2 ^ 63) mod 2 ^ 64 - 2 ^ 63.

Definition is_uint64 (x : Z) : Prop := 0 <= x < 2 ^ 64.
Definition is_int64 (x : Z) : Prop := - 2 ^ 63 <= x < 2 ^ 63.

(** ** Errors *)

(** The dynamic types of the [error] values this file creates or tests for.
    [ForbiddenDiffError] is tengo's error for a statement blocked by the
    modifiers, [ConfigError] the applier's own string type, [errorString]
    what [fmt.Errorf] returns without [%w] and [wrapError] what it returns
    with [%w]; [otherError] stands for every other dynamic type. *)
Inductive error : Type :=
  | ForbiddenDiffError (Reason : string)
  | ConfigError (msg : string)
  | errorString (msg : string)
  | wrapError (msg : string) (err : error)
  | otherError (msg : string).

Definition Error (e : error) : string :=
  match e with
  | ForbiddenDiffError msg | ConfigError msg | errorString msg
  | wrapError msg _ | otherError msg => msg
  end.

(** [tengo.IsForbiddenDiff]: a type test on the dynamic type of [err]. *)
Definition IsForbiddenDiff (err : option error) : bool :=
  match err with
  | Some (ForbiddenDiffError _) => true
  | _ => false
  end.

Definition isNil {A : Type} (p : option A) : bool :=
  match p with
  | None => true
  | Some _ => false
  end.

(** ** The tengo interface consumed by the applier *)

(** Modelled from the spec: tengo's object types are not among the sources;
    the diff targets a database-level object, a table or a routine, and
    CLASS is the capitalized object-type name. *)
Inductive ObjectType : Type :=
  | ObjectTypeDatabase
  | ObjectTypeTable
  | ObjectTypeProc
  | ObjectTypeFunc.

Definition ObjectType_Caps (t : ObjectType) : string :=
  match t with
  | ObjectTypeDatabase => "DATABASE"
  | ObjectTypeTable => "TABLE"
  | ObjectTypeProc => "PROCEDURE"
  | ObjectTypeFunc => "FUNCTION"
  end.

Global Instance ObjectType_eq_dec : EqDecision ObjectType.
Proof. solve_decision. Defined.

(** Modelled from the spec: tengo's diff kinds are not among the sources;
    TYPE is the diff kind's display name. *)
Inductive DiffType : Type :=
  | DiffTypeNone
  | DiffTypeCreate
  | DiffTypeDrop
  | DiffTypeAlter
  | DiffTypeRename.

Definition DiffType_String (t : DiffType) : string :=
  match t with
  | DiffTypeNone => EmptyString
  | DiffTypeCreate => "CREATE"
  | DiffTypeDrop => "DROP"
  | DiffTypeAlter => "ALTER"
  | DiffTypeRename => "RENAME"
  end.

Global Instance DiffType_eq_dec : EqDecision DiffType.
Proof. solve_decision. Defined.

Record ObjectKey : Type := {
  ObjectKey_Type : ObjectType;
  ObjectKey_Name : string
}.

(** Modelled from the spec: tengo's statement modifiers are not among the
    sources; the record holds an allow-unsafe override, an optional
    algorithm clause and an optional lock clause. These are the fields the
    applier reads or writes. *)
Record StatementModifiers : Type := {
  AllowUnsafe : bool;
  AlgorithmClause : string;
  LockClause : string
}.

(** Modelled from the spec: the clauses of a table alteration are not among
    the sources; an alteration may add one or more new foreign-key
    constraints besides its other clauses. *)
Inductive TableAlterClause : Type :=
  | AddForeignKey (name : string)
  | OtherAlterClause (text : string).

Definition isAddForeignKey (c : TableAlterClause) : bool :=
  match c with
  | AddForeignKey _ => true
  | OtherAlterClause _ => false
  end.

(** What the applier uses of a [*tengo.TableDiff]: its [Type] field, its
    alter clauses and its [Clauses] method. *)
Record TableDiff : Type := {
  TableDiff_Type : DiffType;
  alterClauses : list TableAlterClause;
  TableDiff_Clauses : StatementModifiers -> string * option error
}.

(** Modelled from the spec: tengo's [SplitAddForeignKeys] is not among the
    sources. It splits a table alteration into the part without and the part
    with the clauses that add foreign keys; the second part is present
    exactly when the alteration adds one or more new foreign-key
    constraints. *)
Definition SplitAddForeignKeys (td : TableDiff)
  : option TableDiff * option TableDiff :=
  let fks := filter (fun c => isAddForeignKey c = true) (alterClauses td) in
  let others := filter (fun c => isAddForeignKey c = false) (alterClauses td) in
  match TableDiff_Type td, fks, others with
  | DiffTypeAlter, _ :: _, [] => (None, Some td)
  | DiffTypeAlter, _ :: _, _ :: _ =>
      (Some {| TableDiff_Type := DiffTypeAlter; alterClauses := others;
               TableDiff_Clauses := TableDiff_Clauses td |},
       Some {| TableDiff_Type := DiffTypeAlter; alterClauses := fks;
               TableDiff_Clauses := TableDiff_Clauses td |})
  | _, _, _ => (Some td, None)
  end.

(** A value of the interface [tengo.ObjectDiff] that is not nil: its three
    methods, and the two facts about its dynamic type that the applier asks
    for, whether it implements [tengo.Compounder] (with what
    [IsCompoundStatement] returns) and whether it is a [*tengo.TableDiff]. *)
Record ObjectDiff : Type := {
  ObjectDiff_ObjectKey : ObjectKey;
  ObjectDiff_DiffType : DiffType;
  ObjectDiff_Statement : StatementModifiers -> string * option error;
  asCompounder : option bool;
  asTableDiff : option TableDiff
}.

(** What the applier uses of a [*tengo.Instance] that is not nil: three
    fields, its display name and the two queries of [getTableSize]. *)
Record Instance : Type := {
  Host : string;
  Port : Z;
  SocketPath : string;
  Instance_String : string;
  TableHasRows : string -> string -> bool * option error;
  TableSize : string -> string -> Z * option error
}.

(** ** Configuration, directory and target *)

(** The typed, read-only lookups of a [*mybase.Config] that is not nil, as
    far as the applier calls them. [GetBytes] returns a [uint64]. *)
Record Config : Type := {
  Config_Get : string -> string;
  Config_Changed : string -> bool;
  Config_GetBool : string -> bool;
  Config_GetBytes : string -> Z * option error;
  Config_GetAllowEnvVar : string -> string
}.

(** A [*fs.Dir] and a [*Target] that are not nil, with a configuration and
    an instance that are not nil. *)
Record Dir : Type := {
  Dir_Config : Config;
  Dir_BaseName : string;
  Dir_Path : string
}.

Record Target : Type := {
  Target_Instance : Instance;
  Target_Dir : Dir;
  Target_SchemaName : string
}.

(** [util.ShellOut], the external command once interpolated. *)
Record ShellOut : Type := {
  Command : string
}.

(** ** DDLStatement *)

Record DDLStatement : Type := {
  stmt : string;
  compound : bool;
  shellOut : option ShellOut;
  instance : Instance;
  schemaName : string;
  connectParams : string
}.

Record ClientState : Type := {
  InstanceName : string;
  SchemaName : string;
  Delimiter : string
}.

(** ** The effects of a construction *)

(** The calls a construction makes to its collaborators, in order: the two
    queries of [getTableSize] on the instance, and the rendering calls on
    the diff with the modifiers they were given. *)
Inductive Event : Type :=
  | QueryTableHasRows (schema table : string)
  | QueryTableSize (schema table : string)
  | CallStatement (mods : StatementModifiers)
  | CallClauses (mods : StatementModifiers).

Definition isSizeQuery (e : Event) : bool :=
  match e with
  | QueryTableHasRows _ _ | QueryTableSize _ _ => true
  | CallStatement _ | CallClauses _ => false
  end.

(** A pointer [*tengo.StatementModifiers] is a location of the heap. *)
Abbreviation loc := nat (only parsing).
Abbreviation Heap := (gmap nat StatementModifiers) (only parsing).

Inductive Outcome (A : Type) : Type :=
  | Done (a : A)
  | Panic.
Arguments Done {A} a.
Arguments Panic {A}.

(** A Go function body: from the heap to its outcome (a returned value or a
    run-time panic), the heap it leaves and the calls it made. *)
Definition M (A : Type) : Type := Heap -> Outcome A * Heap * list Event.

Definition ret {A : Type} (a : A) : M A := fun h => (Done a, h, []).

Definition bind {A B : Type} (m : M A) (f : A -> M B) : M B :=
  fun h =>
    match m h with
    | (Done a, h1, t1) =>
        match f a h1 with
        | (r, h2, t2) => (r, h2, t1 ++ t2)
        end
    | (Panic, h1, t1) => (Panic, h1, t1)
    end.

Global Instance M_ret : MRet M := @ret.
Global Instance M_bind : MBind M := fun A B f m => bind m f.

Definition panic {A : Type} : M A := fun h => (Panic, h, []).
Definition emit (e : Event) : M unit := fun h => (Done tt, h, [e]).

(** A fresh cell for a local variable whose address is taken. *)
Definition alloc (v : StatementModifiers) : M loc :=
  fun h => let l := fresh (dom h) in (Done l, <[l := v]> h, []).

(** [*p]; a location outside the heap is a nil dereference. *)
Definition load (p : loc) : M StatementModifiers :=
  fun h =>
    match h !! p with
    | Some v => (Done v, h, [])
    | None => (Panic, h, [])
    end.

(** [*p = v]. *)
Definition store (p : loc) (v : StatementModifiers) : M unit :=
  fun h =>
    match h !! p with
    | Some _ => (Done tt, <[p := v]> h, [])
    | None => (Panic, h, [])
    end.

Module applier.

(** ** needTableSize (lines 137-160) *)

Definition needTableSize {uni : Unicode} (diff : ObjectDiff)
    (config : Config) : bool :=
  if negb (bool_decide
             (ObjectKey_Type (ObjectDiff_ObjectKey diff) = ObjectTypeTable))
  then false
  else if bool_decide (ObjectDiff_DiffType diff = DiffTypeCreate) then false
  else if existsb (fun opt => Config_Changed config opt)
            ["safe-below-size"; "alter-wrapper-min-size"]%string
  then true
  else if existsb
            (fun opt => Contains (ToUpper (Config_Get config opt)) "{SIZE}")
            ["alter-wrapper"; "ddl-wrapper"]%string
  then true
  else false.

(** ** getTableSize (lines 165-171) *)

Definition getTableSize (target : Target) (tableName : string)
  : M (Z * option error) :=
  let inst := Target_Instance target in
  let schema := Target_SchemaName target in
  emit (QueryTableHasRows schema tableName);;
  let '(hasRows, err) := TableHasRows inst schema tableName in
  if negb hasRows || negb (isNil err) then ret (0, err)
  else
    emit (QueryTableSize schema tableName);;
    ret (TableSize inst schema tableName).

(** ** getWrapper (lines 176-204) *)

Definition getWrapper (config : Config) (diff : ObjectDiff) (tableSize : Z)
    (mods : loc) : M (string * option error) :=
  let wrapper := Config_Get config "ddl-wrapper" in
  if bool_decide
       (ObjectKey_Type (ObjectDiff_ObjectKey diff) = ObjectTypeTable)
     && bool_decide (ObjectDiff_DiffType diff = DiffTypeAlter)
     && Config_Changed config "alter-wrapper"
  then
    let '(minSize, err) := Config_GetBytes config "alter-wrapper-min-size" in
    match err with
    | Some e => ret (EmptyString, Some (ConfigError (Error e)))
    | None =>
        if tableSize >=? int64 minSize then
          let wrapper := Config_Get config "alter-wrapper" in
          if minSize >? 0 then
            m ← load mods;
            if negb (bool_decide (AlgorithmClause m = EmptyString))
               || negb (bool_decide (LockClause m = EmptyString))
            then
              store mods {| AllowUnsafe := AllowUnsafe m;
                            AlgorithmClause := EmptyString;
                            LockClause := EmptyString |};;
              ret (wrapper, None)
            else ret (wrapper, None)
          else ret (wrapper, None)
        else ret (wrapper, None)
    end
  else ret (wrapper, None).

(** ** getConnectParams (lines 208-225) *)

Definition getConnectParams (diff : ObjectDiff) (config : Config) : string :=
  match asTableDiff diff with
  | Some td =>
      if bool_decide (TableDiff_Type td = DiffTypeAlter) then
        if Config_GetBool config "foreign-key-checks"
           && negb (isNil (snd (SplitAddForeignKeys td)))
        then "readTimeout=0&foreign_key_checks=1"
        else "readTimeout=0"
      else if bool_decide (TableDiff_Type td = DiffTypeDrop) then
        "readTimeout=0"
      else EmptyString
  | None => EmptyString
  end.

(** ** ClientState (lines 253-265) *)

Definition DDLStatement_ClientState (ddl : DDLStatement) : ClientState :=
  let cs := {| InstanceName := Instance_String (instance ddl);
               SchemaName := schemaName ddl;
               Delimiter := ";" |} in
  if negb (isNil (shellOut ddl)) then
    {| InstanceName := InstanceName cs; SchemaName := SchemaName cs;
       Delimiter := EmptyString |}
  else if compound ddl then
    {| InstanceName := InstanceName cs; SchemaName := SchemaName cs;
       Delimiter := "//" |}
  else cs.

(** ** NewDDLStatement (lines 33-132) *)

Section NewDDLStatement.

Context {uni : Unicode}.

(** The functions of the package [util] that the construction calls. They are
    not among the sources, so the construction is stated for any of them:
    the width of the terminal on standard error, the word-wrapping of the
    rejected statement, the normalisation of the connect options, and the
    interpolation of the variables into the wrapper's command line. *)
Variable TerminalWidth : Z * option error.
Variable WrapStringWithPadding : string -> Z -> string -> string.
Variable RealConnectOptions : string -> string * option error.
Variable NewInterpolatedShellOut :
  string -> gmap string string -> option ShellOut * option error.

Definition rejectionMessage (commentedOutStmt : string) : string :=
  "Preventing execution of unsafe or potentially destructive statement:"
  +:+ nl +:+ commentedOutStmt +:+ nl
  +:+ "Use --allow-unsafe or --safe-below-size to permit this operation. For more information, see Safety Options section of --help.".

(** Lines 34-43: the statement as first allocated, with the schema name left
    empty for a database-level diff. *)
Definition initialDDL (diff : ObjectDiff) (target : Target) : DDLStatement :=
  {| stmt := EmptyString; compound := false; shellOut := None;
     instance := Target_Instance target;
     schemaName :=
       if bool_decide
            (ObjectKey_Type (ObjectDiff_ObjectKey diff) = ObjectTypeDatabase)
       then EmptyString else Target_SchemaName target;
     connectParams := EmptyString |}.

(** Lines 63-131: the function from the choice of the wrapper onwards, which
    the early returns of the size block skip. [ddl] is the statement as
    first allocated, [mods] the address of the parameter [mods],
    [tableSize] the local variable of that name. *)
Definition finishDDLStatement (diff : ObjectDiff) (target : Target)
    (ddl : DDLStatement) (mods : loc) (tableSize : Z)
  : M (option DDLStatement * option error) :=
  let config := Dir_Config (Target_Dir target) in
  '(wrapper, err) ← getWrapper config diff tableSize mods;
  match err with
  | Some _ => mret (None, err)
  | None =>
      m ← load mods;
      emit (CallStatement m);;
      let '(text, err) := ObjectDiff_Statement diff m in
      if IsForbiddenDiff err then
        let '(terminalWidth, _) := TerminalWidth in
        let commentedOutStmt :=
          "  # " +:+ WrapStringWithPadding text (terminalWidth - 29) "  # " in
        mret (None, Some (errorString (rejectionMessage commentedOutStmt)))
      else if negb (isNil err) then mret (None, err)
      else if bool_decide (text = EmptyString) then mret (None, None)
      else
        let isCompound :=
          match asCompounder diff with
          | Some true => true
          | _ => compound ddl
          end in
        if bool_decide (wrapper = EmptyString) then
          mret (Some {| stmt := text; compound := isCompound;
                        shellOut := shellOut ddl; instance := instance ddl;
                        schemaName := schemaName ddl;
                        connectParams := getConnectParams diff config |},
                None)
        else
          let socket :=
            if negb (bool_decide (SocketPath (instance ddl) = EmptyString))
            then SocketPath (instance ddl) else EmptyString in
          let port :=
            if negb (bool_decide (SocketPath (instance ddl) = EmptyString))
            then EmptyString else Itoa (Port (instance ddl)) in
          let '(connOpts, err) :=
            RealConnectOptions (Config_Get config "connect-options") in
          match err with
          | Some e => mret (None, Some (ConfigError (Error e)))
          | None =>
              let variables : gmap string string :=
                list_to_map
                  [("HOST", Host (instance ddl));
                   ("PORT", port);
                   ("SOCKET", socket);
                   ("SCHEMA", schemaName ddl);
                   ("USER", Config_GetAllowEnvVar config "user");
                   ("PASSWORD", Config_GetAllowEnvVar config "password");
                   ("ENVIRONMENT", Config_Get config "environment");
                   ("DDL", text);
                   ("CLAUSES", EmptyString);
                   ("NAME", ObjectKey_Name (ObjectDiff_ObjectKey diff));
                   ("TABLE", EmptyString);
                   ("SIZE", FormatInt tableSize);
                   ("TYPE", DiffType_String (ObjectDiff_DiffType diff));
                   ("CLASS",
                    ObjectType_Caps
                      (ObjectKey_Type (ObjectDiff_ObjectKey diff)));
                   ("CONNOPTS", connOpts);
                   ("DIRNAME", Dir_BaseName (Target_Dir target));
                   ("DIRPATH", Dir_Path (Target_Dir target))]%string in
              variables ←
                (if bool_decide
                      (ObjectKey_Type (ObjectDiff_ObjectKey diff)
                       = ObjectTypeTable)
                 then
                   match asTableDiff diff with
                   | None => panic
                   | Some td =>
                       m ← load mods;
                       emit (CallClauses m);;
                       let '(clauses, _) := TableDiff_Clauses td m in
                       let variables := <["CLAUSES" := clauses]> variables in
                       mret (<["TABLE" :=
                                 default EmptyString (variables !! "NAME")]>
                               variables)
                   end
                 else mret variables);
              let '(cmd, err) := NewInterpolatedShellOut wrapper variables in
              match err with
              | Some e =>
                  mret (None,
                        Some (wrapError
                                ("A fatal error occurred with pre-processing a DDL statement: "
                                 +:+ Error e +:+ ".") e))
              | None =>
                  mret (Some {| stmt := text; compound := isCompound;
                                shellOut := cmd; instance := instance ddl;
                                schemaName := schemaName ddl;
                                connectParams := connectParams ddl |},
                        None)
              end
          end
  end.

(** The parameter [mods] is passed by value: the function works on a cell of
    its own, initialised with the caller's value, whose address it hands to
    [getWrapper]. *)
Definition NewDDLStatement (diff : ObjectDiff) (mods : StatementModifiers)
    (target : Target) : M (option DDLStatement * option error) :=
  mods ← alloc mods;
  let config := Dir_Config (Target_Dir target) in
  let ddl := initialDDL diff target in
  if needTableSize diff config then
    '(tableSize, err) ←
      getTableSize target (ObjectKey_Name (ObjectDiff_ObjectKey diff));
    match err with
    | Some _ => mret (None, err)
    | None =>
        let '(safeBelowSize, err) :=
          Config_GetBytes config "safe-below-size" in
        match err with
        | Some _ => mret (None, err)
        | None =>
            (if tableSize <? int64 safeBelowSize then
               m ← load mods;
               store mods {| AllowUnsafe := true;
                             AlgorithmClause := AlgorithmClause m;
                             LockClause := LockClause m |}
             else mret tt);;
            finishDDLStatement diff target ddl mods tableSize
        end
    end
  else finishDDLStatement diff target ddl mods 0.

End NewDDLStatement.

End applier.

(** ** The outcomes of a construction *)

Section outcomes.

Import applier.

Context {uni : Unicode}.

Variable TerminalWidth : Z * option error.
Variable WrapStringWithPadding : string -> Z -> string -> string.
Variable NewInterpolatedShellOut :
  string -> gmap string string -> option ShellOut * option error.
Variables (diff : ObjectDiff) (target : Target).

(** What a construction that reached the rendering of the statement returns
    and calls, for the modifiers [m] it rendered with, the wrapper [w] it
    chose and the statement [ddl] as first allocated. *)
Inductive Finished (ddl : DDLStatement) (m : StatementModifiers) (w : string)
  : Outcome (option DDLStatement * option error) -> list Event -> Prop :=
  | Finished_rejected text err :
      ObjectDiff_Statement diff m = (text, err) ->
      IsForbiddenDiff err = true ->
      Finished ddl m w
        (Done (None,
               Some (errorString
                       (rejectionMessage
                          ("  # " +:+ WrapStringWithPadding text
                                        (fst TerminalWidth - 29) "  # ")))))
        [CallStatement m]
  | Finished_error text e :
      ObjectDiff_Statement diff m = (text, Some e) ->
      IsForbiddenDiff (Some e) = false ->
      Finished ddl m w (Done (None, Some e)) [CallStatement m]
  | Finished_noop :
      ObjectDiff_Statement diff m = (EmptyString, None) ->
      Finished ddl m w (Done (None, None)) [CallStatement m]
  | Finished_direct text c :
      ObjectDiff_Statement diff m = (text, None) ->
      text <> EmptyString ->
      w = EmptyString ->
      c = match asCompounder diff with
          | Some true => true
          | _ => compound ddl
          end ->
      Finished ddl m w
        (Done (Some {| stmt := text; compound := c;
                       shellOut := shellOut ddl; instance := instance ddl;
                       schemaName := schemaName ddl;
                       connectParams :=
                         getConnectParams diff
                           (Dir_Config (Target_Dir target)) |},
               None))
        [CallStatement m]
  | Finished_shellOut text c variables cmd post :
      ObjectDiff_Statement diff m = (text, None) ->
      text <> EmptyString ->
      w <> EmptyString ->
      c = match asCompounder diff with
          | Some true => true
          | _ => compound ddl
          end ->
      NewInterpolatedShellOut w variables = (cmd, None) ->
      Forall (fun e => e = CallClauses m) post ->
      Finished ddl m w
        (Done (Some {| stmt := text; compound := c;
                       shellOut := cmd; instance := instance ddl;
                       schemaName := schemaName ddl;
                       connectParams := connectParams ddl |},
               None))
        (CallStatement m :: post)
  | Finished_shellOut_failed text e post :
      ObjectDiff_Statement diff m = (text, None) ->
      text <> EmptyString ->
      w <> EmptyString ->
      Forall (fun e => e = CallClauses m) post ->
      Finished ddl m w (Done (None, Some e)) (CallStatement m :: post)
  | Finished_panic text :
      ObjectDiff_Statement diff m = (text, None) ->
      text <> EmptyString ->
      w <> EmptyString ->
      asTableDiff diff = None ->
      Finished ddl m w Panic [CallStatement m].

(** What the size block (lines 47-61) leaves when it does not return: the
    table size and the modifiers, from the caller's modifiers [mods]. *)
Definition SizeBlock (mods : StatementModifiers) (tableSize : Z)
    (m0 : StatementModifiers) : Prop :=
  if needTableSize diff (Dir_Config (Target_Dir target)) then
    exists safeBelowSize,
      (forall h0 : gmap nat StatementModifiers, exists trq,
          getTableSize target (ObjectKey_Name (ObjectDiff_ObjectKey diff)) h0
          = (Done (tableSize, None), h0, trq))
      /\ Config_GetBytes (Dir_Config (Target_Dir target)) "safe-below-size"
         = (safeBelowSize, None)
      /\ m0 = (if tableSize <? int64 safeBelowSize
               then {| AllowUnsafe := true;
                       AlgorithmClause := AlgorithmClause mods;
                       LockClause := LockClause mods |}
               else mods)
  else tableSize = 0 /\ m0 = mods.

End outcomes.

(** ** The package util, for concrete runs *)

Module util.

(** The words of [s], separated by single spaces; [cur] is the word being
    read. *)
Fixpoint splitWords (s cur : string) : list string :=
  match s with
  | EmptyString => [cur]
  | String c rest =>
      if Ascii.eqb c " " then cur :: splitWords rest EmptyString
      else splitWords rest (cur +:+ String c EmptyString)
  end.

(** The words laid out greedily on lines of at most [lim] characters; [col]
    is the length of the line being filled. *)
Fixpoint wrapWords (lim : nat) (padLeft : string) (col : nat)
    (words : list string) : string :=
  match words with
  | [] => EmptyString
  | word :: rest =>
      if (col =? 0)%nat then
        word +:+ wrapWords lim padLeft (String.length word) rest
      else if (col + 1 + String.length word <=? lim)%nat then
        " " +:+ word
        +:+ wrapWords lim padLeft (col + 1 + String.length word) rest
      else
        nl +:+ padLeft +:+ word
        +:+ wrapWords lim padLeft (String.length word) rest
  end.

(** Modelled from the spec: util.WrapStringWithPadding is not among the
    sources; the rejection message embeds the would-be statement text
    word-wrapped for terminal display. The text is broken at spaces into
    lines of at most [lim] characters where its words allow, and every line
    after the first starts with [padLeft]; a limit that is not positive
    leaves the text as it is. *)
Definition WrapStringWithPadding (s : string) (lim : Z) (padLeft : string)
  : string :=
  if lim <=? 0 then s
  else wrapWords (Z.to_nat lim) padLeft 0 (splitWords s EmptyString).

(** The command with each placeholder replaced by the value of its variable;
    [name] is the placeholder being read, if any, and is looked up with its
    ASCII letters in upper case. *)
Fixpoint interpolate (variables : gmap string string) (command : string)
    (name : option string) : option string :=
  match command, name with
  | EmptyString, None => Some EmptyString
  | EmptyString, Some _ => None
  | String c rest, None =>
      if Ascii.eqb c "{" then interpolate variables rest (Some EmptyString)
      else String c <$> interpolate variables rest None
  | String c rest, Some n =>
      if Ascii.eqb c "}" then
        match variables !! ToUpperASCII n with
        | Some value => String.app value <$> interpolate variables rest None
        | None => None
        end
      else interpolate variables rest (Some (n +:+ String c EmptyString))
  end.

(** Modelled from the spec: util.NewInterpolatedShellOut is not among the
    sources; it renders the command template by substituting each
    recognized placeholder of the form {NAME} and fails on an unknown
    placeholder. *)
Definition NewInterpolatedShellOut (command : string)
    (variables : gmap string string) : option ShellOut * option error :=
  match interpolate variables command None with
  | Some cmd => (Some {| Command := cmd |}, None)
  | None => (None, Some (otherError "unknown variable in command"))
  end.

(** Modelled from the spec: util.RealConnectOptions is not among the
    sources; it validates and normalises the connect-options string. The
    runs of this file pass the empty string, which is valid and normal; any
    other string is reported as an error, so that no run depends on the
    validation rules. *)
Definition RealConnectOptions (connectOptions : string)
  : string * option error :=
  if bool_decide (connectOptions = EmptyString) then (EmptyString, None)
  else (EmptyString, Some (otherError "malformed connect-options")).

End util.

(** ** Inputs for concrete runs *)

Module examples.

Definition noMods : StatementModifiers :=
  {| AllowUnsafe := false; AlgorithmClause := EmptyString;
     LockClause := EmptyString |}.

Definition onlineMods : StatementModifiers :=
  {| AllowUnsafe := false; AlgorithmClause := "inplace";
     LockClause := "none" |}.

(** A configuration in which exactly the options of [set] were given, with
    the byte sizes and booleans they parse to. *)
Definition configOf (set : list (string * string))
    (bytes : list (string * Z)) (bools : list (string * bool)) : Config :=
  {| Config_Get := fun opt =>
       default EmptyString ((list_to_map set : gmap string string) !! opt);
     Config_Changed := fun opt =>
       negb (isNil ((list_to_map set : gmap string string) !! opt));
     Config_GetBool := fun opt =>
       default false ((list_to_map bools : gmap string bool) !! opt);
     Config_GetBytes := fun opt =>
       (default 0 ((list_to_map bytes : gmap string Z) !! opt), None);
     Config_GetAllowEnvVar := fun opt =>
       default EmptyString ((list_to_map set : gmap string string) !! opt) |}.

Definition plainConfig : Config := configOf [] [] [].

(** An instance on which every table has rows and 1024 bytes. *)
Definition db : Instance :=
  {| Host := "db1"; Port := 3306; SocketPath := EmptyString;
     Instance_String := "db1:3306";
     TableHasRows := fun _ _ => (true, None);
     TableSize := fun _ _ => (1024, None) |}.

Definition targetOf (config : Config) : Target :=
  {| Target_Instance := db;
     Target_Dir := {| Dir_Config := config; Dir_BaseName := "shop";
                      Dir_Path := "/schemas/shop" |};
     Target_SchemaName := "shop" |}.

Definition forbiddenUnlessAllowed (text : string) (m : StatementModifiers)
  : string * option error :=
  (text,
   if AllowUnsafe m then None
   else Some (ForbiddenDiffError "destructive statement")).

Definition algorithmAndLock (m : StatementModifiers) : string :=
  (if bool_decide (AlgorithmClause m = EmptyString) then EmptyString
   else ", ALGORITHM=" +:+ AlgorithmClause m)
  +:+ (if bool_decide (LockClause m = EmptyString) then EmptyString
       else ", LOCK=" +:+ LockClause m).

(** DROP TABLE `customer_orders`. *)
Definition dropTable : ObjectDiff :=
  {| ObjectDiff_ObjectKey :=
       {| ObjectKey_Type := ObjectTypeTable;
          ObjectKey_Name := "customer_orders" |};
     ObjectDiff_DiffType := DiffTypeDrop;
     ObjectDiff_Statement :=
       forbiddenUnlessAllowed "DROP TABLE `customer_orders`";
     asCompounder := None;
     asTableDiff :=
       Some {| TableDiff_Type := DiffTypeDrop; alterClauses := [];
               TableDiff_Clauses := fun _ => (EmptyString, None) |} |}.

(** ALTER TABLE `customer_orders` ADD COLUMN `note` text. *)
Definition alterTable : ObjectDiff :=
  {| ObjectDiff_ObjectKey :=
       {| ObjectKey_Type := ObjectTypeTable;
          ObjectKey_Name := "customer_orders" |};
     ObjectDiff_DiffType := DiffTypeAlter;
     ObjectDiff_Statement := fun m =>
       ("ALTER TABLE `customer_orders` ADD COLUMN `note` text"
        +:+ algorithmAndLock m, None);
     asCompounder := None;
     asTableDiff :=
       Some {| TableDiff_Type := DiffTypeAlter;
               alterClauses := [OtherAlterClause "ADD COLUMN `note` text"];
               TableDiff_Clauses := fun m =>
                 ("ADD COLUMN `note` text" +:+ algorithmAndLock m, None) |} |}.

(** CREATE TABLE `notes`. *)
Definition createTable : ObjectDiff :=
  {| ObjectDiff_ObjectKey :=
       {| ObjectKey_Type := ObjectTypeTable; ObjectKey_Name := "notes" |};
     ObjectDiff_DiffType := DiffTypeCreate;
     ObjectDiff_Statement := fun _ =>
       ("CREATE TABLE `notes` (`id` int NOT NULL, PRIMARY KEY (`id`))", None);
     asCompounder := None;
     asTableDiff :=
       Some {| TableDiff_Type := DiffTypeCreate; alterClauses := [];
               TableDiff_Clauses := fun _ => (EmptyString, None) |} |}.

(** CREATE PROCEDURE `tally`, whose body is a compound statement. *)
Definition createProc : ObjectDiff :=
  {| ObjectDiff_ObjectKey :=
       {| ObjectKey_Type := ObjectTypeProc; ObjectKey_Name := "tally" |};
     ObjectDiff_DiffType := DiffTypeCreate;
     ObjectDiff_Statement := fun _ =>
       ("CREATE PROCEDURE `tally`() BEGIN SELECT 1; SELECT 2; END", None);
     asCompounder := Some true;
     asTableDiff := None |}.

(** DROP PROCEDURE `tally`. *)
Definition dropProc : ObjectDiff :=
  {| ObjectDiff_ObjectKey :=
       {| ObjectKey_Type := ObjectTypeProc; ObjectKey_Name := "tally" |};
     ObjectDiff_DiffType := DiffTypeDrop;
     ObjectDiff_Statement := forbiddenUnlessAllowed "DROP PROCEDURE `tally`";
     asCompounder := Some false;
     asTableDiff := None |}.

(** An alteration that the modifiers reduce to nothing. *)
Definition noopAlter : ObjectDiff :=
  {| ObjectDiff_ObjectKey :=
       {| ObjectKey_Type := ObjectTypeTable;
          ObjectKey_Name := "customer_orders" |};
     ObjectDiff_DiffType := DiffTypeAlter;
     ObjectDiff_Statement := fun _ => (EmptyString, None);
     asCompounder := None;
     asTableDiff :=
       Some {| TableDiff_Type := DiffTypeAlter; alterClauses := [];
               TableDiff_Clauses := fun _ => (EmptyString, None) |} |}.

(** An alteration that the diff cannot render. *)
Definition unsupportedAlter : ObjectDiff :=
  {| ObjectDiff_ObjectKey :=
       {| ObjectKey_Type := ObjectTypeTable;
          ObjectKey_Name := "customer_orders" |};
     ObjectDiff_DiffType := DiffTypeAlter;
     ObjectDiff_Statement := fun _ =>
       (EmptyString, Some (otherError "unsupported table alteration"));
     asCompounder := None;
     asTableDiff :=
       Some {| TableDiff_Type := DiffTypeAlter; alterClauses := [];
               TableDiff_Clauses := fun _ => (EmptyString, None) |} |}.

(** ALTER TABLE `customer_orders` with an index and a new foreign key. *)
Definition addForeignKey : ObjectDiff :=
  {| ObjectDiff_ObjectKey :=
       {| ObjectKey_Type := ObjectTypeTable;
          ObjectKey_Name := "customer_orders" |};
     ObjectDiff_DiffType := DiffTypeAlter;
     ObjectDiff_Statement := fun _ =>
       ("ALTER TABLE `customer_orders` ADD KEY `customer` (`customer_id`), ADD CONSTRAINT `fk_customer` FOREIGN KEY (`customer_id`) REFERENCES `customers` (`id`)",
        None);
     asCompounder := None;
     asTableDiff :=
       Some {| TableDiff_Type := DiffTypeAlter;
               alterClauses :=
                 [OtherAlterClause "ADD KEY `customer` (`customer_id`)";
                  AddForeignKey "fk_customer"];
               TableDiff_Clauses := fun _ => (EmptyString, None) |} |}.

(** ALTER DATABASE `shop`, a database-level diff. *)
Definition alterDatabase : ObjectDiff :=
  {| ObjectDiff_ObjectKey :=
       {| ObjectKey_Type := ObjectTypeDatabase; ObjectKey_Name := "shop" |};
     ObjectDiff_DiffType := DiffTypeAlter;
     ObjectDiff_Statement := fun _ =>
       ("ALTER DATABASE `shop` CHARACTER SET utf8mb4", None);
     asCompounder := None;
     asTableDiff := None |}.

(** An instance whose tables have no rows, although its catalog reports
    16384 bytes for each. *)
Definition emptyDb : Instance :=
  {| Host := "db2"; Port := 3306; SocketPath := EmptyString;
     Instance_String := "db2:3306";
     TableHasRows := fun _ _ => (false, None);
     TableSize := fun _ _ => (16384, None) |}.

(** safe-below-size and alter-wrapper-min-size set to 2^63 bytes. *)
Definition hugeSafeBelowSize : Config :=
  configOf [("safe-below-size", "9223372036854775808")]
    [("safe-below-size", 9223372036854775808)] [].

Definition hugeAlterWrapperMinSize : Config :=
  configOf
    [("alter-wrapper", "pt-osc {SCHEMA}.{TABLE} {CLAUSES}");
     ("alter-wrapper-min-size", "9223372036854775808")]
    [("alter-wrapper-min-size", 9223372036854775808)] [].

(** safe-below-size set to 2048 bytes. *)
Definition smallSafeBelowSize : Config :=
  configOf [("safe-below-size", "2048")] [("safe-below-size", 2048)] [].

(** alter-wrapper for tables of 512 bytes and more. *)
Definition alterWrapperFrom512 : Config :=
  configOf
    [("alter-wrapper", "pt-osc {SCHEMA}.{TABLE} {CLAUSES}");
     ("alter-wrapper-min-size", "512")]
    [("alter-wrapper-min-size", 512)] [].

(** Foreign-key checking enabled. *)
Definition fkChecks : Config :=
  configOf [("foreign-key-checks", "1")] [] [("foreign-key-checks", true)].

(** A wrapper for every statement. *)
Definition ddlWrapper : Config :=
  configOf [("ddl-wrapper", "run-ddl {SCHEMA} {DDL}")] [] [].

(** A wrapper that names its placeholders in lower case. *)
Definition lowerCaseWrapper : Config :=
  configOf [("ddl-wrapper", "run-ddl {schema} {ddl} {size}")] [] [].

(** The texts that the runs of this file upper-case or lower-case are texts
    of ASCII bytes, for which the mappings of package [unicode] are not
    consulted, or hold no letter outside ASCII that has another case, which
    the mappings keep as they are; the mappings are the identity here. *)
Definition unicode : Unicode :=
  {| MapToUpper := fun s => s; MapToLower := fun s => s |}.

(** A construction with the functions of [util] above, on a terminal of the
    given width. *)
Definition construct (width : Z) :=
  applier.NewDDLStatement (uni := unicode) (width, None)
    util.WrapStringWithPadding util.RealConnectOptions
    util.NewInterpolatedShellOut.

End examples.

(** ** Readings of the specification that the code does not satisfy *)

Module stated.

Import applier.

Section stated.

Context {uni : Unicode}.

Variable TerminalWidth : Z * option error.
Variable WrapStringWithPadding : string -> Z -> string -> string.
Variable RealConnectOptions : string -> string * option error.
Variable NewInterpolatedShellOut :
  string -> gmap string string -> option ShellOut * option error.
Variables (diff : ObjectDiff) (mods : StatementModifiers) (target : Target).
Variable h : gmap nat StatementModifiers.

Local Abbreviation run :=
  (NewDDLStatement TerminalWidth WrapStringWithPadding RealConnectOptions
     NewInterpolatedShellOut diff mods target h).

(** A rejection returns no statement and an error whose text contains the
    statement text itself and names both remediation options. *)
Definition rejection_contains_statement : Prop :=
  forall res h' tr m text err,
    run = (res, h', tr) ->
    CallStatement m ∈ tr ->
    ObjectDiff_Statement diff m = (text, err) ->
    IsForbiddenDiff err = true ->
    exists e,
      res = Done (None, Some e)
      /\ substring text (Error e)
      /\ substring "--allow-unsafe" (Error e)
      /\ substring "--safe-below-size" (Error e).

(** Exactly one of a non-empty statement text and an external command. *)
Definition text_xor_command : Prop :=
  forall ddl h' tr,
    run = (Done (Some ddl, None), h', tr) ->
    (stmt ddl <> EmptyString /\ shellOut ddl = None)
    \/ (stmt ddl = EmptyString /\ shellOut ddl <> None).

(** The compound flag is set only without an external command. *)
Definition compound_only_without_command : Prop :=
  forall ddl h' tr,
    run = (Done (Some ddl, None), h', tr) ->
    compound ddl = true -> shellOut ddl = None.

End stated.

(** For some input the caller's modifiers, held in a cell [c] of the heap and
    passed to the construction, differ once it has returned. *)
Definition caller_modifiers_mutated : Prop :=
  exists (uni : Unicode) TerminalWidth WrapStringWithPadding
         RealConnectOptions NewInterpolatedShellOut diff mods target
         (h : gmap nat StatementModifiers) c res h' tr,
    h !! c = Some mods
    /\ NewDDLStatement TerminalWidth WrapStringWithPadding RealConnectOptions
         NewInterpolatedShellOut diff mods target h = (res, h', tr)
    /\ h' !! c <> Some mods.

(** The connect params follow from the diff kind alone: in particular every
    drop has the unlimited read timeout. *)
Definition connect_params_by_kind (diff : ObjectDiff) (config : Config)
  : Prop :=
  (forall td,
      asTableDiff diff = Some td -> TableDiff_Type td = DiffTypeAlter ->
      Config_GetBool config "foreign-key-checks" = true ->
      (exists c, c ∈ alterClauses td /\ isAddForeignKey c = true) ->
      getConnectParams diff config = "readTimeout=0&foreign_key_checks=1")
  /\ (forall td,
        asTableDiff diff = Some td -> TableDiff_Type td = DiffTypeAlter ->
        (forall c, c ∈ alterClauses td -> isAddForeignKey c = false) ->
        getConnectParams diff config = "readTimeout=0")
  /\ (ObjectDiff_DiffType diff = DiffTypeDrop ->
      getConnectParams diff config = "readTimeout=0")
  /\ (ObjectDiff_DiffType diff = DiffTypeCreate ->
      getConnectParams diff config = EmptyString).

(** The size is needed exactly for a table diff other than a creation with a
    size threshold set or a wrapper template that contains the text
    {SIZE}. *)
Definition size_needed_iff_literal {uni : Unicode} (diff : ObjectDiff)
    (config : Config) : Prop :=
  needTableSize diff config = true
  <-> ObjectKey_Type (ObjectDiff_ObjectKey diff) = ObjectTypeTable
      /\ ObjectDiff_DiffType diff <> DiffTypeCreate
      /\ (Config_Changed config "safe-below-size" = true
          \/ Config_Changed config "alter-wrapper-min-size" = true
          \/ Contains (Config_Get config "alter-wrapper") "{SIZE}" = true
          \/ Contains (Config_Get config "ddl-wrapper") "{SIZE}" = true).

End stated.

(** ** A diff of another implementation *)

(** A diff whose key names a table while the diff itself is not a
    [*tengo.TableDiff]: the interface [tengo.ObjectDiff] allows it. *)
Definition tableDiffOfAnotherType : ObjectDiff :=
  {| ObjectDiff_ObjectKey :=
       {| ObjectKey_Type := ObjectTypeTable; ObjectKey_Name := "notes" |};
     ObjectDiff_DiffType := DiffTypeAlter;
     ObjectDiff_Statement := fun _ =>
       ("ALTER TABLE `notes` COMMENT 'kept'", None);
     asCompounder := None;
     asTableDiff := None |}.

(** ** Execute and Statement (lines 229-249) *)

(** The calls that [Execute] makes, in order: the run of the external
    command, the request for the connection pool of a schema with its
    connection parameters, and the query sent to that pool. *)
Inductive ExecEvent : Type :=
  | CallRun (cmd : ShellOut)
  | CallCachedConnectionPool (schema params : string)
  | CallExec (query : string).

Section Execute.

(** The methods of [util.ShellOut] and of [tengo.Instance] that the two
    functions call are not among the sources, so the functions are stated
    for any of them. [CachedConnectionPool] returns a pool or an error, and
    [Exec] is the method of the pool with its first result dropped. *)
Variable DB : Type.
Variable ShellOut_Run : ShellOut -> option error.
Variable ShellOut_String : ShellOut -> string.
Variable CachedConnectionPool : Instance -> string -> string -> DB + error.
Variable Exec : DB -> string -> option error.

Definition DDLStatement_Execute (ddl : DDLStatement)
  : option error * list ExecEvent :=
  match shellOut ddl with
  | Some cmd => (ShellOut_Run cmd, [CallRun cmd])
  | None =>
      match CachedConnectionPool (instance ddl) (schemaName ddl)
              (connectParams ddl) with
      | inr err =>
          (Some err,
           [CallCachedConnectionPool (schemaName ddl) (connectParams ddl)])
      | inl db =>
          (Exec db (stmt ddl),
           [CallCachedConnectionPool (schemaName ddl) (connectParams ddl);
            CallExec (stmt ddl)])
      end
  end.

Definition DDLStatement_Statement (ddl : DDLStatement) : string :=
  match shellOut ddl with
  | Some cmd => "\! " +:+ ShellOut_String cmd
  | None => stmt ddl
  end.

End Execute.

(** ** Go's strings package, as far as package tengo uses it *)

Module gostrings.

Definition lowerAscii (c : ascii) : ascii :=
  let n := nat_of_ascii c in
  if ((65 <=? n) && (n <=? 90))%nat then ascii_of_nat (n + 32) else c.

Fixpoint ToLowerASCII (s : string) : string :=
  match s with
  | EmptyString => EmptyString
  | String c rest => String (lowerAscii c) (ToLowerASCII rest)
  end.

(** [strings.ToLower]: byte by byte on a text of ASCII bytes, rune by rune
    with the mapping of package [unicode] on any other text. *)
Definition ToLower {uni : Unicode} (s : string) : string :=
  if isASCII s then ToLowerASCII s else MapToLower s.

(** [strings.IndexByte s c], also [strings.IndexRune] for an ASCII rune: the
    index of the first [c] in [s], or -1. *)
Fixpoint IndexByte (s : string) (c : ascii) : Z :=
  match s with
  | EmptyString => -1
  | String d rest =>
      if Ascii.eqb d c then 0
      else let i := IndexByte rest c in if i <? 0 then -1 else i + 1
  end.

(** [s[lo:hi]]; [None] is the panic on bounds out of range. *)
Definition slice (s : string) (lo hi : Z) : option string :=
  if (0 <=? lo) && (lo <=? hi) && (hi <=? Z.of_nat (String.length s)) then
    Some (String.substring (Z.to_nat lo) (Z.to_nat (hi - lo)) s)
  else None.

(** [s[i]]; [None] is the panic on an index out of range. *)
Definition byteAt (s : string) (i : Z) : option ascii :=
  if 0 <=? i then String.get (Z.to_nat i) s else None.

(** [strings.HasSuffix]. *)
Definition HasSuffix (s suffix : string) : bool :=
  (String.length suffix <=? String.length s)%nat
  && String.eqb
       (String.substring (String.length s - String.length suffix)
          (String.length suffix) s)
       suffix.

(** [strings.Replace(s, old, new, -1)] and [strings.ReplaceAll] for an [old]
    of one byte. *)
Fixpoint ReplaceAllByte (s : string) (old : ascii) (new : string) : string :=
  match s with
  | EmptyString => EmptyString
  | String c rest =>
      (if Ascii.eqb c old then new else String c EmptyString)
      +:+ ReplaceAllByte rest old new
  end.

Fixpoint dropString (n : nat) (s : string) : string :=
  match n, s with
  | O, _ => s
  | S n, String _ rest => dropString n rest
  | S _, EmptyString => EmptyString
  end.

(** [strings.Replace(s, old, new, 1)]: the first occurrence only. *)
Fixpoint ReplaceFirst (s old new : string) : string :=
  if String.prefix old s then new +:+ dropString (String.length old) s
  else
    match s with
    | EmptyString => EmptyString
    | String c rest => String c (ReplaceFirst rest old new)
    end.

(** [strings.Split(s, sep)] for a separator of one byte. *)
Fixpoint Split (s : string) (sep : ascii) : list string :=
  match s with
  | EmptyString => [EmptyString]
  | String c rest =>
      if Ascii.eqb c sep then EmptyString :: Split rest sep
      else
        match Split rest sep with
        | first :: others => String c first :: others
        | [] => [String c EmptyString]
        end
  end.

(** [strings.SplitAfter(s, sep)] for a separator of one byte. *)
Fixpoint SplitAfter (s : string) (sep : ascii) : list string :=
  match s with
  | EmptyString => [EmptyString]
  | String c rest =>
      if Ascii.eqb c sep then String c EmptyString :: SplitAfter rest sep
      else
        match SplitAfter rest sep with
        | first :: others => String c first :: others
        | [] => [String c EmptyString]
        end
  end.

(** The text before and after the first [sep], if there is one. *)
Fixpoint cut (s : string) (sep : ascii) : option (string * string) :=
  match s with
  | EmptyString => None
  | String c rest =>
      if Ascii.eqb c sep then Some (EmptyString, rest)
      else
        match cut rest sep with
        | Some (before, after) => Some (String c before, after)
        | None => None
        end
  end.

(** [strings.SplitN(s, sep, 2)] for a separator of one byte. *)
Definition SplitN2 (s : string) (sep : ascii) : list string :=
  match cut s sep with
  | Some (before, after) => [before; after]
  | None => [s]
  end.

(** [strings.Join]. *)
Fixpoint Join (elems : list string) (sep : string) : string :=
  match elems with
  | [] => EmptyString
  | [x] => x
  | x :: rest => x +:+ sep +:+ Join rest sep
  end.

End gostrings.

(** ** Package tengo: util.go *)

Module tengo.

Import gostrings.

Definition backtick : ascii := "`".
Definition quote : ascii := "'".
Definition doubleQuote : ascii := "034".
Definition backslash : ascii := "\".
Definition NUL : ascii := "000".
Definition LF : ascii := "010".
Definition CR : ascii := "013".

(** [EscapeIdentifier] (lines 16-19). *)
Definition EscapeIdentifier (input : string) : string :=
  let escaped := ReplaceAllByte input backtick "``" in
  "`" +:+ escaped +:+ "`".

(** [EscapeValueForCreateTable] (lines 25-37). *)
Definition replacements : list (ascii * string) :=
  [ (backslash, String backslash (String backslash EmptyString));
    (NUL, String backslash "0");
    (quote, "''");
    (LF, String backslash "n");
    (CR, String backslash "r") ].

Definition EscapeValueForCreateTable (input : string) : string :=
  fold_left
    (fun input operation =>
       ReplaceAllByte input (fst operation) (snd operation))
    replacements input.

(** [SplitHostOptionalPort] (lines 46-74). *)
Section SplitHostOptionalPort.

(** Go's [net.SplitHostPort] and [strconv.Atoi], of the standard library. *)
Variable SplitHostPort : string -> string * string * option error.
Variable Atoi : string -> Z * option error.

Definition SplitHostOptionalPort (hostaddr : string)
  : Outcome (string * Z * option error) :=
  if (String.length hostaddr =? 0)%nat then
    Done (EmptyString, 0,
          Some (errorString "Cannot parse blank host address"))
  else
    match byteAt hostaddr 0,
          byteAt hostaddr (Z.of_nat (String.length hostaddr) - 1) with
    | Some first, Some final =>
        if (Ascii.eqb first "[" && Ascii.eqb final "]")
           || (length (Split hostaddr ":") =? 1)%nat
        then Done (hostaddr, 0, None)
        else
          let '(host, portString, err) := SplitHostPort hostaddr in
          if negb (isNil err) then Done (EmptyString, 0, err)
          else
            let '(port, err) := Atoi portString in
            if negb (isNil err) then Done (EmptyString, 0, err)
            else if port <? 1 then
              Done (EmptyString, 0,
                    Some (errorString
                            ("invalid port " +:+ FormatInt port
                             +:+ " supplied")))
            else if Ascii.eqb first "[" then
              match byteAt host 0 with
              | None => Panic
              | Some h =>
                  if negb (Ascii.eqb h "[") then
                    Done ("[" +:+ host +:+ "]", port, None)
                  else Done (host, port, None)
              end
            else Done (host, port, None)
    | _, _ => Panic
    end.

End SplitHostOptionalPort.

(** [reformatCreateOptions] (lines 120-151); [Panic] is an index or a slice
    out of range. *)
Definition reformatOption {uni : Unicode} (kv : string)
  : Outcome (option string) :=
  let tokens := SplitN2 kv "=" in
  match tokens with
  | [] => Panic
  | name :: values =>
      match byteAt name 0 with
      | None => Panic
      | Some c =>
          let name := if negb (Ascii.eqb c backtick) then ToUpper name
                      else name in
          match values with
          | [] =>
              if negb (String.eqb name "PARTITIONED") then Done (Some name)
              else Done None
          | value :: _ =>
              match byteAt value 0 with
              | None => Panic
              | Some v0 =>
                  if Ascii.eqb v0 doubleQuote then
                    match byteAt value
                            (Z.of_nat (String.length value) - 1) with
                    | None => Panic
                    | Some vn =>
                        if Ascii.eqb vn doubleQuote then
                          match slice value 1
                                  (Z.of_nat (String.length value) - 1) with
                          | None => Panic
                          | Some inner =>
                              Done (Some (name +:+ "="
                                          +:+ "'" +:+ inner +:+ "'"))
                          end
                        else Done (Some (name +:+ "=" +:+ value))
                    end
                  else Done (Some (name +:+ "=" +:+ value))
              end
          end
      end
  end.

Fixpoint reformatOptions {uni : Unicode} (options result : list string)
  : Outcome (list string) :=
  match options with
  | [] => Done result
  | kv :: options =>
      match reformatOption kv with
      | Panic => Panic
      | Done None => reformatOptions options result
      | Done (Some option) => reformatOptions options (result ++ [option])
      end
  end.

Definition reformatCreateOptions {uni : Unicode} (input : string)
  : Outcome string :=
  if String.eqb input EmptyString then Done EmptyString
  else
    let options := Split input " " in
    match reformatOptions options [] with
    | Panic => Panic
    | Done result => Done (Join result " ")
    end.

(** [StripDisplayWidth] (lines 178-191); [Panic] is a slice out of range. *)
Definition StripDisplayWidth {uni : Unicode} (colType : string)
  : Outcome (string * bool) :=
  let input := ToLower colType in
  if negb (Contains input "int(") && negb (String.eqb input "year(4)") then
    Done (colType, false)
  else if String.eqb input "tinyint(1)" || HasSuffix input "zerofill" then
    Done (colType, false)
  else
    let openParen := IndexByte colType "(" in
    let modifier :=
      if HasSuffix input " unsigned" then " unsigned" else EmptyString in
    match slice colType 0 openParen with
    | None => Panic
    | Some base => Done (base +:+ modifier, true)
    end.

(** [baseDSN] (lines 195-198). *)
Definition baseDSN (dsn : string) : Outcome string :=
  let tokens := SplitAfter dsn "/" in
  if (1 <=? length tokens)%nat then
    Done (Join (take (length tokens - 1) tokens) EmptyString)
  else Panic.

(** [longestIncreasingSubsequence] (lines 238-264). *)

(** [copy(dst, src)] on slices that share no memory: the first
    [min(len(dst), len(src))] elements of [dst] become those of [src]. *)
Definition copy (dst src : list Z) : list Z :=
  take (length dst) src ++ drop (length src) dst.

(** [l[len(l)-1] = x]; the index is out of range for an empty slice. *)
Definition setLast (l : list Z) (x : Z) : option (list Z) :=
  match length l with
  | O => None
  | S n => Some (<[n := x]> l)
  end.

(** The inner loop of lines 254-260, for [j] from [n - 1] down to 0. *)
Fixpoint lisReplace (candidateLists : list (list Z)) (comp : Z) (n : nat)
  : option (list (list Z)) :=
  match n with
  | O => Some candidateLists
  | S j =>
      thisList ← candidateLists !! j;
      nextList ← candidateLists !! S j;
      tail ← last thisList;
      if comp >? tail then
        nextList ← setLast (copy nextList thisList) comp;
        Some (<[S j := nextList]> candidateLists)
      else lisReplace candidateLists comp j
  end.

(** The body of the loop of lines 244-262 for [comp = input[i]]. *)
Definition lisStep (candidateLists : list (list Z)) (comp : Z)
  : option (list (list Z)) :=
  firstList ← candidateLists !! 0%nat;
  smallest ← firstList !! 0%nat;
  if comp <? smallest then
    Some (<[0%nat := <[0%nat := comp]> firstList]> candidateLists)
  else
    longestList ← last candidateLists;
    tail ← last longestList;
    if comp >? tail then
      let newList := replicate (length longestList + 1) 0 in
      let newList := copy newList longestList in
      let newList := <[length longestList := comp]> newList in
      Some (candidateLists ++ [newList])
    else lisReplace candidateLists comp (length candidateLists - 1).

Fixpoint lisLoop (candidateLists : list (list Z)) (rest : list Z)
  : option (list (list Z)) :=
  match rest with
  | [] => Some candidateLists
  | comp :: rest =>
      candidateLists ← lisStep candidateLists comp;
      lisLoop candidateLists rest
  end.

(** [None] is a run-time panic on an index out of range. *)
Definition longestIncreasingSubsequence (input : list Z) : option (list Z) :=
  if (length input <? 2)%nat then Some input
  else
    first ← input !! 0%nat;
    candidateLists ← lisLoop [[first]] (drop 1 input);
    last candidateLists.

(** ** Package tengo: docker.go *)

(** [ContainerNameForImage]. *)
Definition ContainerNameForImage (image : string) : string :=
  let image :=
    if Contains image "/" then
      let image := ReplaceFirst image "/mysql-server" EmptyString in
      ReplaceAllByte image "/" "-"
    else image in
  ReplaceAllByte image ":" "-".

End tengo.
(** ** Package tengo: reserved words *)

(** The type [Flavor], its method [Min] and the flavors that the tables
    below name are not among the sources; the functions are stated for any
    of them. *)
Class FlavorAPI (Flavor : Type) `{Countable Flavor} := {
  Flavor_Min : Flavor -> Flavor -> bool;
  FlavorMySQL56 : Flavor;
  FlavorMySQL57 : Flavor;
  FlavorMySQL80 : Flavor;
  FlavorMariaDB101 : Flavor;
  FlavorMariaDB102 : Flavor;
  FlavorMariaDB103 : Flavor;
  FlavorMariaDB106 : Flavor
}.

Module keyword.

Import gostrings.

(** [commonReservedWords] (lines 98-325). *)
Definition commonReservedWords : list string :=
  [
    "accessible"; "add"; "all"; "alter"; "analyze"; "and"; "as"; "asc";
    "asensitive"; "before"; "between"; "bigint"; "binary"; "blob"; "both";
    "by"; "call"; "cascade"; "case"; "change"; "char"; "character"; "check";
    "collate"; "column"; "condition"; "constraint"; "continue"; "convert";
    "create"; "cross"; "current_date"; "current_time"; "current_timestamp";
    "current_user"; "cursor"; "database"; "databases"; "day_hour";
    "day_microsecond"; "day_minute"; "day_second"; "dec"; "decimal";
    "declare"; "default"; "delayed"; "delete"; "desc"; "describe";
    "deterministic"; "distinct"; "distinctrow"; "div"; "double"; "drop";
    "dual"; "each"; "else"; "elseif"; "enclosed"; "escaped"; "exists"; "exit";
    "explain"; "false"; "fetch"; "float"; "float4"; "float8"; "for"; "force";
    "foreign"; "from"; "fulltext"; "grant"; "group"; "having";
    "high_priority"; "hour_microsecond"; "hour_minute"; "hour_second"; "if";
    "ignore"; "in"; "index"; "infile"; "inner"; "inout"; "insensitive";
    "insert"; "int"; "int1"; "int2"; "int3"; "int4"; "int8"; "integer";
    "interval"; "into"; "is"; "iterate"; "join"; "key"; "keys"; "kill";
    "leading"; "leave"; "left"; "like"; "limit"; "linear"; "lines"; "load";
    "localtime"; "localtimestamp"; "lock"; "long"; "longblob"; "longtext";
    "loop"; "low_priority"; "master_ssl_verify_server_cert"; "match";
    "maxvalue"; "mediumblob"; "mediumint"; "mediumtext"; "middleint";
    "minute_microsecond"; "minute_second"; "mod"; "modifies"; "natural";
    "not"; "no_write_to_binlog"; "null"; "numeric"; "on"; "optimize";
    "option"; "optionally"; "or"; "order"; "out"; "outer"; "outfile";
    "precision"; "primary"; "procedure"; "purge"; "range"; "read"; "reads";
    "read_write"; "real"; "references"; "regexp"; "release"; "rename";
    "repeat"; "replace"; "require"; "resignal"; "restrict"; "return";
    "revoke"; "right"; "rlike"; "schema"; "schemas"; "second_microsecond";
    "select"; "sensitive"; "separator"; "set"; "show"; "signal"; "smallint";
    "spatial"; "specific"; "sql"; "sqlexception"; "sqlstate"; "sqlwarning";
    "sql_big_result"; "sql_calc_found_rows"; "sql_small_result"; "ssl";
    "starting"; "straight_join"; "table"; "terminated"; "then"; "tinyblob";
    "tinyint"; "tinytext"; "to"; "trailing"; "trigger"; "true"; "undo";
    "union"; "unique"; "unlock"; "unsigned"; "update"; "usage"; "use";
    "using"; "utc_date"; "utc_time"; "utc_timestamp"; "values"; "varbinary";
    "varchar"; "varcharacter"; "varying"; "when"; "where"; "while"; "with";
    "write"; "xor"; "year_month"; "zerofill"
  ]%string.

(** A map [map[string]bool]: a key that is absent reads as [false]. *)
Abbreviation wordMap := (gmap string bool) (only parsing).

(** The package variable [reservedWordsByFlavor], [None] while it is nil,
    and the maps that its entries refer to: an entry holds a reference to a
    map, which is also what [ReservedWordMap] returns. The functions are
    modelled as run by one goroutine at a time. *)
Record Keywords (Flavor : Type) `{Countable Flavor} : Type := {
  reservedWordsByFlavor : option (gmap Flavor nat);
  wordMaps : gmap nat (gmap string bool)
}.
Arguments reservedWordsByFlavor {Flavor _ _} _.
Arguments wordMaps {Flavor _ _} _.

Section keyword.

Context {uni : Unicode} `{FlavorAPI Flavor}.

(** [reservedWordsAddedInFlavor] (lines 342-400), in the order of the
    source; the order in which Go ranges over the map is not fixed, and the
    map that is built does not depend on it. *)
Definition reservedWordsAddedInFlavor : list (string * list Flavor) :=
  [
    ("get", [FlavorMySQL56]);
    ("io_after_gtids", [FlavorMySQL56]);
    ("io_before_gtids", [FlavorMySQL56]);
    ("master_bind", [FlavorMySQL56]);
    ("partition", [FlavorMySQL56; FlavorMariaDB101]);
    ("generated", [FlavorMySQL57]);
    ("optimizer_costs", [FlavorMySQL57]);
    ("stored", [FlavorMySQL57]);
    ("virtual", [FlavorMySQL57]);
    ("cube", [FlavorMySQL80]);
    ("cume_dist", [FlavorMySQL80]);
    ("dense_rank", [FlavorMySQL80]);
    ("empty", [FlavorMySQL80]);
    ("except", [FlavorMySQL80; FlavorMariaDB103]);
    ("first_value", [FlavorMySQL80]);
    ("function", [FlavorMySQL80]);
    ("grouping", [FlavorMySQL80]);
    ("groups", [FlavorMySQL80]);
    ("intersect", [FlavorMySQL80; FlavorMariaDB103]);
    ("json_table", [FlavorMySQL80]);
    ("lag", [FlavorMySQL80]);
    ("last_value", [FlavorMySQL80]);
    ("lateral", [FlavorMySQL80]);
    ("lead", [FlavorMySQL80]);
    ("nth_value", [FlavorMySQL80]);
    ("ntile", [FlavorMySQL80]);
    ("of", [FlavorMySQL80]);
    ("over", [FlavorMySQL80; FlavorMariaDB102]);
    ("percent_rank", [FlavorMySQL80]);
    ("rank", [FlavorMySQL80]);
    ("recursive", [FlavorMySQL80; FlavorMariaDB102]);
    ("row", [FlavorMySQL80]);
    ("rows", [FlavorMySQL80; FlavorMariaDB102]);
    ("row_number", [FlavorMySQL80]);
    ("system", [FlavorMySQL80]);
    ("window", [FlavorMySQL80]);
    ("current_role", [FlavorMariaDB101]);
    ("delete_domain_id", [FlavorMariaDB101]);
    ("do_domain_ids", [FlavorMariaDB101]);
    ("general", [FlavorMariaDB101]);
    ("ignore_domain_ids", [FlavorMariaDB101]);
    ("ignore_server_ids", [FlavorMariaDB101]);
    ("master_heartbeat_period", [FlavorMariaDB101]);
    ("page_checksum", [FlavorMariaDB101]);
    ("parse_vcol_expr", [FlavorMariaDB101]);
    ("position", [FlavorMariaDB101]);
    ("ref_system_id", [FlavorMariaDB101]);
    ("returning", [FlavorMariaDB101]);
    ("slow", [FlavorMariaDB101]);
    ("stats_auto_recalc", [FlavorMariaDB101]);
    ("stats_persistent", [FlavorMariaDB101]);
    ("stats_sample_pages", [FlavorMariaDB101]);
    ("offset", [FlavorMariaDB106])
  ]%string.

(** Lines 47-61: the map of a flavor as the function builds it. *)
Definition newReservedWordMap (flavor : Flavor) : gmap string bool :=
  let rwm : gmap string bool := ∅ in
  let rwm :=
    foldl (fun rwm word => <[word := true]> rwm) rwm commonReservedWords in
  foldl
    (fun rwm '(word, flavors) =>
       if existsb (fun flavorAddedIn => Flavor_Min flavor flavorAddedIn)
            flavors
       then <[word := true]> rwm else rwm)
    rwm reservedWordsAddedInFlavor.

(** [ReservedWordMap] (lines 32-65): the reference to the map and the state
    of the package after the call. *)
Definition ReservedWordMap (flavor : Flavor) (st : Keywords Flavor)
  : nat * Keywords Flavor :=
  match reservedWordsByFlavor st ≫= (fun byFlavor => byFlavor !! flavor) with
  | Some rwm => (rwm, st)
  | None =>
      let byFlavor := default ∅ (reservedWordsByFlavor st) in
      let rwm := fresh (dom (wordMaps st)) in
      (rwm,
       {| reservedWordsByFlavor := Some (<[flavor := rwm]> byFlavor);
          wordMaps := <[rwm := newReservedWordMap flavor]> (wordMaps st) |})
  end.

(** [reservedWordMap[key]] through the reference [rwm]. *)
Definition lookupWord (st : Keywords Flavor) (rwm : nat) (key : string)
  : bool :=
  default false (wordMaps st !! rwm ≫= (fun m => m !! key)).

(** [IsReservedWord] (lines 80-83). *)
Definition IsReservedWord (word : string) (flavor : Flavor)
    (st : Keywords Flavor) : bool * Keywords Flavor :=
  let '(reservedWordMap, st) := ReservedWordMap flavor st in
  (lookupWord st reservedWordMap (ToLower word), st).

(** The state of the package when the program starts. *)
Definition initialKeywords : Keywords Flavor :=
  {| reservedWordsByFlavor := None; wordMaps := ∅ |}.

(** The states that calls of [ReservedWordMap] lead to when no caller
    writes to a map that it was given. *)
Inductive reachable : Keywords Flavor -> Prop :=
  | reachable_initial : reachable initialKeywords
  | reachable_call flavor st :
      reachable st -> reachable (snd (ReservedWordMap flavor st)).

(** A word that the tables list for a flavor. *)
Definition listed (flavor : Flavor) (word : string) : Prop :=
  word ∈ commonReservedWords
  \/ exists flavors flavorAddedIn,
       (word, flavors) ∈ reservedWordsAddedInFlavor
       /\ flavorAddedIn ∈ flavors
       /\ Flavor_Min flavor flavorAddedIn = true.

(** The entries of [reservedWordsByFlavor] refer to the maps built for their
    flavors. *)
Definition cached (st : Keywords Flavor) : Prop :=
  forall flavor rwm,
    reservedWordsByFlavor st ≫= (fun byFlavor => byFlavor !! flavor)
    = Some rwm ->
    wordMaps st !! rwm = Some (newReservedWordMap flavor).

End keyword.

End keyword.

(** Flavors for concrete runs: a vendor, MariaDB or not, and a version
    number; a flavor is at least another one when it is of the same vendor
    and of the same or a later version. *)
Definition exampleFlavors : FlavorAPI (bool * nat) :=
  {| Flavor_Min := fun flavor other =>
       bool_decide (flavor.1 = other.1) && (other.2 <=? flavor.2)%nat;
     FlavorMySQL56 := (false, 56%nat);
     FlavorMySQL57 := (false, 57%nat);
     FlavorMySQL80 := (false, 80%nat);
     FlavorMariaDB101 := (true, 101%nat);
     FlavorMariaDB102 := (true, 102%nat);
     FlavorMariaDB103 := (true, 103%nat);
     FlavorMariaDB106 := (true, 106%nat) |}.

(** ** The invariant of [longestIncreasingSubsequence] *)

Definition incr (l : list Z) : Prop := StronglySorted Z.lt l.

(** The candidate lists after the prefix [P] of the input: the list at
    index [k] is an increasing subsequence of [P] of length [k + 1] whose
    last element is the least possible, and no increasing subsequence of
    [P] is longer than the number of lists. *)
Definition Inv (cl : list (list Z)) (P : list Z) : Prop :=
  (0 < length cl)%nat
  /\ (forall k l, cl !! k = Some l ->
        length l = S k /\ l `sublist_of` P /\ incr l)
  /\ (forall k l a s b,
        cl !! k = Some l -> last l = Some a ->
        s `sublist_of` P -> incr s -> length s = S k -> last s = Some b ->
        a <= b)
  /\ (forall s, s `sublist_of` P -> incr s -> (length s <= length cl)%nat).

(** ** Escaping in one pass *)

(** What [EscapeValueForCreateTable] is meant to write for one byte, and for
    a text when each of its bytes is written once, from left to right. *)
Definition escapeByte (c : ascii) : string :=
  if Ascii.eqb c tengo.backslash then
    String tengo.backslash (String tengo.backslash EmptyString)
  else if Ascii.eqb c tengo.NUL then String tengo.backslash "0"
  else if Ascii.eqb c tengo.quote then "''"
  else if Ascii.eqb c tengo.LF then String tengo.backslash "n"
  else if Ascii.eqb c tengo.CR then String tengo.backslash "r"
  else String c EmptyString.

Fixpoint escapeBytes (s : string) : string :=
  match s with
  | EmptyString => EmptyString
  | String c rest => escapeByte c +:+ escapeBytes rest
  end.

(** * Properties *)

Import applier.

(** ** Strings and integers *)

Lemma prefix_app (s t : string) : String.prefix s (s +:+ t) = true.
Proof.
  induction s as [|c s IH]; simpl.
  - by destruct t.
  - destruct (ascii_dec c c); [exact IH | congruence].
Qed.

Lemma Contains_app (before s after : string) :
  Contains (before +:+ s +:+ after) s = true.
Proof.
  induction before as [|c before IH].
  - change (Contains (s +:+ after) s = true).
    pose proof (prefix_app s after) as Hp.
    destruct (s +:+ after); cbn [Contains]; by rewrite Hp.
  - change (Contains (String c (before +:+ s +:+ after)) s = true).
    cbn [Contains]. rewrite IH. apply orb_true_r.
Qed.

Lemma substring_Contains (substr s : string) :
  substring substr s -> Contains s substr = true.
Proof. intros (before & after & ->). apply Contains_app. Qed.

Lemma string_app_assoc (s t u : string) : (s +:+ t) +:+ u = s +:+ t +:+ u.
Proof.
  induction s as [|c s IH]; [reflexivity|].
  change (String c ((s +:+ t) +:+ u) = String c (s +:+ t +:+ u)).
  by rewrite IH.
Qed.

Lemma string_app_nil_r (s : string) : s +:+ EmptyString = s.
Proof.
  induction s as [|c s IH]; [reflexivity|].
  change (String c (s +:+ EmptyString) = String c s). by rewrite IH.
Qed.

Lemma substring_refl (s : string) : substring s s.
Proof. exists EmptyString, EmptyString. by rewrite string_app_nil_r. Qed.

Lemma substring_app_r (x s t : string) :
  substring x t -> substring x (s +:+ t).
Proof.
  intros (before & after & ->). exists (s +:+ before), after.
  by rewrite string_app_assoc.
Qed.

Lemma substring_app_l (x s t : string) :
  substring x s -> substring x (s +:+ t).
Proof.
  intros (before & after & ->). exists before, (after +:+ t).
  by rewrite !string_app_assoc.
Qed.

Lemma int64_small (x : Z) : 0 <= x < 2 ^ 63 -> int64 x = x.
Proof.
  intros Hx. unfold int64. rewrite Z.mod_small; lia.
Qed.

Lemma int64_large (x : Z) : 2 ^ 63 <= x < 2 ^ 64 -> int64 x = x - 2 ^ 64.
Proof.
  intros Hx. unfold int64.
  replace (x + 2 ^ 63) with ((x - 2 ^ 63) + 1 * 2 ^ 64) by lia.
  rewrite Z.mod_add by lia. rewrite Z.mod_small; lia.
Qed.

(** ** Runs of the monadic definitions *)

Ltac red_goal :=
  cbv beta iota zeta
    delta [mbind mret M_bind M_ret bind ret emit panic alloc load store].
Ltac red_in H :=
  cbv beta iota zeta
    delta [mbind mret M_bind M_ret bind ret emit panic alloc load store] in H.

(** Case analysis on the innermost scrutinee of the goal or of [H]. *)
Ltac destr_goal :=
  match goal with
  | |- context [match ?x with _ => _ end] =>
      lazymatch x with
      | context [match _ with _ => _ end] => fail
      | _ => let E := fresh "E" in destruct x eqn:E
      end
  end.
Ltac destr_in H :=
  match type of H with
  | context [match ?x with _ => _ end] =>
      lazymatch x with
      | context [match _ with _ => _ end] => fail
      | _ => let E := fresh "E" in destruct x eqn:E
      end
  end.

Ltac run_goal :=
  repeat first
    [ progress red_goal
    | rewrite lookup_insert_eq
    | match goal with
      | H : ?h !! ?p = Some _ |- context [?h !! ?p] => rewrite H
      end
    | destr_goal ].
Ltac run_in H :=
  repeat first
    [ progress red_in H
    | rewrite lookup_insert_eq in H
    | match type of H with
      | context [?h !! ?p] =>
          match goal with H' : h !! p = Some _ |- _ => rewrite H' in H end
      end
    | progress rewrite ?app_nil_r, ?app_nil_l in H
    | destr_in H ].

(** Membership in a list that is written out. *)
Ltac find_elem := first [ by left | right; find_elem ].

Ltac bools :=
  repeat match goal with
    | H : bool_decide _ = true |- _ => apply bool_decide_eq_true in H
    | H : bool_decide _ = false |- _ => apply bool_decide_eq_false in H
    | H : negb _ = true |- _ => apply negb_true_iff in H
    | H : negb _ = false |- _ => apply negb_false_iff in H
    | H : isNil ?o = false |- _ => destruct o; [clear H | discriminate H]
    | H : isNil ?o = true |- _ => destruct o; [discriminate H | clear H]
    end.

(** [getTableSize] leaves the heap alone, always returns, and asks the
    instance for the rows first; what it returns and asks does not depend on
    the heap. *)
Lemma getTableSize_run target tableName :
  exists v rest,
    Forall (fun e => isSizeQuery e = true) rest
    /\ forall h : gmap nat StatementModifiers,
        getTableSize target tableName h
        = (Done v, h,
           QueryTableHasRows (Target_SchemaName target) tableName :: rest).
Proof.
  unfold getTableSize. red_goal.
  destruct (TableHasRows _ _ _) as [hasRows err].
  destruct (negb hasRows || negb (isNil err)); eexists _, _;
    (split; [|intros h; reflexivity]); by repeat constructor.
Qed.

(** [getWrapper] on an allocated cell returns, makes no call, writes to that
    cell only and never changes the allow-unsafe override. *)
Lemma getWrapper_run config diff tableSize p
    (h : gmap nat StatementModifiers) m0 :
  h !! p = Some m0 ->
  exists w err m1,
    getWrapper config diff tableSize p h = (Done (w, err), <[p := m1]> h, [])
    /\ AllowUnsafe m1 = AllowUnsafe m0.
Proof.
  intros Hp. unfold getWrapper.
  run_goal.
  all: try (eexists _, _, m0; rewrite insert_id by done; split; reflexivity).
  eexists _, _, _. split; reflexivity.
Qed.

Section runs.

Context {uni : Unicode}.

Variable TerminalWidth : Z * option error.
Variable WrapStringWithPadding : string -> Z -> string -> string.
Variable RealConnectOptions : string -> string * option error.
Variable NewInterpolatedShellOut :
  string -> gmap string string -> option ShellOut * option error.
Variables (diff : ObjectDiff) (target : Target).

Local Abbreviation config := (Dir_Config (Target_Dir target)).
Local Abbreviation Finished' :=
  (Finished TerminalWidth WrapStringWithPadding NewInterpolatedShellOut
     diff target).

Ltac fin_side :=
  first
    [ eassumption
    | match goal with
      | H : asCompounder _ = _ |- _ => rewrite H; subst; reflexivity
      end
    | by repeat constructor ].

Lemma finishDDLStatement_run ddl p tableSize (h : gmap nat StatementModifiers)
    m0 res h' tr :
  h !! p = Some m0 ->
  finishDDLStatement TerminalWidth WrapStringWithPadding RealConnectOptions
    NewInterpolatedShellOut diff target ddl p tableSize h = (res, h', tr) ->
  exists w err m,
    getWrapper config diff tableSize p h = (Done (w, err), <[p := m]> h, [])
    /\ AllowUnsafe m = AllowUnsafe m0
    /\ h' = <[p := m]> h
    /\ match err with
       | Some _ => res = Done (None, err) /\ tr = []
       | None => Finished' ddl m w res tr
       end.
Proof.
  intros Hp H.
  destruct (getWrapper_run config diff tableSize p h m0 Hp)
    as (w & err & m & Hw & Hm).
  exists w, err, m. split; [done|]. split; [done|].
  unfold finishDDLStatement in H.
  red_in H. rewrite Hw in H.
  run_in H.
  all: injection H as <- <- <-; split; [reflexivity|].
  all: bools.
  all: try (split; reflexivity).
  all: try (eapply Finished_rejected; eassumption).
  all: try (eapply Finished_error; eassumption).
  all: try (eapply Finished_noop; subst; eassumption).
  all: try (eapply Finished_direct; fin_side).
  all: try (eapply Finished_shellOut_failed; fin_side).
  all: try (eapply Finished_shellOut; fin_side).
  all: try (eapply Finished_panic; fin_side).
Qed.

(** Every run of [NewDDLStatement]: the heap gains the cell of the
    function's own copy of the modifiers and is otherwise unchanged; the
    calls are the size queries (there are some exactly when [needTableSize]
    holds) followed by the rendering calls; the function then either returns
    an error before rendering, or finishes as [Finished] describes, with the
    modifiers that the size block and then [getWrapper] left. *)
Lemma NewDDLStatement_run mods (h : gmap nat StatementModifiers) res h' tr :
  NewDDLStatement TerminalWidth WrapStringWithPadding RealConnectOptions
    NewInterpolatedShellOut diff mods target h = (res, h', tr) ->
  let p := fresh (dom h) in
  exists m trq trf,
    h' = <[p := m]> h
    /\ tr = trq ++ trf
    /\ Forall (fun e => isSizeQuery e = true) trq
    /\ (if needTableSize diff config then trq <> [] else trq = [])
    /\ ((trf = [] /\ exists e, res = Done (None, Some e))
        \/ exists tableSize m0 w,
             SizeBlock diff target mods tableSize m0
             /\ getWrapper config diff tableSize p (<[p := m0]> h)
                = (Done (w, None), <[p := m]> h, [])
             /\ AllowUnsafe m = AllowUnsafe m0
             /\ Finished' (initialDDL diff target) m w res trf).
Proof.
  intros H p.
  unfold NewDDLStatement in H. red_in H. fold p in H.
  unfold SizeBlock.
  destruct (needTableSize diff config) eqn:Hneed.
  - destruct (getTableSize_run target
                (ObjectKey_Name (ObjectDiff_ObjectKey diff)))
      as ([tableSize err] & rest & Hrest & Hq).
    rewrite Hq in H.
    run_in H.
    all: repeat match goal with
           | E : finishDDLStatement _ _ _ _ _ _ _ _ _ _ = _ |- _ =>
               eapply finishDDLStatement_run in E;
               [ destruct E as (w & err' & m & Hw & Hm & -> & Hfin)
               | apply lookup_insert_eq ]
           end.
    all: injection H as <- <- <-.
    1, 2: exists mods, (QueryTableHasRows (Target_SchemaName target)
                     (ObjectKey_Name (ObjectDiff_ObjectKey diff)) :: rest), [];
      rewrite app_nil_r; split_and!; [done | done | by constructor | done |];
      left; eauto.
    all: rewrite ?insert_insert_eq in Hw |- *.
    all: destruct err' as [e'|];
      [ destruct Hfin as [-> ->];
        exists m, (QueryTableHasRows (Target_SchemaName target)
                     (ObjectKey_Name (ObjectDiff_ObjectKey diff)) :: rest), [];
        split_and!; [done | done | by constructor | done |]; left; eauto
      | exists m, (QueryTableHasRows (Target_SchemaName target)
                     (ObjectKey_Name (ObjectDiff_ObjectKey diff)) :: rest), l;
        split_and!; [done | done | by constructor | done |]; right;
        eexists tableSize, _, w; split_and!; [|exact Hw|exact Hm|exact Hfin];
        exists z; split_and!; [by eauto | done |];
        match goal with H : (_ <? _) = _ |- _ => by rewrite H end ].
  - destruct (finishDDLStatement _ _ _ _ _ _ _ _ _ _) as [[res0 h0] tr0] eqn:E.
    injection H as <- <- <-.
    eapply finishDDLStatement_run in E; [|apply lookup_insert_eq].
    destruct E as (w & err' & m & Hw & Hm & -> & Hfin).
    rewrite ?insert_insert_eq in Hw |- *.
    destruct err' as [e'|].
    + destruct Hfin as [-> ->]. exists m, [], []. split_and!; try done.
      left; eauto.
    + exists m, [], tr0. split_and!; try done. right.
      exists 0, mods, w. by split_and!.
Qed.

End runs.

(** ** What a run rendered with *)

Section rendering.

Context {uni : Unicode}.

Variable TerminalWidth : Z * option error.
Variable WrapStringWithPadding : string -> Z -> string -> string.
Variable RealConnectOptions : string -> string * option error.
Variable NewInterpolatedShellOut :
  string -> gmap string string -> option ShellOut * option error.
Variables (diff : ObjectDiff) (target : Target).

Local Abbreviation Finished' :=
  (Finished TerminalWidth WrapStringWithPadding NewInterpolatedShellOut
     diff target).

Lemma Finished_events ddl m w res trf :
  Finished' ddl m w res trf ->
  exists post,
    trf = CallStatement m :: post /\ Forall (fun e => e = CallClauses m) post.
Proof. destruct 1; eauto. Qed.

Lemma Finished_rendered ddl m w res trf m' :
  Finished' ddl m w res trf -> CallStatement m' ∈ trf -> m' = m.
Proof.
  intros (post & -> & Hpost)%Finished_events [Heq|Hin]%elem_of_cons.
  - congruence.
  - rewrite Forall_forall in Hpost. by apply Hpost in Hin.
Qed.

Lemma Finished_no_size_query ddl m w res trf :
  Finished' ddl m w res trf -> Forall (fun e => isSizeQuery e = false) trf.
Proof.
  intros (post & -> & Hpost)%Finished_events. constructor; [done|].
  eapply Forall_impl; [exact Hpost|]. by intros e ->.
Qed.

(** A run that rendered the statement with [m] finished as [Finished] says,
    with [m] the modifiers that the size block and [getWrapper] left. *)
Lemma rendered_with mods (h : gmap nat StatementModifiers) res h' tr m :
  NewDDLStatement TerminalWidth WrapStringWithPadding RealConnectOptions
    NewInterpolatedShellOut diff mods target h = (res, h', tr) ->
  CallStatement m ∈ tr ->
  exists tableSize m0 w trq trf,
    tr = trq ++ trf
    /\ SizeBlock diff target mods tableSize m0
    /\ AllowUnsafe m = AllowUnsafe m0
    /\ Finished' (initialDDL diff target) m w res trf.
Proof.
  intros (m1 & trq & trf & _ & -> & Hq & _ & Hcase)%NewDDLStatement_run Hin.
  apply elem_of_app in Hin as [Hin|Hin].
  { rewrite Forall_forall in Hq. by apply Hq in Hin. }
  destruct Hcase as [[-> _]|(tableSize & m0 & w & Hsize & _ & Hau & Hfin)].
  { by apply elem_of_nil in Hin. }
  apply (Finished_rendered _ _ _ _ _ _ Hfin) in Hin as ->.
  by exists tableSize, m0, w, trq, trf.
Qed.

End rendering.

(** ** The rejection error, the no-op and the errors passed through *)

Lemma substring_rejectionMessage (commentedOutStmt : string) :
  substring commentedOutStmt (rejectionMessage commentedOutStmt)
  /\ substring "--allow-unsafe" (rejectionMessage commentedOutStmt)
  /\ substring "--safe-below-size" (rejectionMessage commentedOutStmt).
Proof.
  unfold rejectionMessage. split_and!.
  - apply substring_app_r, substring_app_r, substring_app_l, substring_refl.
  - do 4 apply substring_app_r.
    by exists "Use ",
      " or --safe-below-size to permit this operation. For more information, see Safety Options section of --help.".
  - do 4 apply substring_app_r.
    by exists "Use --allow-unsafe or ",
      " to permit this operation. For more information, see Safety Options section of --help.".
Qed.

(** C1 (amended). When the rendering of the statement is reported as
    forbidden, the construction returns no statement and an error whose text
    contains the statement as commented out and word-wrapped by
    [WrapStringWithPadding] for the terminal (the text that follows the
    comment mark), the literal --allow-unsafe and the literal
    --safe-below-size. *)
Theorem rejection_error_text {uni : Unicode}
    TerminalWidth WrapStringWithPadding RealConnectOptions
    NewInterpolatedShellOut diff mods target
    (h : gmap nat StatementModifiers) res h' tr m text err :
  NewDDLStatement TerminalWidth WrapStringWithPadding RealConnectOptions
    NewInterpolatedShellOut diff mods target h = (res, h', tr) ->
  CallStatement m ∈ tr ->
  ObjectDiff_Statement diff m = (text, err) ->
  IsForbiddenDiff err = true ->
  exists e,
    res = Done (None, Some e)
    /\ substring
         ("  # " +:+ WrapStringWithPadding text (fst TerminalWidth - 29) "  # ")
         (Error e)
    /\ substring "--allow-unsafe" (Error e)
    /\ substring "--safe-below-size" (Error e).
Proof.
  intros Hrun Hin Hstmt Hforbidden.
  destruct (rendered_with _ _ _ _ _ _ _ _ _ _ _ _ Hrun Hin)
    as (tableSize & m0 & w & trq & trf & _ & _ & _ & Hfin).
  destruct Hfin as [text' err' H1 H2|text' e H1 H2|H1|text' c H1|
                    text' c vs cmd post H1|text' e post H1|text' H1];
    rewrite Hstmt in H1; injection H1 as Htext Herr; subst;
    try discriminate Hforbidden; [|congruence].
  eexists. split; [reflexivity|]. apply substring_rejectionMessage.
Qed.

Lemma rejection_error_text_witness :
  exists e,
    fst (fst (examples.construct 40 examples.dropTable examples.noMods
                (examples.targetOf examples.plainConfig) ∅))
    = Done (None, Some e)
    /\ substring
         ("  # " +:+ util.WrapStringWithPadding "DROP TABLE `customer_orders`"
                       (40 - 29) "  # ")
         (Error e)
    /\ substring "--allow-unsafe" (Error e)
    /\ substring "--safe-below-size" (Error e).
Proof.
  destruct (examples.construct 40 examples.dropTable examples.noMods
              (examples.targetOf examples.plainConfig) ∅)
    as [[res h'] tr] eqn:Hrun.
  apply (rejection_error_text (uni := examples.unicode)
      _ _ _ _ _ _ _ _ _ _ _ examples.noMods
           "DROP TABLE `customer_orders`"
           (Some (ForbiddenDiffError "destructive statement")) Hrun).
  - vm_compute in Hrun. injection Hrun as <- <- <-. find_elem.
  - reflexivity.
  - reflexivity.
Defined.

(** C1 (as stated, refuted). On a terminal 40 columns wide the statement
    DROP TABLE `customer_orders` is broken after DROP TABLE, so the error
    text does not contain the statement text itself. *)
Lemma rejection_wraps_statement :
  ~ stated.rejection_contains_statement (uni := examples.unicode) (40, None)
      util.WrapStringWithPadding util.RealConnectOptions
      util.NewInterpolatedShellOut examples.dropTable examples.noMods
      (examples.targetOf examples.plainConfig) ∅.
Proof.
  intros Hclaim.
  destruct (applier.NewDDLStatement (uni := examples.unicode)
      (40, None) util.WrapStringWithPadding
              util.RealConnectOptions util.NewInterpolatedShellOut
              examples.dropTable examples.noMods
              (examples.targetOf examples.plainConfig) ∅)
    as [[res h'] tr] eqn:Hrun.
  destruct (Hclaim res h' tr examples.noMods "DROP TABLE `customer_orders`"
              (Some (ForbiddenDiffError "destructive statement")) Hrun)
    as (e & Hres & Hsub & _).
  - vm_compute in Hrun. injection Hrun as <- <- <-. find_elem.
  - reflexivity.
  - reflexivity.
  - vm_compute in Hrun. injection Hrun as <- <- <-.
    injection Hres as <-.
    apply substring_Contains in Hsub. vm_compute in Hsub. discriminate Hsub.
Qed.

(** C4. When the rendering returns an empty statement and no error, the
    construction returns neither a statement nor an error; when it returns
    an error that is not the forbidden one, the construction returns no
    statement and that same error. *)
Theorem noop_and_error_pass_through {uni : Unicode}
    TerminalWidth WrapStringWithPadding RealConnectOptions
    NewInterpolatedShellOut diff mods target
    (h : gmap nat StatementModifiers) res h' tr m :
  NewDDLStatement TerminalWidth WrapStringWithPadding RealConnectOptions
    NewInterpolatedShellOut diff mods target h = (res, h', tr) ->
  CallStatement m ∈ tr ->
  (ObjectDiff_Statement diff m = (EmptyString, None) ->
   res = Done (None, None))
  /\ (forall text e,
         ObjectDiff_Statement diff m = (text, Some e) ->
         IsForbiddenDiff (Some e) = false ->
         res = Done (None, Some e)).
Proof.
  intros Hrun Hin.
  destruct (rendered_with _ _ _ _ _ _ _ _ _ _ _ _ Hrun Hin)
    as (tableSize & m0 & w & trq & trf & _ & _ & _ & Hfin).
  split; [intros Hstmt | intros text e Hstmt Hother].
  all: destruct Hfin as [text' err' H1 H2|text' e' H1 H2|H1|text' c H1|
                         text' c vs cmd post H1|text' e' post H1|text' H1];
    rewrite Hstmt in H1; try (injection H1 as Htext Herr; subst);
    first [reflexivity | discriminate | congruence].
Qed.

Lemma noop_and_error_pass_through_witness :
  fst (fst (examples.construct 80 examples.noopAlter examples.onlineMods
              (examples.targetOf examples.smallSafeBelowSize) ∅))
  = Done (None, None)
  /\ fst (fst (examples.construct 80 examples.unsupportedAlter
                 examples.onlineMods
                 (examples.targetOf examples.smallSafeBelowSize) ∅))
     = Done (None, Some (otherError "unsupported table alteration")).
Proof.
  split.
  - destruct (examples.construct 80 examples.noopAlter examples.onlineMods
                (examples.targetOf examples.smallSafeBelowSize) ∅)
      as [[res h'] tr] eqn:Hrun.
    refine (proj1 (noop_and_error_pass_through (uni := examples.unicode)
        _ _ _ _ _ _ _ _ _ _ _
                     {| AllowUnsafe := true; AlgorithmClause := "inplace";
                        LockClause := "none" |} Hrun _) eq_refl).
    vm_compute in Hrun. injection Hrun as <- <- <-. find_elem.
  - destruct (examples.construct 80 examples.unsupportedAlter
                examples.onlineMods
                (examples.targetOf examples.smallSafeBelowSize) ∅)
      as [[res h'] tr] eqn:Hrun.
    refine (proj2 (noop_and_error_pass_through (uni := examples.unicode)
        _ _ _ _ _ _ _ _ _ _ _
                     {| AllowUnsafe := true; AlgorithmClause := "inplace";
                        LockClause := "none" |} Hrun _)
              EmptyString _ eq_refl eq_refl).
    vm_compute in Hrun. injection Hrun as <- <- <-. find_elem.
Defined.

(** ** The size block: safe-below-size *)

(** The size block behaves as documented for every threshold below 2^63:
    with the table size [S] strictly below the threshold [X] the statement
    is rendered with the allow-unsafe override set, and otherwise with the
    override as the caller passed it. *)
Lemma safe_below_size_in_range {uni : Unicode}
    TerminalWidth WrapStringWithPadding RealConnectOptions
    NewInterpolatedShellOut diff mods target
    (h h0 h1 : gmap nat StatementModifiers) res h' tr m S X trq :
  NewDDLStatement TerminalWidth WrapStringWithPadding RealConnectOptions
    NewInterpolatedShellOut diff mods target h = (res, h', tr) ->
  needTableSize diff (Dir_Config (Target_Dir target)) = true ->
  CallStatement m ∈ tr ->
  getTableSize target (ObjectKey_Name (ObjectDiff_ObjectKey diff)) h0
  = (Done (S, None), h1, trq) ->
  Config_GetBytes (Dir_Config (Target_Dir target)) "safe-below-size"
  = (X, None) ->
  0 <= X < 2 ^ 63 ->
  (S < X -> AllowUnsafe m = true)
  /\ (X <= S -> AllowUnsafe m = AllowUnsafe mods).
Proof.
  intros Hrun Hneed Hin Hsize Hbytes HX.
  destruct (rendered_with _ _ _ _ _ _ _ _ _ _ _ _ Hrun Hin)
    as (tableSize & m0 & w & trq' & trf & _ & Hblock & -> & _).
  unfold SizeBlock in Hblock. rewrite Hneed in Hblock.
  destruct Hblock as (X' & Hsize' & Hbytes' & ->).
  destruct (Hsize' h0) as (trq0 & Hsize0).
  rewrite Hsize in Hsize0. injection Hsize0 as <- _ _.
  rewrite Hbytes in Hbytes'. injection Hbytes' as <-.
  rewrite (int64_small X HX).
  split; intros HS.
  - by rewrite (proj2 (Z.ltb_lt S X) HS).
  - by rewrite (proj2 (Z.ltb_ge S X) HS).
Qed.

Lemma safe_below_size_in_range_witness :
  exists m,
    CallStatement m
      ∈ snd (examples.construct 80 examples.dropTable examples.noMods
               (examples.targetOf examples.smallSafeBelowSize) ∅)
    /\ AllowUnsafe examples.noMods = false
    /\ AllowUnsafe m = true.
Proof.
  destruct (examples.construct 80 examples.dropTable examples.noMods
              (examples.targetOf examples.smallSafeBelowSize) ∅)
    as [[res h'] tr] eqn:Hrun.
  assert (Hin : CallStatement
                  {| AllowUnsafe := true; AlgorithmClause := EmptyString;
                     LockClause := EmptyString |} ∈ tr).
  { vm_compute in Hrun. injection Hrun as <- <- <-. find_elem. }
  eexists. split; [exact Hin|]. split; [reflexivity|].
  refine (proj1 (safe_below_size_in_range (uni := examples.unicode)
      _ _ _ _ examples.dropTable
                   examples.noMods
                   (examples.targetOf examples.smallSafeBelowSize) ∅ ∅ ∅
                   res h' tr _ 1024 2048 _ Hrun eq_refl Hin eq_refl eq_refl _)
            _); lia.
Defined.

(** C2 (failing input). With safe-below-size set to 2^63 bytes, the
    conversion of the threshold to int64 is negative: the table of 1024
    bytes is below the threshold, yet DROP TABLE is rendered with the
    allow-unsafe override still off and is rejected. *)
Theorem safe_below_size_wraps_around :
  needTableSize (uni := examples.unicode) examples.dropTable
    examples.hugeSafeBelowSize = true
  /\ getTableSize (examples.targetOf examples.hugeSafeBelowSize)
       "customer_orders" ∅
     = (Done (1024, None), ∅,
        [QueryTableHasRows "shop" "customer_orders";
         QueryTableSize "shop" "customer_orders"])
  /\ Config_GetBytes examples.hugeSafeBelowSize "safe-below-size"
     = (2 ^ 63, None)
  /\ 1024 < 2 ^ 63
  /\ int64 (2 ^ 63) = - 2 ^ 63
  /\ exists e h',
       examples.construct 80 examples.dropTable examples.noMods
         (examples.targetOf examples.hugeSafeBelowSize) ∅
       = (Done (None, Some e), h',
          [QueryTableHasRows "shop" "customer_orders";
           QueryTableSize "shop" "customer_orders";
           CallStatement examples.noMods])
       /\ AllowUnsafe examples.noMods = false
       /\ substring "Preventing execution" (Error e).
Proof.
  split_and!; try reflexivity.
  eexists _, _. split_and!; [vm_compute; reflexivity | reflexivity |].
  by exists EmptyString,
    (" of unsafe or potentially destructive statement:" +:+ nl
     +:+ "  # DROP TABLE `customer_orders`" +:+ nl
     +:+ "Use --allow-unsafe or --safe-below-size to permit this operation. For more information, see Safety Options section of --help.").
Qed.

(** ** getWrapper: alter-wrapper and alter-wrapper-min-size *)

(** [getWrapper] behaves as documented for every threshold below 2^63. For a
    table alteration with alter-wrapper set: a table size [S] at or above
    the threshold [M] selects the alter-wrapper and, when [M] is positive,
    leaves the algorithm and lock clauses empty; a size below [M] keeps the
    ddl-wrapper and the modifiers. *)
Lemma alter_wrapper_in_range config diff S p
    (h : gmap nat StatementModifiers) m0 M :
  ObjectKey_Type (ObjectDiff_ObjectKey diff) = ObjectTypeTable ->
  ObjectDiff_DiffType diff = DiffTypeAlter ->
  Config_Changed config "alter-wrapper" = true ->
  Config_GetBytes config "alter-wrapper-min-size" = (M, None) ->
  0 <= M < 2 ^ 63 ->
  h !! p = Some m0 ->
  (M <= S ->
   exists m1,
     getWrapper config diff S p h
     = (Done (Config_Get config "alter-wrapper", None), <[p := m1]> h, [])
     /\ AllowUnsafe m1 = AllowUnsafe m0
     /\ (0 < M ->
         AlgorithmClause m1 = EmptyString /\ LockClause m1 = EmptyString)
     /\ (M = 0 -> m1 = m0))
  /\ (S < M ->
      getWrapper config diff S p h
      = (Done (Config_Get config "ddl-wrapper", None), h, [])).
Proof.
  intros Htable Halter Hchanged Hbytes HM Hp.
  unfold getWrapper.
  rewrite Htable, Halter, Hchanged, Hbytes, (int64_small M HM).
  rewrite !bool_decide_eq_true_2 by reflexivity. cbn [andb].
  split; intros HS.
  - rewrite (proj2 (Z.geb_le S M) HS).
    destruct (M >? 0) eqn:Hpos.
    + apply Z.gtb_lt in Hpos. run_goal; bools.
      * eexists. split_and!; [reflexivity | reflexivity | done | lia].
      * exists m0. rewrite insert_id by done.
        apply orb_false_iff in E as [E1 E2]. bools.
        split_and!; [done | done | done | lia].
    + exists m0. rewrite insert_id by done.
      split_and!; [done | done | | done].
      intros HM0. apply Z.gtb_lt in HM0. congruence.
  - destruct (S >=? M) eqn:Hge; [|reflexivity].
    apply Z.geb_le in Hge. lia.
Qed.

Lemma alter_wrapper_in_range_witness :
  (exists m1,
      getWrapper examples.alterWrapperFrom512 examples.alterTable 1024 0%nat
        {[ 0%nat := examples.onlineMods ]}
      = (Done ("pt-osc {SCHEMA}.{TABLE} {CLAUSES}", None),
         <[0%nat := m1]> {[ 0%nat := examples.onlineMods ]}, [])
      /\ AlgorithmClause m1 = EmptyString /\ LockClause m1 = EmptyString)
  /\ getWrapper examples.alterWrapperFrom512 examples.alterTable 100 0%nat
       {[ 0%nat := examples.onlineMods ]}
     = (Done (EmptyString, None), {[ 0%nat := examples.onlineMods ]}, []).
Proof.
  split.
  - destruct (proj1 (alter_wrapper_in_range examples.alterWrapperFrom512
                       examples.alterTable 1024 0%nat
                       {[ 0%nat := examples.onlineMods ]} examples.onlineMods
                       512 eq_refl eq_refl eq_refl eq_refl
                       ltac:(lia) ltac:(apply lookup_singleton_eq))
                ltac:(lia))
      as (m1 & Hrun & _ & Hclear & _).
    exists m1. split; [exact Hrun | apply Hclear; lia].
  - apply (proj2 (alter_wrapper_in_range examples.alterWrapperFrom512
                    examples.alterTable 100 0%nat
                    {[ 0%nat := examples.onlineMods ]} examples.onlineMods
                    512 eq_refl eq_refl eq_refl eq_refl
                    ltac:(lia) ltac:(apply lookup_singleton_eq))).
    lia.
Defined.

(** C3 (failing input). With alter-wrapper-min-size set to 2^63 bytes, the
    conversion of the threshold to int64 is negative: the table of 1024
    bytes is below the threshold, yet the alter-wrapper is selected instead
    of the (empty) ddl-wrapper and the algorithm and lock clauses are
    cleared. *)
Theorem alter_wrapper_min_size_wraps_around :
  Config_GetBytes examples.hugeAlterWrapperMinSize "alter-wrapper-min-size"
  = (2 ^ 63, None)
  /\ 1024 < 2 ^ 63
  /\ int64 (2 ^ 63) = - 2 ^ 63
  /\ Config_Get examples.hugeAlterWrapperMinSize "ddl-wrapper" = EmptyString
  /\ getWrapper examples.hugeAlterWrapperMinSize examples.alterTable 1024
       0%nat {[ 0%nat := examples.onlineMods ]}
     = (Done ("pt-osc {SCHEMA}.{TABLE} {CLAUSES}", None),
        {[ 0%nat := {| AllowUnsafe := false; AlgorithmClause := EmptyString;
                       LockClause := EmptyString |} ]},
        []).
Proof. split_and!; reflexivity. Qed.

(** ** The constructed statement *)

(** A construction that returns a statement rendered it, without error and
    with a non-empty text, chose its wrapper with [getWrapper] and finished
    on one of the two success paths. *)
Lemma constructed_inv {uni : Unicode}
    TerminalWidth WrapStringWithPadding RealConnectOptions
    NewInterpolatedShellOut diff mods target
    (h : gmap nat StatementModifiers) ddl h' tr :
  NewDDLStatement TerminalWidth WrapStringWithPadding RealConnectOptions
    NewInterpolatedShellOut diff mods target h
  = (Done (Some ddl, None), h', tr) ->
  exists m w tableSize hw,
    CallStatement m ∈ tr
    /\ ObjectDiff_Statement diff m = (stmt ddl, None)
    /\ stmt ddl <> EmptyString
    /\ compound ddl = match asCompounder diff with
                      | Some true => true
                      | _ => false
                      end
    /\ schemaName ddl = schemaName (initialDDL diff target)
    /\ getWrapper (Dir_Config (Target_Dir target)) diff tableSize
         (fresh (dom h)) hw
       = (Done (w, None), h', [])
    /\ ((w = EmptyString /\ shellOut ddl = None
         /\ connectParams ddl
            = getConnectParams diff (Dir_Config (Target_Dir target)))
        \/ (w <> EmptyString /\ connectParams ddl = EmptyString
            /\ exists variables,
                 NewInterpolatedShellOut w variables = (shellOut ddl, None))).
Proof.
  intros (m & trq & trf & -> & -> & _ & _ & Hcase)%NewDDLStatement_run.
  destruct Hcase as [[_ [e He]]|(tableSize & m0 & w & _ & Hw & _ & Hfin)];
    [discriminate He|].
  exists m, w, tableSize, (<[fresh (dom h) := m0]> h).
  assert (Hin : CallStatement m ∈ trq ++ trf).
  { apply Finished_events in Hfin as (post & -> & _).
    apply elem_of_app. right. left. }
  inversion Hfin; subst;
    cbn [stmt compound shellOut schemaName connectParams initialDDL] in *;
    split_and!; eauto 6.
Qed.

(** The size block leaves one table size and one record of modifiers. *)
Lemma SizeBlock_unique {uni : Unicode} diff target mods tableSize m0
    tableSize' m0' :
  SizeBlock diff target mods tableSize m0 ->
  SizeBlock diff target mods tableSize' m0' ->
  tableSize' = tableSize /\ m0' = m0.
Proof.
  unfold SizeBlock. destruct (needTableSize _ _).
  - intros (s & Hsize & Hs & ->) (s' & Hsize' & Hs' & ->).
    destruct (Hsize ∅) as [trq Hq], (Hsize' ∅) as [trq' Hq'].
    rewrite Hq in Hq'. rewrite Hs in Hs'.
    injection Hq' as <- _. by injection Hs' as <-.
  - by intros [-> ->] [-> ->].
Qed.

(** A construction that returns a statement: the table size and the
    modifiers that its size block left, the wrapper that [getWrapper] then
    selected for them, and what the statement holds on each of the two
    success paths. *)
Lemma constructed_run {uni : Unicode}
    TerminalWidth WrapStringWithPadding RealConnectOptions
    NewInterpolatedShellOut diff mods target
    (h : gmap nat StatementModifiers) ddl h' tr :
  NewDDLStatement TerminalWidth WrapStringWithPadding RealConnectOptions
    NewInterpolatedShellOut diff mods target h
  = (Done (Some ddl, None), h', tr) ->
  exists tableSize m0 w,
    SizeBlock diff target mods tableSize m0
    /\ getWrapper (Dir_Config (Target_Dir target)) diff tableSize
         (fresh (dom h)) (<[fresh (dom h) := m0]> h)
       = (Done (w, None), h', [])
    /\ ((w = EmptyString /\ shellOut ddl = None
         /\ connectParams ddl
            = getConnectParams diff (Dir_Config (Target_Dir target)))
        \/ (w <> EmptyString /\ connectParams ddl = EmptyString
            /\ exists variables,
                 NewInterpolatedShellOut w variables = (shellOut ddl, None))).
Proof.
  intros (m & trq & trf & -> & -> & _ & _ & Hcase)%NewDDLStatement_run.
  destruct Hcase as [[_ [e He]]|(tableSize & m0 & w & Hsize & Hw & _ & Hfin)];
    [discriminate He|].
  exists tableSize, m0, w. split; [done|]. split; [done|].
  inversion Hfin; subst;
    cbn [stmt compound shellOut schemaName connectParams initialDDL] in *;
    eauto 6.
Qed.

(** The wrapper that a run selected is the only one that [getWrapper]
    returns for the table size and the modifiers that the size block of the
    run left. *)
Lemma selected_wrapper_unique {uni : Unicode} diff mods target
    (h : gmap nat StatementModifiers) tableSize m0 w hw tableSize' m0' w' hw' :
  SizeBlock diff target mods tableSize m0 ->
  getWrapper (Dir_Config (Target_Dir target)) diff tableSize
    (fresh (dom h)) (<[fresh (dom h) := m0]> h) = (Done (w, None), hw, []) ->
  SizeBlock diff target mods tableSize' m0' ->
  getWrapper (Dir_Config (Target_Dir target)) diff tableSize'
    (fresh (dom h)) (<[fresh (dom h) := m0']> h)
  = (Done (w', None), hw', []) ->
  w' = w.
Proof.
  intros Hsize Hw Hsize' Hw'.
  destruct (SizeBlock_unique _ _ _ _ _ _ _ Hsize Hsize') as [-> ->].
  rewrite Hw in Hw'. by injection Hw' as <- _.
Qed.

(** C5 (amended). Every constructed statement has a non-empty statement
    text, the text that the diff rendered; so the text and the external
    command are never both absent. The run selected one wrapper: the one that
    [getWrapper] returns for the table size and the modifiers that the size
    block of the run left. When that wrapper is empty the external command
    is absent. When it is not empty, the external command is what the
    interpolation of that wrapper returned together with no error: it is
    present whenever the interpolation returns a command with no error, and
    the text is kept next to it, so that both are set. *)
Theorem constructed_statement_has_text {uni : Unicode}
    TerminalWidth WrapStringWithPadding RealConnectOptions
    NewInterpolatedShellOut diff mods target
    (h : gmap nat StatementModifiers) ddl h' tr :
  NewDDLStatement TerminalWidth WrapStringWithPadding RealConnectOptions
    NewInterpolatedShellOut diff mods target h
  = (Done (Some ddl, None), h', tr) ->
  stmt ddl <> EmptyString
  /\ (exists m,
         CallStatement m ∈ tr
         /\ ObjectDiff_Statement diff m = (stmt ddl, None))
  /\ exists tableSize m0 w,
       SizeBlock diff target mods tableSize m0
       /\ getWrapper (Dir_Config (Target_Dir target)) diff tableSize
            (fresh (dom h)) (<[fresh (dom h) := m0]> h)
          = (Done (w, None), h', [])
       /\ (forall tableSize' m0' w' hw',
              SizeBlock diff target mods tableSize' m0' ->
              getWrapper (Dir_Config (Target_Dir target)) diff tableSize'
                (fresh (dom h)) (<[fresh (dom h) := m0']> h)
              = (Done (w', None), hw', []) ->
              w' = w)
       /\ (w = EmptyString -> shellOut ddl = None)
       /\ (w <> EmptyString ->
           (exists variables,
               NewInterpolatedShellOut w variables = (shellOut ddl, None))
           /\ ((forall template variables,
                   NewInterpolatedShellOut template variables
                   <> (None, None)) ->
               shellOut ddl <> None /\ stmt ddl <> EmptyString)).
Proof.
  intros Hrun.
  pose proof Hrun as
    (m & _ & _ & _ & Hin & Hstmt & Htext & _)%constructed_inv.
  apply constructed_run in Hrun as (tableSize & m0 & w & Hsize & Hw & Hcmd).
  split_and!; [done | by eauto |].
  exists tableSize, m0, w. split_and!; [done|done| | |].
  - intros tableSize' m0' w' hw' Hsize' Hw'.
    by apply (selected_wrapper_unique _ _ _ _ _ _ _ _ _ _ _ _
                Hsize Hw Hsize' Hw').
  - intros ->. by destruct Hcmd as [(_ & ? & _)|(? & _)].
  - intros Hne. destruct Hcmd as [(? & _)|(_ & _ & variables & Hv)]; [done|].
    split; [by exists variables|]. intros Htotal. split; [|done].
    intros Hnone. rewrite Hnone in Hv. by apply Htotal in Hv.
Qed.

Lemma constructed_statement_has_text_witness :
  exists ddl,
    fst (fst (examples.construct 80 examples.createTable examples.noMods
                (examples.targetOf examples.ddlWrapper) ∅))
    = Done (Some ddl, None)
    /\ stmt ddl <> EmptyString.
Proof.
  destruct (examples.construct 80 examples.createTable examples.noMods
              (examples.targetOf examples.ddlWrapper) ∅)
    as [[res h'] tr] eqn:Hrun.
  assert (exists ddl, res = Done (Some ddl, None)) as [ddl ->].
  { vm_compute in Hrun. injection Hrun as <- _ _. by eexists. }
  exists ddl. split; [reflexivity|].
  exact (proj1 (constructed_statement_has_text (uni := examples.unicode)
      _ _ _ _ _ _ _ _ _ _ _ Hrun)).
Defined.

(** C5 (as stated, refuted). With a ddl-wrapper configured, the statement
    constructed for CREATE TABLE `notes` has both its statement text and an
    external command. *)
Lemma wrapped_statement_keeps_text :
  ~ stated.text_xor_command (uni := examples.unicode)
      (80, None) util.WrapStringWithPadding
      util.RealConnectOptions util.NewInterpolatedShellOut
      examples.createTable examples.noMods
      (examples.targetOf examples.ddlWrapper) ∅.
Proof.
  intros Hclaim.
  destruct (applier.NewDDLStatement (uni := examples.unicode)
      (80, None) util.WrapStringWithPadding
              util.RealConnectOptions util.NewInterpolatedShellOut
              examples.createTable examples.noMods
              (examples.targetOf examples.ddlWrapper) ∅)
    as [[res h'] tr] eqn:Hrun.
  vm_compute in Hrun. injection Hrun as <- <- <-.
  edestruct Hclaim as [[_ Hcmd]|[Htext _]]; [reflexivity | |];
    discriminate.
Qed.

(** C6 (amended). The compound flag of a constructed statement is set
    exactly when the diff implements the compounder interface and reports a
    compound statement, with or without an external command; with an
    external command the flag has no effect on the delimiter, which is
    empty. *)
Theorem compound_follows_the_diff {uni : Unicode}
    TerminalWidth WrapStringWithPadding RealConnectOptions
    NewInterpolatedShellOut diff mods target
    (h : gmap nat StatementModifiers) ddl h' tr :
  NewDDLStatement TerminalWidth WrapStringWithPadding RealConnectOptions
    NewInterpolatedShellOut diff mods target h
  = (Done (Some ddl, None), h', tr) ->
  (compound ddl = true <-> asCompounder diff = Some true)
  /\ (shellOut ddl <> None ->
      Delimiter (DDLStatement_ClientState ddl) = EmptyString).
Proof.
  intros (m & w & tableSize & hw & _ & _ & _ & Hcompound & _)
    %constructed_inv.
  split.
  - rewrite Hcompound.
    destruct (asCompounder diff) as [[]|]; intuition congruence.
  - unfold DDLStatement_ClientState. by destruct (shellOut ddl).
Qed.

Lemma compound_follows_the_diff_witness :
  exists ddl,
    fst (fst (examples.construct 80 examples.createProc examples.noMods
                (examples.targetOf examples.ddlWrapper) ∅))
    = Done (Some ddl, None)
    /\ (compound ddl = true <-> asCompounder examples.createProc = Some true).
Proof.
  destruct (examples.construct 80 examples.createProc examples.noMods
              (examples.targetOf examples.ddlWrapper) ∅)
    as [[res h'] tr] eqn:Hrun.
  assert (exists ddl, res = Done (Some ddl, None)) as [ddl ->].
  { vm_compute in Hrun. injection Hrun as <- _ _. by eexists. }
  exists ddl. split; [reflexivity|].
  exact (proj1 (compound_follows_the_diff (uni := examples.unicode)
      _ _ _ _ _ _ _ _ _ _ _ Hrun)).
Defined.

(** C6 (as stated, refuted). With a ddl-wrapper configured, the statement
    constructed for CREATE PROCEDURE `tally` has the compound flag set and
    an external command. *)
Lemma wrapped_routine_is_compound :
  ~ stated.compound_only_without_command (uni := examples.unicode) (80, None)
      util.WrapStringWithPadding util.RealConnectOptions
      util.NewInterpolatedShellOut examples.createProc examples.noMods
      (examples.targetOf examples.ddlWrapper) ∅.
Proof.
  intros Hclaim.
  destruct (applier.NewDDLStatement (uni := examples.unicode)
      (80, None) util.WrapStringWithPadding
              util.RealConnectOptions util.NewInterpolatedShellOut
              examples.createProc examples.noMods
              (examples.targetOf examples.ddlWrapper) ∅)
    as [[res h'] tr] eqn:Hrun.
  vm_compute in Hrun. injection Hrun as <- <- <-.
  discriminate (Hclaim _ _ _ eq_refl eq_refl).
Qed.

(** ** The caller's modifiers *)

(** A construction writes to the cell of its own copy of the modifiers and
    to no other. *)
Lemma NewDDLStatement_frame {uni : Unicode}
    TerminalWidth WrapStringWithPadding RealConnectOptions
    NewInterpolatedShellOut diff mods target
    (h : gmap nat StatementModifiers) res h' tr c v :
  NewDDLStatement TerminalWidth WrapStringWithPadding RealConnectOptions
    NewInterpolatedShellOut diff mods target h = (res, h', tr) ->
  h !! c = Some v -> h' !! c = Some v.
Proof.
  intros (m & trq & trf & -> & _)%NewDDLStatement_run Hc.
  rewrite lookup_insert_ne; [exact Hc|].
  intros Heq. pose proof (is_fresh (dom h)) as Hfresh.
  rewrite Heq in Hfresh. apply Hfresh, elem_of_dom. by eexists.
Qed.

(** [getWrapper], which is handed a pointer, does write through it. *)
Lemma getWrapper_writes_through_pointer :
  exists config diff tableSize p (h h' : gmap nat StatementModifiers) r,
    getWrapper config diff tableSize p h = (r, h', []) /\ h' !! p <> h !! p.
Proof.
  exists examples.alterWrapperFrom512, examples.alterTable, 1024, 0%nat,
    {[ 0%nat := examples.onlineMods ]}.
  eexists _, _. split; [vm_compute; reflexivity|]. by vm_compute.
Qed.

(** C7 (amended). The construction receives the modifiers by value: the
    allow-unsafe override it forces and the algorithm and lock clauses it
    clears are those of its own copy, the one the statement is rendered
    with. Every cell of the caller's heap, the caller's modifiers among
    them, holds after the construction what it held before. *)
Theorem caller_modifiers_unchanged {uni : Unicode}
    TerminalWidth WrapStringWithPadding RealConnectOptions
    NewInterpolatedShellOut diff mods target
    (h : gmap nat StatementModifiers) res h' tr c v :
  NewDDLStatement TerminalWidth WrapStringWithPadding RealConnectOptions
    NewInterpolatedShellOut diff mods target h = (res, h', tr) ->
  h !! c = Some v -> h' !! c = Some v.
Proof. apply NewDDLStatement_frame. Qed.

Lemma caller_modifiers_unchanged_witness :
  let run :=
    examples.construct 80 examples.dropTable examples.noMods
      (examples.targetOf examples.smallSafeBelowSize)
      {[ 7%nat := examples.noMods ]} in
  snd (fst run) !! 7%nat = Some examples.noMods
  /\ CallStatement {| AllowUnsafe := true; AlgorithmClause := EmptyString;
                      LockClause := EmptyString |} ∈ snd run.
Proof.
  intros run. subst run.
  destruct (examples.construct 80 examples.dropTable examples.noMods
              (examples.targetOf examples.smallSafeBelowSize)
              {[ 7%nat := examples.noMods ]})
    as [[res h'] tr] eqn:Hrun.
  split.
  - apply (caller_modifiers_unchanged (uni := examples.unicode)
      _ _ _ _ _ _ _ _ _ _ _ _ _ Hrun).
    apply lookup_singleton_eq.
  - vm_compute in Hrun. injection Hrun as <- <- <-. find_elem.
Defined.

(** C7 (as stated, refuted). There is no input for which the caller's
    modifiers differ after the construction. *)
Lemma caller_modifiers_never_mutated : ~ stated.caller_modifiers_mutated.
Proof.
  intros (uni & tw & wrap & rco & niso & diff & mods & target & h & c & res
          & h' & tr & Hc & Hrun & Hdiffer).
  apply Hdiffer. eapply NewDDLStatement_frame; eassumption.
Qed.

(** ** Connect params *)

Lemma SplitAddForeignKeys_present td :
  TableDiff_Type td = DiffTypeAlter ->
  isNil (snd (SplitAddForeignKeys td)) = false
  <-> exists c, c ∈ alterClauses td /\ isAddForeignKey c = true.
Proof.
  intros Htype. unfold SplitAddForeignKeys. rewrite Htype.
  destruct (filter (fun c => isAddForeignKey c = true) (alterClauses td))
    as [|fk fks] eqn:Hfks.
  - split; [discriminate|]. intros (c & Hc & Hfk).
    assert (c ∈ filter (fun c => isAddForeignKey c = true) (alterClauses td))
      as Hin by (by apply list_elem_of_filter).
    rewrite Hfks in Hin. by apply elem_of_nil in Hin.
  - assert (fk ∈ filter (fun c => isAddForeignKey c = true) (alterClauses td))
      as [Hfk Hin]%list_elem_of_filter by (rewrite Hfks; left).
    destruct (filter (fun c => isAddForeignKey c = false) (alterClauses td));
      split; eauto.
Qed.

(** C8 (amended). A statement is executed directly when the wrapper that
    the run selected is empty: the wrapper that [getWrapper] returns for the
    table size and the modifiers that the size block of the run left. Such
    a statement has no external command and has the connect params of
    [getConnectParams]; a statement constructed with a wrapper has empty
    connect params. The connect params of [getConnectParams] follow from
    whether the diff is a table diff, from the type of that table diff and
    from the foreign-key-checking option. A table alteration that adds a
    foreign key with foreign-key checking enabled has
    readTimeout=0&foreign_key_checks=1; any other table alteration has
    readTimeout=0; a table drop has readTimeout=0; every other table diff
    and every diff that is not a table diff, the drop of a routine or of a
    database included, has the empty string. *)
Theorem connect_params_by_table_diff (diff : ObjectDiff) (config : Config) :
  (forall (uni : Unicode) TerminalWidth WrapStringWithPadding
          RealConnectOptions NewInterpolatedShellOut mods target
          (h : gmap nat StatementModifiers) ddl h' tr,
      Dir_Config (Target_Dir target) = config ->
      NewDDLStatement TerminalWidth WrapStringWithPadding RealConnectOptions
        NewInterpolatedShellOut diff mods target h
      = (Done (Some ddl, None), h', tr) ->
      exists tableSize m0 w,
        SizeBlock diff target mods tableSize m0
        /\ getWrapper config diff tableSize (fresh (dom h))
             (<[fresh (dom h) := m0]> h)
           = (Done (w, None), h', [])
        /\ (forall tableSize' m0' w' hw',
               SizeBlock diff target mods tableSize' m0' ->
               getWrapper config diff tableSize' (fresh (dom h))
                 (<[fresh (dom h) := m0']> h)
               = (Done (w', None), hw', []) ->
               w' = w)
        /\ (w = EmptyString ->
            shellOut ddl = None
            /\ connectParams ddl = getConnectParams diff config)
        /\ (w <> EmptyString -> connectParams ddl = EmptyString))
  /\ (forall td,
        asTableDiff diff = Some td -> TableDiff_Type td = DiffTypeAlter ->
        Config_GetBool config "foreign-key-checks" = true ->
        (exists c, c ∈ alterClauses td /\ isAddForeignKey c = true) ->
        getConnectParams diff config = "readTimeout=0&foreign_key_checks=1")
  /\ (forall td,
        asTableDiff diff = Some td -> TableDiff_Type td = DiffTypeAlter ->
        Config_GetBool config "foreign-key-checks" = false
        \/ (forall c, c ∈ alterClauses td -> isAddForeignKey c = false) ->
        getConnectParams diff config = "readTimeout=0")
  /\ (forall td,
        asTableDiff diff = Some td -> TableDiff_Type td = DiffTypeDrop ->
        getConnectParams diff config = "readTimeout=0")
  /\ (forall td,
        asTableDiff diff = Some td ->
        TableDiff_Type td <> DiffTypeAlter ->
        TableDiff_Type td <> DiffTypeDrop ->
        getConnectParams diff config = EmptyString)
  /\ (asTableDiff diff = None -> getConnectParams diff config = EmptyString).
Proof.
  split.
  { intros uni tw wrap rco niso mods target h ddl h' tr <-
      (tableSize & m0 & w & Hsize & Hw & Hcmd)%constructed_run.
    exists tableSize, m0, w. split_and!; [done|done| | |].
    - intros tableSize' m0' w' hw' Hsize' Hw'.
      by apply (selected_wrapper_unique _ _ _ _ _ _ _ _ _ _ _ _
                  Hsize Hw Hsize' Hw').
    - intros ->. by destruct Hcmd as [(_ & ? & ?)|(? & _)].
    - intros Hne. by destruct Hcmd as [(? & _)|(_ & ? & _)]. }
  unfold getConnectParams. split_and!.
  - intros td -> Htype -> Hfk.
    apply (SplitAddForeignKeys_present td Htype) in Hfk.
    by rewrite bool_decide_eq_true_2, Hfk.
  - intros td -> Htype Hnone. rewrite bool_decide_eq_true_2 by done.
    destruct Hnone as [-> | Hnone]; [done|].
    destruct (isNil (snd (SplitAddForeignKeys td))) eqn:Hnil;
      [by rewrite andb_false_r|].
    apply (SplitAddForeignKeys_present td Htype) in Hnil as (c & Hc & Hfk).
    rewrite (Hnone c Hc) in Hfk. discriminate Hfk.
  - intros td -> Htype. rewrite Htype.
    by rewrite bool_decide_eq_false_2, bool_decide_eq_true_2.
  - intros td -> Halter Hdrop. by rewrite !bool_decide_eq_false_2.
  - by intros ->.
Qed.

(** C8 (as stated, refuted). DROP PROCEDURE `tally` is a drop, and its
    connect params are empty. *)
Lemma routine_drop_has_no_connect_params :
  ~ stated.connect_params_by_kind examples.dropProc examples.plainConfig.
Proof.
  intros (_ & _ & Hdrop & _). specialize (Hdrop eq_refl).
  vm_compute in Hdrop. discriminate Hdrop.
Qed.

Lemma connect_params_by_table_diff_witness :
  getConnectParams examples.addForeignKey examples.fkChecks
  = "readTimeout=0&foreign_key_checks=1"
  /\ getConnectParams examples.addForeignKey examples.plainConfig
     = "readTimeout=0"
  /\ getConnectParams examples.dropTable examples.plainConfig
     = "readTimeout=0"
  /\ getConnectParams examples.createTable examples.plainConfig = EmptyString
  /\ getConnectParams examples.dropProc examples.plainConfig = EmptyString.
Proof.
  split_and!.
  - eapply (proj1 (proj2 (connect_params_by_table_diff
                            examples.addForeignKey examples.fkChecks)));
      [reflexivity | reflexivity | reflexivity |].
    exists (AddForeignKey "fk_customer"). split; [find_elem | reflexivity].
  - eapply (proj1 (proj2 (proj2 (connect_params_by_table_diff
                                   examples.addForeignKey
                                   examples.plainConfig))));
      [reflexivity | reflexivity | by left].
  - eapply (proj1 (proj2 (proj2 (proj2 (connect_params_by_table_diff
                                          examples.dropTable
                                          examples.plainConfig)))));
      reflexivity.
  - eapply (proj1 (proj2 (proj2 (proj2 (proj2
              (connect_params_by_table_diff examples.createTable
                 examples.plainConfig))))));
      [reflexivity | discriminate | discriminate].
  - by apply (proj2 (proj2 (proj2 (proj2 (proj2
                (connect_params_by_table_diff examples.dropProc
                   examples.plainConfig)))))).
Defined.

(** ** The table size *)

Lemma needTableSize_iff {uni : Unicode} (diff : ObjectDiff)
    (config : Config) :
  needTableSize diff config = true
  <-> ObjectKey_Type (ObjectDiff_ObjectKey diff) = ObjectTypeTable
      /\ ObjectDiff_DiffType diff <> DiffTypeCreate
      /\ (Config_Changed config "safe-below-size" = true
          \/ Config_Changed config "alter-wrapper-min-size" = true
          \/ Contains (ToUpper (Config_Get config "alter-wrapper")) "{SIZE}"
             = true
          \/ Contains (ToUpper (Config_Get config "ddl-wrapper")) "{SIZE}"
             = true).
Proof.
  unfold needTableSize. cbn [existsb].
  destruct (decide (ObjectKey_Type (ObjectDiff_ObjectKey diff)
                    = ObjectTypeTable)) as [Htable|Htable].
  2: { rewrite bool_decide_eq_false_2 by done. cbn [negb]. intuition congruence. }
  rewrite bool_decide_eq_true_2 by done. cbn [negb].
  destruct (decide (ObjectDiff_DiffType diff = DiffTypeCreate))
    as [Hcreate|Hcreate].
  { rewrite bool_decide_eq_true_2 by done. intuition congruence. }
  rewrite bool_decide_eq_false_2 by done.
  destruct (Config_Changed config "safe-below-size");
    destruct (Config_Changed config "alter-wrapper-min-size");
    destruct (Contains (ToUpper (Config_Get config "alter-wrapper")) "{SIZE}");
    destruct (Contains (ToUpper (Config_Get config "ddl-wrapper")) "{SIZE}");
    cbn [orb]; intuition congruence.
Qed.

(** The size queries of a run: there are some exactly when [needTableSize]
    holds. *)
Lemma size_queried_iff {uni : Unicode}
    TerminalWidth WrapStringWithPadding RealConnectOptions
    NewInterpolatedShellOut diff mods target
    (h : gmap nat StatementModifiers) res h' tr :
  NewDDLStatement TerminalWidth WrapStringWithPadding RealConnectOptions
    NewInterpolatedShellOut diff mods target h = (res, h', tr) ->
  (exists e, e ∈ tr /\ isSizeQuery e = true)
  <-> needTableSize diff (Dir_Config (Target_Dir target)) = true.
Proof.
  intros (m & trq & trf & _ & -> & Hq & Hneed & Hcase)%NewDDLStatement_run.
  assert (Htrf : Forall (fun e => isSizeQuery e = false) trf).
  { destruct Hcase as [[-> _]|(tableSize & m0 & w & _ & _ & _ & Hfin)];
      [constructor | by eapply Finished_no_size_query]. }
  rewrite Forall_forall in Htrf.
  destruct (needTableSize diff (Dir_Config (Target_Dir target))).
  - split; [done|]. intros _. destruct trq as [|e trq]; [done|].
    exists e. split; [apply elem_of_app; left; left|]. by inversion Hq.
  - subst trq. split; [|done]. intros (e & Hin & He).
    rewrite (Htrf e Hin) in He. discriminate He.
Qed.

(** C9 (amended). The table size is needed exactly when the diff targets a
    table, is not a creation, and safe-below-size or alter-wrapper-min-size
    was set or the alter-wrapper or ddl-wrapper template, once upper-cased
    by [strings.ToUpper], contains {SIZE}. For a template of ASCII bytes the
    upper-casing maps the letters a-z to A-Z, so that the placeholder counts
    in any letter case; any other template is upper-cased by the mapping of
    package [unicode]. A run queries the instance for the size exactly when
    the size is needed; for a creation it makes no size query and continues
    with the size 0. *)
Theorem table_size_needed_and_queried {uni : Unicode}
    TerminalWidth WrapStringWithPadding RealConnectOptions
    NewInterpolatedShellOut diff mods target
    (h : gmap nat StatementModifiers) res h' tr :
  NewDDLStatement TerminalWidth WrapStringWithPadding RealConnectOptions
    NewInterpolatedShellOut diff mods target h = (res, h', tr) ->
  let config := Dir_Config (Target_Dir target) in
  (needTableSize diff config = true
   <-> ObjectKey_Type (ObjectDiff_ObjectKey diff) = ObjectTypeTable
       /\ ObjectDiff_DiffType diff <> DiffTypeCreate
       /\ (Config_Changed config "safe-below-size" = true
           \/ Config_Changed config "alter-wrapper-min-size" = true
           \/ Contains (ToUpper (Config_Get config "alter-wrapper")) "{SIZE}"
              = true
           \/ Contains (ToUpper (Config_Get config "ddl-wrapper")) "{SIZE}"
              = true))
  /\ (forall template,
        ToUpper template
        = if isASCII template then ToUpperASCII template
          else MapToUpper template)
  /\ ((exists e, e ∈ tr /\ isSizeQuery e = true)
      <-> needTableSize diff config = true)
  /\ (ObjectDiff_DiffType diff = DiffTypeCreate ->
      (forall e, e ∈ tr -> isSizeQuery e = false)
      /\ (res, h', tr)
         = (p ← alloc mods;
            finishDDLStatement TerminalWidth WrapStringWithPadding
              RealConnectOptions NewInterpolatedShellOut diff target
              (initialDDL diff target) p 0) h).
Proof.
  intros Hrun config. split_and!.
  - apply needTableSize_iff.
  - done.
  - by eapply size_queried_iff.
  - intros Hcreate.
    assert (Hneed : needTableSize diff config = false).
    { destruct (needTableSize diff config) eqn:Hneed; [|done].
      apply needTableSize_iff in Hneed as (_ & Hnot & _). done. }
    split.
    + intros e Hin. destruct (isSizeQuery e) eqn:He; [|done].
      assert (needTableSize diff config = true) as Htrue
        by (eapply size_queried_iff; eauto).
      congruence.
    + rewrite <- Hrun. unfold NewDDLStatement.
      fold config. by rewrite Hneed.
Qed.

Lemma table_size_needed_and_queried_witness :
  (exists e,
      e ∈ snd (examples.construct 80 examples.alterTable examples.noMods
                 (examples.targetOf examples.lowerCaseWrapper) ∅)
      /\ isSizeQuery e = true)
  /\ forall e,
       e ∈ snd (examples.construct 80 examples.createTable examples.noMods
                  (examples.targetOf examples.lowerCaseWrapper) ∅) ->
       isSizeQuery e = false.
Proof.
  split.
  - destruct (examples.construct 80 examples.alterTable examples.noMods
                (examples.targetOf examples.lowerCaseWrapper) ∅)
      as [[res h'] tr] eqn:Hrun.
    by apply (proj1 (proj2 (proj2 (table_size_needed_and_queried
                                     (uni := examples.unicode)
                                     _ _ _ _ _ _ _ _ _ _ _ Hrun)))).
  - destruct (examples.construct 80 examples.createTable examples.noMods
                (examples.targetOf examples.lowerCaseWrapper) ∅)
      as [[res h'] tr] eqn:Hrun.
    by apply (proj2 (proj2 (proj2 (table_size_needed_and_queried
                                     (uni := examples.unicode)
                                     _ _ _ _ _ _ _ _ _ _ _ Hrun)))).
Defined.

(** C9 (as stated, refuted). The ddl-wrapper
    run-ddl {schema} {ddl} {size} does not contain the text {SIZE} and no
    size threshold is set, yet the size is needed for an alteration. *)
Lemma lower_case_placeholder_needs_size :
  ~ stated.size_needed_iff_literal (uni := examples.unicode)
      examples.alterTable
      examples.lowerCaseWrapper.
Proof.
  intros [Hneeded _].
  destruct (Hneeded eq_refl) as (_ & _ & [H|[H|[H|H]]]);
    vm_compute in H; discriminate H.
Qed.

(** ** ClientState *)

(** C10. The delimiter of the client state is empty when the statement has
    an external command; without one it is // when the compound flag is set
    and ; otherwise. *)
Theorem client_state_delimiter (ddl : DDLStatement) :
  Delimiter (DDLStatement_ClientState ddl)
  = match shellOut ddl with
    | Some _ => EmptyString
    | None => if compound ddl then "//" else ";"
    end.
Proof.
  unfold DDLStatement_ClientState.
  destruct (shellOut ddl), (compound ddl); reflexivity.
Qed.

(** ** Further properties of the construction *)

(** A table without rows has the size 0, whatever the catalog reports, and
    the size itself is not queried. *)
Lemma empty_table_has_size_zero target tableName
    (h : gmap nat StatementModifiers) :
  TableHasRows (Target_Instance target) (Target_SchemaName target) tableName
  = (false, None) ->
  getTableSize target tableName h
  = (Done (0, None), h,
     [QueryTableHasRows (Target_SchemaName target) tableName]).
Proof. intros Hrows. unfold getTableSize. red_goal. by rewrite Hrows. Qed.

Lemma empty_table_has_size_zero_witness :
  getTableSize
    {| Target_Instance := examples.emptyDb;
       Target_Dir := {| Dir_Config := examples.plainConfig;
                        Dir_BaseName := "shop";
                        Dir_Path := "/schemas/shop" |};
       Target_SchemaName := "shop" |}
    "customer_orders" ∅
  = (Done (0, None), ∅, [QueryTableHasRows "shop" "customer_orders"]).
Proof. by apply empty_table_has_size_zero. Defined.

(** The statement constructed for a database-level diff has an empty schema
    name. *)
Lemma database_diff_has_no_schema {uni : Unicode}
    TerminalWidth WrapStringWithPadding RealConnectOptions
    NewInterpolatedShellOut diff mods target
    (h : gmap nat StatementModifiers) ddl h' tr :
  NewDDLStatement TerminalWidth WrapStringWithPadding RealConnectOptions
    NewInterpolatedShellOut diff mods target h
  = (Done (Some ddl, None), h', tr) ->
  ObjectKey_Type (ObjectDiff_ObjectKey diff) = ObjectTypeDatabase ->
  schemaName ddl = EmptyString.
Proof.
  intros (m & w & tableSize & hw & _ & _ & _ & _ & Hschema & _)
    %constructed_inv Hdatabase.
  rewrite Hschema. cbn [schemaName initialDDL].
  by rewrite bool_decide_eq_true_2.
Qed.

Lemma database_diff_has_no_schema_witness :
  exists ddl,
    fst (fst (examples.construct 80 examples.alterDatabase examples.noMods
                (examples.targetOf examples.plainConfig) ∅))
    = Done (Some ddl, None)
    /\ Target_SchemaName (examples.targetOf examples.plainConfig) = "shop"
    /\ schemaName ddl = EmptyString.
Proof.
  destruct (examples.construct 80 examples.alterDatabase examples.noMods
              (examples.targetOf examples.plainConfig) ∅)
    as [[res h'] tr] eqn:Hrun.
  assert (exists ddl, res = Done (Some ddl, None)) as [ddl ->].
  { vm_compute in Hrun. injection Hrun as <- _ _. by eexists. }
  exists ddl. split_and!; [reflexivity | reflexivity |].
  exact (database_diff_has_no_schema (uni := examples.unicode)
      _ _ _ _ _ _ _ _ _ _ _ Hrun eq_refl).
Defined.

(** * Execute and Statement on a constructed statement *)

Section execution.

Import applier.

Context {uni : Unicode}.

Variable TerminalWidth : Z * option error.
Variable WrapStringWithPadding : string -> Z -> string -> string.
Variable RealConnectOptions : string -> string * option error.
Variable NewInterpolatedShellOut :
  string -> gmap string string -> option ShellOut * option error.
Variable DB : Type.
Variable ShellOut_Run : ShellOut -> option error.
Variable ShellOut_String : ShellOut -> string.
Variable CachedConnectionPool : Instance -> string -> string -> DB + error.
Variable Exec : DB -> string -> option error.

(** The instance of a constructed statement is the instance of the
    target. *)
Lemma constructed_instance
    diff mods target (h : gmap nat StatementModifiers) ddl h' tr :
  NewDDLStatement TerminalWidth WrapStringWithPadding RealConnectOptions
    NewInterpolatedShellOut diff mods target h
  = (Done (Some ddl, None), h', tr) ->
  instance ddl = Target_Instance target.
Proof.
  intros (m & trq & trf & -> & -> & _ & _ & Hcase)%NewDDLStatement_run.
  destruct Hcase as [[_ [e He]]|(tableSize & m0 & w & _ & Hw & _ & Hfin)];
    [discriminate He|].
  inversion Hfin; subst; done.
Qed.

(** What [Execute] does with a statement that [NewDDLStatement] returned.
    It either runs the external command or goes to the database, never
    both. The command it runs is the one that the interpolation of a
    non-empty wrapper returned, and the result is the result of the run. The
    query it sends is the non-empty text that the diff rendered during the
    construction; it is sent once, to the pool that the instance of the
    target gives for the schema of the target (for no schema when the diff
    is database-level) and for the connection parameters of
    [getConnectParams] (for none when a wrapper was interpolated into no
    command); when the instance gives an error instead of a pool, that
    error is the result and nothing is sent. *)
Theorem constructed_statement_execution
    diff mods target (h : gmap nat StatementModifiers) ddl h' tr :
  NewDDLStatement TerminalWidth WrapStringWithPadding RealConnectOptions
    NewInterpolatedShellOut diff mods target h
  = (Done (Some ddl, None), h', tr) ->
  let schema := schemaName (initialDDL diff target) in
  let run := DDLStatement_Execute DB ShellOut_Run CachedConnectionPool Exec
               ddl in
  (exists cmd w variables,
      w <> EmptyString
      /\ NewInterpolatedShellOut w variables = (Some cmd, None)
      /\ run = (ShellOut_Run cmd, [CallRun cmd]))
  \/ (stmt ddl <> EmptyString
      /\ (exists m, CallStatement m ∈ tr
                    /\ ObjectDiff_Statement diff m = (stmt ddl, None))
      /\ exists params,
           (params = getConnectParams diff (Dir_Config (Target_Dir target))
            \/ (params = EmptyString
                /\ exists w variables,
                     w <> EmptyString
                     /\ NewInterpolatedShellOut w variables = (None, None)))
           /\ match CachedConnectionPool (Target_Instance target) schema
                      params with
              | inl db =>
                  run = (Exec db (stmt ddl),
                         [CallCachedConnectionPool schema params;
                          CallExec (stmt ddl)])
              | inr err =>
                  run = (Some err, [CallCachedConnectionPool schema params])
              end).
Proof.
  intros Hnew. cbv zeta. unfold DDLStatement_Execute.
  pose proof (constructed_instance _ _ _ _ _ _ _ Hnew) as Hinst.
  apply constructed_inv in Hnew as
    (m & w & tableSize & hw & Hin & Hstmt & Htext & _ & Hschema & _ & Hcmd).
  rewrite Hinst, Hschema.
  destruct (shellOut ddl) as [cmd|] eqn:Hshell.
  - left. destruct Hcmd as [(_ & [=] & _)|(Hw & _ & variables & Hv)].
    by exists cmd, w, variables.
  - right. split_and!; [done|by eauto|].
    exists (connectParams ddl). split.
    + destruct Hcmd as [(_ & _ & ->)|(Hw & -> & variables & Hv)];
        [by left|right]. split; [done|]. by exists w, variables.
    + by destruct (CachedConnectionPool _ _ _).
Qed.

(** The text that [Statement] gives for a statement that [NewDDLStatement]
    returned is never empty: it is the non-empty text that the diff rendered
    during the construction, or the external command after a backslash, an
    exclamation mark and a space. *)
Theorem constructed_statement_text
    diff mods target (h : gmap nat StatementModifiers) ddl h' tr :
  NewDDLStatement TerminalWidth WrapStringWithPadding RealConnectOptions
    NewInterpolatedShellOut diff mods target h
  = (Done (Some ddl, None), h', tr) ->
  DDLStatement_Statement ShellOut_String ddl <> EmptyString
  /\ ((exists cmd, shellOut ddl = Some cmd
                   /\ DDLStatement_Statement ShellOut_String ddl
                      = "\! " +:+ ShellOut_String cmd)
      \/ (exists m, CallStatement m ∈ tr
                    /\ ObjectDiff_Statement diff m
                       = (DDLStatement_Statement ShellOut_String ddl,
                          None))).
Proof.
  intros (m & w & tableSize & hw & Hin & Hstmt & Htext & _)%constructed_inv.
  unfold DDLStatement_Statement.
  destruct (shellOut ddl) as [cmd|]; split; [done|by eauto|done|by eauto].
Qed.

End execution.

Lemma constructed_statement_execution_witness :
  exists ddl tr,
    examples.construct 80 examples.alterTable examples.noMods
      (examples.targetOf examples.plainConfig) ∅
    = (Done (Some ddl, None), tr.1, tr.2)
    /\ ((exists cmd w variables,
            w <> EmptyString
            /\ util.NewInterpolatedShellOut w variables = (Some cmd, None)
            /\ DDLStatement_Execute unit (fun _ => None)
                 (fun _ _ _ => inl tt) (fun _ _ => None) ddl
               = (None, [CallRun cmd]))
        \/ (stmt ddl <> EmptyString
            /\ (exists m, CallStatement m ∈ tr.2
                          /\ ObjectDiff_Statement examples.alterTable m
                             = (stmt ddl, None))
            /\ exists params,
                 (params = "readTimeout=0"
                  \/ (params = EmptyString
                      /\ exists w variables,
                           w <> EmptyString
                           /\ util.NewInterpolatedShellOut w variables
                              = (None, None)))
                 /\ DDLStatement_Execute unit (fun _ => None)
                      (fun _ _ _ => inl tt) (fun _ _ => None) ddl
                    = (None,
                       [CallCachedConnectionPool "shop" params;
                        CallExec (stmt ddl)]))).
Proof.
  destruct (examples.construct 80 examples.alterTable examples.noMods
              (examples.targetOf examples.plainConfig) ∅)
    as [[res h'] tr] eqn:Hrun.
  assert (exists ddl, res = Done (Some ddl, None)) as [ddl ->].
  { vm_compute in Hrun. injection Hrun as <- _ _. by eexists. }
  exists ddl, (h', tr). split; [reflexivity|].
  exact (constructed_statement_execution (uni := examples.unicode) (80, None)
           util.WrapStringWithPadding util.RealConnectOptions
           util.NewInterpolatedShellOut unit (fun _ => None)
           (fun _ _ _ => inl tt) (fun _ _ => None)
           _ _ _ _ _ _ _ Hrun).
Defined.

Lemma constructed_statement_text_witness :
  exists ddl,
    fst (fst (examples.construct 80 examples.createTable examples.noMods
                (examples.targetOf examples.ddlWrapper) ∅))
    = Done (Some ddl, None)
    /\ DDLStatement_Statement Command ddl <> EmptyString.
Proof.
  destruct (examples.construct 80 examples.createTable examples.noMods
              (examples.targetOf examples.ddlWrapper) ∅)
    as [[res h'] tr] eqn:Hrun.
  assert (exists ddl, res = Done (Some ddl, None)) as [ddl ->].
  { vm_compute in Hrun. injection Hrun as <- _ _. by eexists. }
  exists ddl. split; [reflexivity|].
  exact (proj1 (constructed_statement_text (uni := examples.unicode) (80, None)
                  util.WrapStringWithPadding util.RealConnectOptions
                  util.NewInterpolatedShellOut Command
                  _ _ _ _ _ _ _ Hrun)).
Defined.

(** * The calls of a construction and its one panic *)

Section construction.

Import applier.

Context {uni : Unicode}.

Variable TerminalWidth : Z * option error.
Variable WrapStringWithPadding : string -> Z -> string -> string.
Variable RealConnectOptions : string -> string * option error.
Variable NewInterpolatedShellOut :
  string -> gmap string string -> option ShellOut * option error.
Variables (diff : ObjectDiff) (target : Target).

Lemma finishDDLStatement_panics ddl p tableSize
    (h : gmap nat StatementModifiers) m0 h' tr :
  h !! p = Some m0 ->
  finishDDLStatement TerminalWidth WrapStringWithPadding RealConnectOptions
    NewInterpolatedShellOut diff target ddl p tableSize h = (Panic, h', tr) ->
  ObjectKey_Type (ObjectDiff_ObjectKey diff) = ObjectTypeTable.
Proof.
  intros Hp H.
  destruct (getWrapper_run (Dir_Config (Target_Dir target)) diff tableSize
              p h m0 Hp) as (w & err & m & Hw & Hm).
  unfold finishDDLStatement in H.
  red_in H. rewrite Hw in H.
  run_in H.
  all: try discriminate H.
  all: bools; done.
Qed.

Lemma NewDDLStatement_panics mods (h : gmap nat StatementModifiers) h' tr :
  NewDDLStatement TerminalWidth WrapStringWithPadding RealConnectOptions
    NewInterpolatedShellOut diff mods target h = (Panic, h', tr) ->
  ObjectKey_Type (ObjectDiff_ObjectKey diff) = ObjectTypeTable.
Proof.
  intros H.
  unfold NewDDLStatement in H. red_in H.
  destruct (needTableSize diff (Dir_Config (Target_Dir target))) eqn:Hneed.
  - destruct (getTableSize_run target
                (ObjectKey_Name (ObjectDiff_ObjectKey diff)))
      as ([tableSize err] & rest & Hrest & Hq).
    rewrite Hq in H.
    run_in H.
    all: try discriminate H.
    all: injection H as -> _ _.
    all: match goal with
         | E : finishDDLStatement _ _ _ _ _ _ _ _ _ _ = _ |- _ =>
             eapply finishDDLStatement_panics in E;
               [exact E | apply lookup_insert_eq]
         end.
  - destruct (finishDDLStatement _ _ _ _ _ _ _ _ _ _) as [[res0 h0] tr0] eqn:E.
    injection H as -> _ _.
    eapply finishDDLStatement_panics in E; [exact E | apply lookup_insert_eq].
Qed.

(** The calls of a construction, in order: first the size queries, which
    are made exactly when [needTableSize] holds; then, unless the
    construction returned an error before it, one rendering of the
    statement, followed only by renderings of the clauses with the same
    modifiers as the statement. *)
Theorem construction_call_order
    mods (h : gmap nat StatementModifiers) res h' tr :
  NewDDLStatement TerminalWidth WrapStringWithPadding RealConnectOptions
    NewInterpolatedShellOut diff mods target h = (res, h', tr) ->
  exists queries rendering,
    tr = queries ++ rendering
    /\ Forall (fun e => isSizeQuery e = true) queries
    /\ (queries <> [] <->
        needTableSize diff (Dir_Config (Target_Dir target)) = true)
    /\ ((rendering = [] /\ exists e, res = Done (None, Some e))
        \/ exists m clauses,
             rendering = CallStatement m :: clauses
             /\ Forall (fun e => e = CallClauses m) clauses).
Proof.
  intros (m & trq & trf & _ & -> & Hq & Hneed & Hcase)%NewDDLStatement_run.
  exists trq, trf. split_and!; [done|done| |].
  - destruct (needTableSize _ _); [done|]. subst trq. split; done.
  - destruct Hcase as [?|(tableSize & m0 & w & _ & _ & _ & Hfin)]; [by left|].
    right. apply Finished_events in Hfin as (post & -> & Hpost). eauto.
Qed.

(** Called with a diff and a target that are not nil, the target with an
    instance, a directory and a configuration that are not nil (the values
    of the records [ObjectDiff], [Target], [Instance], [Dir] and [Config]),
    a construction panics only on the type assertion of line 121: the key of
    the diff says that it is a table, the diff is not a table diff, and the
    construction got as far as a statement rendered without error and not
    empty. *)
Theorem construction_panics_only_on_assertion
    mods (h : gmap nat StatementModifiers) h' tr :
  NewDDLStatement TerminalWidth WrapStringWithPadding RealConnectOptions
    NewInterpolatedShellOut diff mods target h = (Panic, h', tr) ->
  ObjectKey_Type (ObjectDiff_ObjectKey diff) = ObjectTypeTable
  /\ asTableDiff diff = None
  /\ exists m text,
       CallStatement m ∈ tr
       /\ ObjectDiff_Statement diff m = (text, None)
       /\ text <> EmptyString.
Proof.
  intros H. split; [by eapply NewDDLStatement_panics|].
  apply NewDDLStatement_run in H
    as (m & trq & trf & _ & -> & _ & _ & Hcase).
  destruct Hcase as [[_ [e He]]|(tableSize & m0 & w & _ & _ & _ & Hfin)];
    [discriminate He|].
  inversion Hfin; subst. split; [done|].
  exists m, text. split_and!; [|done|done].
  apply elem_of_app. right. left.
Qed.

End construction.

Lemma construction_call_order_witness :
  exists queries rendering,
    snd (examples.construct 80 examples.dropTable examples.noMods
           (examples.targetOf examples.smallSafeBelowSize) ∅)
    = queries ++ rendering
    /\ Forall (fun e => isSizeQuery e = true) queries
    /\ queries <> [].
Proof.
  destruct (examples.construct 80 examples.dropTable examples.noMods
              (examples.targetOf examples.smallSafeBelowSize) ∅)
    as [[res h'] tr] eqn:Hrun.
  destruct (construction_call_order (uni := examples.unicode)
      _ _ _ _ _ _ _ _ _ _ _ Hrun)
    as (queries & rendering & Htr & Hq & Hneed & _).
  exists queries, rendering. split_and!; [done|done|].
  apply Hneed. reflexivity.
Defined.

Lemma construction_panics_only_on_assertion_witness :
  fst (fst (examples.construct 80 tableDiffOfAnotherType examples.noMods
              (examples.targetOf examples.ddlWrapper) ∅))
  = Panic
  /\ ObjectKey_Type (ObjectDiff_ObjectKey tableDiffOfAnotherType)
     = ObjectTypeTable
  /\ asTableDiff tableDiffOfAnotherType = None.
Proof.
  destruct (examples.construct 80 tableDiffOfAnotherType examples.noMods
              (examples.targetOf examples.ddlWrapper) ∅)
    as [[res h'] tr] eqn:Hrun.
  assert (res = Panic) as ->.
  { vm_compute in Hrun. by injection Hrun as <- _ _. }
  split; [reflexivity|].
  destruct (construction_panics_only_on_assertion (uni := examples.unicode)
      _ _ _ _ _ _ _ _ _ _ Hrun)
    as (Hkey & Htd & _).
  by split.
Defined.

(** * Package tengo *)

(** The functions of package tengo on some inputs. *)
Example tengo_examples :
  tengo.EscapeIdentifier "a`b" = "`a``b`"
  /\ tengo.StripDisplayWidth (uni := examples.unicode)
       "int(10) unsigned" = Done ("int unsigned", true)
  /\ tengo.StripDisplayWidth (uni := examples.unicode)
       "tinyint(1)" = Done ("tinyint(1)", false)
  /\ tengo.StripDisplayWidth (uni := examples.unicode)
       "varchar(30)" = Done ("varchar(30)", false)
  /\ tengo.baseDSN "root@tcp(127.0.0.1:3306)/shop?timeout=5s"
     = Done "root@tcp(127.0.0.1:3306)/"
  /\ tengo.reformatCreateOptions (uni := examples.unicode)
       "row_format=DYNAMIC partitioned"
     = Done "ROW_FORMAT=DYNAMIC"
  /\ tengo.reformatCreateOptions (uni := examples.unicode)
       "a  b" = Panic
  /\ tengo.ContainerNameForImage "mysql/mysql-server:8.0" = "mysql-8.0"
  /\ tengo.longestIncreasingSubsequence [3; 1; 4; 1; 5; 9; 2; 6]
     = Some [1; 4; 5; 6].
Proof. split_and!; vm_compute; reflexivity. Qed.

(** * Go's strings package *)

Section gostrings_facts.

Import gostrings.

Lemma append_cons c a b : String c a +:+ b = String c (a +:+ b).
Proof. reflexivity. Qed.

Lemma append_nil_l b : EmptyString +:+ b = b.
Proof. reflexivity. Qed.

Lemma length_append a b :
  String.length (a +:+ b) = (String.length a + String.length b)%nat.
Proof.
  induction a as [|c a IH]; [done|].
  rewrite append_cons. cbn [String.length]. by rewrite IH.
Qed.

Lemma IndexByte_range s c :
  IndexByte s c = -1 \/ 0 <= IndexByte s c < Z.of_nat (String.length s).
Proof.
  induction s as [|d s IH]; cbn [IndexByte String.length]; [by left|].
  destruct (Ascii.eqb d c); [right; lia|].
  destruct (Z.ltb_spec (IndexByte s c) 0); [by left|right; lia].
Qed.

Lemma IndexByte_cons s c d :
  IndexByte (String d s) c = -1 <-> d <> c /\ IndexByte s c = -1.
Proof.
  cbn [IndexByte]. destruct (Ascii.eqb_spec d c) as [->|Hne].
  - split; [lia|]. by intros [? _].
  - pose proof (IndexByte_range s c).
    destruct (Z.ltb_spec (IndexByte s c) 0); split; try lia; intuition lia.
Qed.

Lemma IndexByte_append s t c :
  IndexByte (s +:+ t) c = -1 <-> IndexByte s c = -1 /\ IndexByte t c = -1.
Proof.
  induction s as [|d s IH].
  - rewrite append_nil_l. cbn [IndexByte]. intuition.
  - rewrite append_cons, !IndexByte_cons, IH. intuition.
Qed.

Lemma ReplaceAllByte_append s t old new :
  ReplaceAllByte (s +:+ t) old new
  = ReplaceAllByte s old new +:+ ReplaceAllByte t old new.
Proof.
  induction s as [|c s IH]; [done|].
  rewrite append_cons. cbn [ReplaceAllByte]. rewrite IH.
  by rewrite string_app_assoc.
Qed.

(** No [old] is left once every [old] is replaced by a text without it. *)
Lemma ReplaceAllByte_removes s old new :
  IndexByte new old = -1 ->
  IndexByte (ReplaceAllByte s old new) old = -1.
Proof.
  intros Hnew. induction s as [|c s IH]; [done|].
  cbn [ReplaceAllByte]. apply IndexByte_append. split; [|done].
  destruct (Ascii.eqb_spec c old) as [->|Hne]; [done|].
  apply IndexByte_cons. by split.
Qed.

(** A byte that is neither in the text nor in the replacement is not in the
    result. *)
Lemma ReplaceAllByte_keeps_absent s old new c :
  IndexByte s c = -1 -> IndexByte new c = -1 ->
  IndexByte (ReplaceAllByte s old new) c = -1.
Proof.
  intros Hs Hnew. induction s as [|d s IH]; [done|].
  apply IndexByte_cons in Hs as [Hne Hs].
  cbn [ReplaceAllByte]. apply IndexByte_append. split; [|by apply IH].
  destruct (Ascii.eqb d old); [done|]. apply IndexByte_cons. by split.
Qed.

Lemma prefix_cons_inv c p s :
  String.prefix (String c p) s = true ->
  exists s', s = String c s' /\ String.prefix p s' = true.
Proof.
  destruct s as [|d s]; cbn [String.prefix]; [done|].
  destruct (ascii_dec c d) as [->|]; [|done]. eauto.
Qed.

(** [Contains s _] with a text that starts with [c] finds a [c] in [s]. *)
Lemma Contains_IndexByte s c p :
  Contains s (String c p) = true -> 0 <= IndexByte s c.
Proof.
  induction s as [|d s IH]; cbn [Contains].
  - rewrite orb_false_r. by intros (? & ? & _)%prefix_cons_inv.
  - intros [H|H]%orb_true_iff.
    + apply prefix_cons_inv in H as (s' & [= -> ->] & _).
      cbn [IndexByte]. by rewrite Ascii.eqb_refl.
    + specialize (IH H). cbn [IndexByte].
      destruct (Ascii.eqb d c); [lia|].
      destruct (Z.ltb_spec (IndexByte s c) 0); lia.
Qed.

Lemma not_Contains_IndexByte s c :
  Contains s (String c EmptyString) = false -> IndexByte s c = -1.
Proof.
  induction s as [|d s IH]; cbn [Contains]; [done|].
  intros [H1 H2]%orb_false_iff. apply IndexByte_cons. split; [|by apply IH].
  intros ->. cbn [String.prefix] in H1.
  destruct (ascii_dec c c); [|done]. by destruct s.
Qed.

End gostrings_facts.

(** * Escaping of identifiers and values *)

Section escaping.

Import gostrings tengo.

Lemma doubled_backticks_cancel a : forall b,
  ReplaceAllByte a backtick "``" +:+ "`"
  = ReplaceAllByte b backtick "``" +:+ "`" ->
  a = b.
Proof.
  induction a as [|c a IH]; intros [|d b]; cbn [ReplaceAllByte]; [done|..].
  - destruct (Ascii.eqb_spec d backtick) as [->|Hne];
      rewrite !append_cons, !append_nil_l; intros H; simplify_eq; congruence.
  - destruct (Ascii.eqb_spec c backtick) as [->|Hne];
      rewrite !append_cons, !append_nil_l; intros H; simplify_eq; congruence.
  - destruct (Ascii.eqb_spec c backtick) as [->|Hc],
             (Ascii.eqb_spec d backtick) as [->|Hd];
      rewrite !append_cons, !append_nil_l.
    + intros [= H]. f_equal. by apply IH.
    + intros [= H]. by destruct Hd.
    + intros [= H]. by destruct Hc.
    + intros [= -> H]. f_equal. by apply IH.
Qed.

(** Two identifiers have the same escaped form only if they are the same
    identifier. *)
Theorem EscapeIdentifier_injective (a b : string) :
  EscapeIdentifier a = EscapeIdentifier b <-> a = b.
Proof.
  split; [|by intros ->]. unfold EscapeIdentifier.
  rewrite !append_cons, !append_nil_l. intros [= H].
  by apply doubled_backticks_cancel.
Qed.

(** The escaped form is the identifier as it is between two backticks
    exactly when the identifier holds no backtick. *)
Theorem EscapeIdentifier_without_backtick (input : string) :
  IndexByte input backtick = -1 <->
  EscapeIdentifier input = "`" +:+ input +:+ "`".
Proof.
  unfold EscapeIdentifier. rewrite !append_cons, !append_nil_l. split.
  - intros H. do 2 f_equal. induction input as [|c s IH]; [done|].
    apply IndexByte_cons in H as [Hne H]. cbn [ReplaceAllByte].
    destruct (Ascii.eqb_spec c backtick) as [->|_]; [done|].
    rewrite append_cons, append_nil_l. f_equal. by apply IH.
  - intros [= H]. apply (f_equal String.length) in H.
    rewrite !length_append in H.
    assert (String.length (ReplaceAllByte input backtick "``")
            = String.length input) as Hlen by lia.
    clear H. 
    assert (forall s, String.length s
                      <= String.length (ReplaceAllByte s backtick "``"))%nat
      as Hle.
    { induction s as [|c s IH]; [done|]. cbn [ReplaceAllByte].
      rewrite length_append. destruct (Ascii.eqb c backtick);
        cbn [String.length]; lia. }
    induction input as [|c s IH]; [done|].
    cbn [ReplaceAllByte] in Hlen. rewrite length_append in Hlen.
    specialize (Hle s). apply IndexByte_cons.
    destruct (Ascii.eqb_spec c backtick) as [->|Hne];
      cbn [String.length] in Hlen; [lia|].
    split; [done|]. apply IH. lia.
Qed.

Lemma EscapeValueForCreateTable_append a b :
  EscapeValueForCreateTable (a +:+ b)
  = EscapeValueForCreateTable a +:+ EscapeValueForCreateTable b.
Proof.
  unfold EscapeValueForCreateTable, replacements. cbn [fold_left fst snd].
  by rewrite !ReplaceAllByte_append.
Qed.

Lemma EscapeValueForCreateTable_byte c :
  EscapeValueForCreateTable (String c EmptyString) = escapeByte c.
Proof.
  unfold escapeByte.
  destruct (Ascii.eqb_spec c backslash) as [->|H1]; [done|].
  destruct (Ascii.eqb_spec c NUL) as [->|H2]; [done|].
  destruct (Ascii.eqb_spec c quote) as [->|H3]; [done|].
  destruct (Ascii.eqb_spec c LF) as [->|H4]; [done|].
  destruct (Ascii.eqb_spec c CR) as [->|H5]; [done|].
  unfold EscapeValueForCreateTable, replacements.
  cbn [fold_left fst snd ReplaceAllByte].
  apply Ascii.eqb_neq in H1, H2, H3, H4, H5.
  rewrite H1, append_cons, append_nil_l. cbn [ReplaceAllByte].
  rewrite H2, append_cons, append_nil_l. cbn [ReplaceAllByte].
  rewrite H3, append_cons, append_nil_l. cbn [ReplaceAllByte].
  rewrite H4, append_cons, append_nil_l. cbn [ReplaceAllByte].
  by rewrite H5.
Qed.

Lemma EscapeValueForCreateTable_cons c s :
  EscapeValueForCreateTable (String c s)
  = escapeByte c +:+ EscapeValueForCreateTable s.
Proof.
  change (String c s) with (String c EmptyString +:+ s).
  by rewrite EscapeValueForCreateTable_append,
       EscapeValueForCreateTable_byte.
Qed.

Lemma escapeByte_cases c :
  (c = backslash
   /\ escapeByte c = String backslash (String backslash EmptyString))
  \/ (c = NUL /\ escapeByte c = String backslash "0")
  \/ (c = quote /\ escapeByte c = "''")
  \/ (c = LF /\ escapeByte c = String backslash "n")
  \/ (c = CR /\ escapeByte c = String backslash "r")
  \/ (c <> backslash /\ c <> NUL /\ c <> quote /\ c <> LF /\ c <> CR
      /\ escapeByte c = String c EmptyString).
Proof.
  unfold escapeByte.
  destruct (Ascii.eqb_spec c backslash) as [->|H1]; [by left|].
  destruct (Ascii.eqb_spec c NUL) as [->|H2]; [by right; left|].
  destruct (Ascii.eqb_spec c quote) as [->|H3]; [by right; right; left|].
  destruct (Ascii.eqb_spec c LF) as [->|H4]; [by right; right; right; left|].
  destruct (Ascii.eqb_spec c CR) as [->|H5];
    [by right; right; right; right; left|].
  by do 5 right.
Qed.

(** The five replacements, each made over the whole text and one after the
    other, amount to one pass that writes each byte of the value once: no
    replacement escapes again what an earlier one wrote. *)
Theorem EscapeValueForCreateTable_one_pass (input : string) :
  EscapeValueForCreateTable input = escapeBytes input.
Proof.
  induction input as [|c s IH]; [done|].
  rewrite EscapeValueForCreateTable_cons. cbn [escapeBytes]. by rewrite IH.
Qed.

(** Two values have the same escaped form only if they are the same
    value. *)
Theorem EscapeValueForCreateTable_injective (a b : string) :
  EscapeValueForCreateTable a = EscapeValueForCreateTable b <-> a = b.
Proof.
  split; [|by intros ->]. revert b.
  induction a as [|c a IH]; intros [|d b].
  - done.
  - rewrite EscapeValueForCreateTable_cons.
    destruct (escapeByte_cases d) as
      [[_ ->]|[[_ ->]|[[_ ->]|[[_ ->]|[[_ ->]|(_&_&_&_&_& ->)]]]]];
      by intros [=].
  - rewrite EscapeValueForCreateTable_cons.
    destruct (escapeByte_cases c) as
      [[_ ->]|[[_ ->]|[[_ ->]|[[_ ->]|[[_ ->]|(_&_&_&_&_& ->)]]]]];
      by intros [=].
  - rewrite !EscapeValueForCreateTable_cons.
    destruct (escapeByte_cases c) as
      [[-> ->]|[[-> ->]|[[-> ->]|[[-> ->]|[[-> ->]|(?&?&?&?&?& ->)]]]]];
    destruct (escapeByte_cases d) as
      [[-> ->]|[[-> ->]|[[-> ->]|[[-> ->]|[[-> ->]|(?&?&?&?&?& ->)]]]]];
      rewrite !append_cons, !append_nil_l; intros Heq; simplify_eq;
      try congruence; f_equal; by apply IH.
Qed.

(** The escaped form holds no NUL byte, no line feed and no carriage
    return, whatever the value holds. *)
Theorem EscapeValueForCreateTable_no_control_bytes (input : string) :
  IndexByte (EscapeValueForCreateTable input) NUL = -1
  /\ IndexByte (EscapeValueForCreateTable input) LF = -1
  /\ IndexByte (EscapeValueForCreateTable input) CR = -1.
Proof.
  unfold EscapeValueForCreateTable, replacements. cbn [fold_left fst snd].
  split_and!.
  - do 3 (apply ReplaceAllByte_keeps_absent; [|done]).
    by apply ReplaceAllByte_removes.
  - apply ReplaceAllByte_keeps_absent; [|done].
    by apply ReplaceAllByte_removes.
  - by apply ReplaceAllByte_removes.
Qed.

End escaping.

(** * baseDSN, StripDisplayWidth and ContainerNameForImage *)

Section slicing.

Import gostrings tengo.

Context {uni : Unicode}.

Lemma ReplaceAllByte_absent s old new :
  IndexByte s old = -1 -> ReplaceAllByte s old new = s.
Proof.
  induction s as [|c s IH]; [done|].
  intros [Hne Hs]%IndexByte_cons. cbn [ReplaceAllByte].
  apply Ascii.eqb_neq in Hne. rewrite Hne, append_cons, append_nil_l.
  f_equal. by apply IH.
Qed.

Lemma Join_cons_nosep x l :
  Join (x :: l) EmptyString = x +:+ Join l EmptyString.
Proof.
  destruct l; cbn [Join]; [by rewrite string_app_nil_r|done].
Qed.

(** The tokens of [SplitAfter]: all but the last end with the separator,
    the last holds none, and together they are the text. *)
Lemma SplitAfter_shape s sep :
  exists init final,
    SplitAfter s sep = init ++ [final]
    /\ s = Join init EmptyString +:+ final
    /\ IndexByte final sep = -1
    /\ (init = []
        \/ exists p, Join init EmptyString = p +:+ String sep EmptyString)
    /\ SplitAfter (Join init EmptyString) sep = init ++ [EmptyString].
Proof.
  induction s as [|c s (init & final & Hs & Hjoin & Hfinal & Hends & Hidem)].
  { exists [], EmptyString. by split_and!; [..|left|]. }
  cbn [SplitAfter]. destruct (Ascii.eqb_spec c sep) as [->|Hne].
  - exists (String sep EmptyString :: init), final.
    rewrite Hs, Join_cons_nosep, !append_cons, !append_nil_l.
    split_and!; [done|by rewrite <- Hjoin|done| |].
    + right. destruct Hends as [->|[p Hp]].
      * by exists EmptyString.
      * exists (String sep p). by rewrite Hp.
    + cbn [SplitAfter]. by rewrite Ascii.eqb_refl, Hidem.
  - rewrite Hs. destruct init as [|first others].
    + exists [], (String c final). cbn [app Join].
      rewrite append_nil_l in Hjoin |- *. subst s.
      split_and!; [done|done| |by left|done].
      apply IndexByte_cons. by split.
    + exists (String c first :: others), final. cbn [app].
      rewrite Join_cons_nosep in Hjoin, Hidem |- *.
      rewrite !append_cons. rewrite <- Hjoin.
      split_and!; [done|done|done| |].
      * right. destruct Hends as [?|[p Hp]]; [done|].
        exists (String c p). rewrite Join_cons_nosep in Hp.
        by rewrite append_cons, <- Hp.
      * cbn [SplitAfter]. apply Ascii.eqb_neq in Hne.
        by rewrite Hne, Hidem.
Qed.

(** [baseDSN] never panics. What it returns is the text of the DSN up to and
    including its last slash, the empty text when the DSN has no slash: the
    DSN is the result followed by a text without a slash. Applied to its own
    result, it returns that result. *)
Theorem baseDSN_up_to_last_slash (dsn : string) :
  exists base rest,
    baseDSN dsn = Done base
    /\ dsn = base +:+ rest
    /\ IndexByte rest "/" = -1
    /\ (base = EmptyString \/ exists p, base = p +:+ "/")
    /\ baseDSN base = Done base.
Proof.
  destruct (SplitAfter_shape dsn "/")
    as (init & final & Hs & Hjoin & Hfinal & Hends & Hidem).
  exists (Join init EmptyString), final. unfold baseDSN.
  rewrite Hidem, Hs, !length_app. cbn [length].
  replace (length init + 1 - 1)%nat with (length init) by lia.
  rewrite !take_app_length.
  destruct (Nat.leb_spec 1 (length init + 1)); [|lia].
  split_and!; [done|done|done| |done].
  destruct Hends as [->|?]; [by left|by right].
Qed.

Lemma lowerAscii_paren c : lowerAscii c = "("%char <-> c = "("%char.
Proof.
  destruct c as [[] [] [] [] [] [] [] []]; vm_compute; split; congruence.
Qed.

Lemma IndexByte_ToLowerASCII_paren s :
  IndexByte (ToLowerASCII s) "(" = IndexByte s "(".
Proof.
  induction s as [|c s IH]; [done|]. cbn [ToLowerASCII IndexByte]. rewrite IH.
  destruct (Ascii.eqb_spec c "(") as [->|Hne]; [reflexivity|].
  destruct (Ascii.eqb_spec (lowerAscii c) "(") as [H|]; [|reflexivity].
  apply (proj1 (lowerAscii_paren c)) in H. congruence.
Qed.

Lemma isASCII_append a b : isASCII (a +:+ b) = isASCII a && isASCII b.
Proof.
  induction a as [|c a IH]; [done|].
  rewrite append_cons. cbn [isASCII]. by rewrite IH, andb_assoc.
Qed.

(** Lower-casing a text of ASCII bytes writes no opening parenthesis that
    the text does not hold. *)
Lemma ToLower_ASCII_no_paren s :
  isASCII s = true ->
  IndexByte s "(" = -1 -> IndexByte (ToLower s) "(" = -1.
Proof.
  intros Hs. unfold ToLower. rewrite Hs.
  by rewrite IndexByte_ToLowerASCII_paren.
Qed.

Lemma prefix_IndexByte p : forall s c,
  String.prefix p s = true -> 0 <= IndexByte p c -> 0 <= IndexByte s c.
Proof.
  induction p as [|d p IH]; intros s c Hp Hc; [done|].
  apply prefix_cons_inv in Hp as (s' & -> & Hp).
  cbn [IndexByte] in Hc |- *. destruct (Ascii.eqb d c); [lia|].
  pose proof (IndexByte_range p c). specialize (IH s' c Hp).
  destruct (Z.ltb_spec (IndexByte p c) 0); [lia|].
  destruct (Z.ltb_spec (IndexByte s' c) 0); lia.
Qed.

Lemma Contains_IndexByte_of s p c :
  Contains s p = true -> 0 <= IndexByte p c -> 0 <= IndexByte s c.
Proof.
  intros Hs Hp. induction s as [|d s IH]; cbn [Contains] in Hs.
  - rewrite orb_false_r in Hs. by eapply prefix_IndexByte.
  - apply orb_true_iff in Hs as [Hs|Hs]; [by eapply prefix_IndexByte|].
    specialize (IH Hs). cbn [IndexByte]. destruct (Ascii.eqb d c); [lia|].
    destruct (Z.ltb_spec (IndexByte s c) 0); lia.
Qed.

(** The text before the first [c]. *)
Lemma slice_to_IndexByte s c :
  0 <= IndexByte s c ->
  exists before rest,
    slice s 0 (IndexByte s c) = Some before
    /\ s = before +:+ String c rest
    /\ IndexByte before c = -1.
Proof.
  unfold slice. pose proof (IndexByte_range s c) as Hr. intros Hi.
  destruct (Z.leb_spec 0 0); [|lia].
  destruct (Z.leb_spec 0 (IndexByte s c)); [|lia].
  destruct (Z.leb_spec (IndexByte s c) (Z.of_nat (String.length s))); [|lia].
  cbn [andb]. rewrite Z.sub_0_r. clear -Hi.
  induction s as [|d s IH]; cbn [IndexByte] in *; [lia|].
  destruct (Ascii.eqb_spec d c) as [->|Hne].
  - by exists EmptyString, s.
  - pose proof (IndexByte_range s c).
    destruct (Z.ltb_spec (IndexByte s c) 0); [lia|].
    destruct IH as (before & rest & Hb & -> & Hnone); [lia|].
    exists (String d before), rest. injection Hb as Hb.
    rewrite Z2Nat.inj_add, Nat.add_1_r by lia. cbn [String.substring Z.to_nat].
    change (Z.to_nat 0) with 0%nat in Hb.
    rewrite Hb. split_and!; [done|done|].
    apply IndexByte_cons. by split.
Qed.

Lemma HasSuffix_unsigned_or_not (b : bool) base :
  IndexByte base "(" = -1 ->
  IndexByte (base +:+ (if b then " unsigned" else EmptyString)) "(" = -1.
Proof. intros H. apply IndexByte_append. by destruct b. Qed.

(** [StripDisplayWidth] on a column type whose lower-casing writes no
    opening parenthesis that the text does not hold, neither for the column
    type nor for what is left of it once the width is stripped. *)
Lemma StripDisplayWidth_core (colType : string) :
  (IndexByte colType "(" = -1 -> IndexByte (ToLower colType) "(" = -1) ->
  (forall base rest modifier,
      colType = base +:+ "(" +:+ rest ->
      modifier = EmptyString \/ modifier = " unsigned" ->
      IndexByte (base +:+ modifier) "(" = -1 ->
      IndexByte (ToLower (base +:+ modifier)) "(" = -1) ->
  exists strippedType didStrip,
    StripDisplayWidth colType = Done (strippedType, didStrip)
    /\ (didStrip = false -> strippedType = colType)
    /\ (didStrip = true ->
        (exists base rest modifier,
           colType = base +:+ "(" +:+ rest
           /\ strippedType = base +:+ modifier
           /\ (modifier = EmptyString \/ modifier = " unsigned"))
        /\ IndexByte strippedType "(" = -1
        /\ StripDisplayWidth strippedType = Done (strippedType, false)).
Proof.
  intros Hkeeps Hstripped.
  assert (forall t, IndexByte (ToLower t) "(" = -1 ->
                    StripDisplayWidth t = Done (t, false)) as Hnoparen.
  { intros t Ht. unfold StripDisplayWidth.
    destruct (Contains (ToLower t) "int(") eqn:Hc.
    { apply (Contains_IndexByte_of _ _ "(") in Hc; [lia|done]. }
    destruct (String.eqb_spec (ToLower t) "year(4)") as [Hy|_]; [|done].
    rewrite Hy in Ht. by vm_compute in Ht. }
  unfold StripDisplayWidth at 1.
  destruct (negb (Contains (ToLower colType) "int(")
            && negb (String.eqb (ToLower colType) "year(4)")) eqn:Hint.
  { by exists colType, false. }
  destruct (String.eqb (ToLower colType) "tinyint(1)"
            || HasSuffix (ToLower colType) "zerofill").
  { by exists colType, false. }
  assert (0 <= IndexByte (ToLower colType) "(") as Hlower.
  { apply andb_false_iff in Hint as [Hc%negb_false_iff|Hy%negb_false_iff].
    - by apply (Contains_IndexByte_of _ _ "(") in Hc.
    - apply String.eqb_eq in Hy. by rewrite Hy. }
  assert (0 <= IndexByte colType "(") as Hparen.
  { destruct (IndexByte_range colType "(") as [Hnone|?]; [|lia].
    apply Hkeeps in Hnone. lia. }
  destruct (slice_to_IndexByte colType "(" Hparen)
    as (before & rest & -> & Hcol & Hnone).
  eexists _, true. split; [reflexivity|]. split; [done|]. intros _.
  pose proof (HasSuffix_unsigned_or_not
                (HasSuffix (ToLower colType) " unsigned") before Hnone)
    as Hresult.
  assert ((if HasSuffix (ToLower colType) " unsigned"
           then " unsigned" else EmptyString) = EmptyString
          \/ (if HasSuffix (ToLower colType) " unsigned"
              then " unsigned" else EmptyString) = " unsigned") as Hmod.
  { destruct (HasSuffix (ToLower colType) " unsigned"); [by right|by left]. }
  split_and!; [|done|].
  - exists before, rest. eexists. by split_and!.
  - apply Hnoparen. by apply (Hstripped before rest).
Qed.

(** For a column type of ASCII bytes, [StripDisplayWidth] does not panic.
    When it reports that nothing was stripped, the column type is returned
    as it is. When it reports that the width was stripped, the result is the
    text before the first opening parenthesis of the column type, followed
    by nothing or by [ unsigned]; it holds no opening parenthesis, and
    stripping it again changes nothing. *)
Theorem StripDisplayWidth_strips_once (colType : string) :
  isASCII colType = true ->
  exists strippedType didStrip,
    StripDisplayWidth colType = Done (strippedType, didStrip)
    /\ (didStrip = false -> strippedType = colType)
    /\ (didStrip = true ->
        (exists base rest modifier,
           colType = base +:+ "(" +:+ rest
           /\ strippedType = base +:+ modifier
           /\ (modifier = EmptyString \/ modifier = " unsigned"))
        /\ IndexByte strippedType "(" = -1
        /\ StripDisplayWidth strippedType = Done (strippedType, false)).
Proof.
  intros Hascii. apply StripDisplayWidth_core.
  - by apply ToLower_ASCII_no_paren.
  - intros base rest modifier -> Hmod. apply ToLower_ASCII_no_paren.
    rewrite isASCII_append in Hascii |- *.
    apply andb_true_iff in Hascii as [-> _].
    by destruct Hmod as [-> | ->].
Qed.

(** The same for every column type, of ASCII bytes or not, when the
    mapping of package [unicode] maps letters to letters only, so that
    lower-casing a text writes no opening parenthesis that the text does
    not hold. *)
Theorem StripDisplayWidth_strips_once_unicode (colType : string) :
  (forall s, IndexByte s "(" = -1 -> IndexByte (MapToLower s) "(" = -1) ->
  exists strippedType didStrip,
    StripDisplayWidth colType = Done (strippedType, didStrip)
    /\ (didStrip = false -> strippedType = colType)
    /\ (didStrip = true ->
        (exists base rest modifier,
           colType = base +:+ "(" +:+ rest
           /\ strippedType = base +:+ modifier
           /\ (modifier = EmptyString \/ modifier = " unsigned"))
        /\ IndexByte strippedType "(" = -1
        /\ StripDisplayWidth strippedType = Done (strippedType, false)).
Proof.
  intros Hletters.
  assert (forall s, IndexByte s "(" = -1 ->
                    IndexByte (ToLower s) "(" = -1) as Hkeeps.
  { intros s Hs. destruct (isASCII s) eqn:Hascii.
    - by apply ToLower_ASCII_no_paren.
    - unfold ToLower. rewrite Hascii. by apply Hletters. }
  apply StripDisplayWidth_core; [by apply Hkeeps|].
  intros base rest modifier _ _. by apply Hkeeps.
Qed.

(** The container name holds neither a slash nor a colon, and an image name
    that holds neither is its own container name. *)
Theorem ContainerNameForImage_no_separator (image : string) :
  IndexByte (ContainerNameForImage image) "/" = -1
  /\ IndexByte (ContainerNameForImage image) ":" = -1
  /\ (IndexByte image "/" = -1 -> IndexByte image ":" = -1 ->
      ContainerNameForImage image = image).
Proof.
  unfold ContainerNameForImage. split_and!.
  - apply ReplaceAllByte_keeps_absent; [|done].
    destruct (Contains image "/") eqn:Hc.
    + by apply ReplaceAllByte_removes.
    + by apply not_Contains_IndexByte.
  - by apply ReplaceAllByte_removes.
  - intros Hslash Hcolon. destruct (Contains image "/") eqn:Hc.
    + apply (Contains_IndexByte _ "/"%char) in Hc. lia.
    + by apply ReplaceAllByte_absent.
Qed.

End slicing.

Lemma StripDisplayWidth_strips_once_witness :
  exists strippedType didStrip,
    tengo.StripDisplayWidth (uni := examples.unicode) "int(10) unsigned"
    = Done (strippedType, didStrip).
Proof.
  destruct (StripDisplayWidth_strips_once (uni := examples.unicode)
              "int(10) unsigned" eq_refl)
    as (strippedType & didStrip & Hrun & _).
  by exists strippedType, didStrip.
Defined.

Lemma StripDisplayWidth_strips_once_unicode_witness :
  exists strippedType didStrip,
    tengo.StripDisplayWidth (uni := examples.unicode)
      ("int(11) " +:+ String "195" (String "169" EmptyString))
    = Done (strippedType, didStrip).
Proof.
  destruct (StripDisplayWidth_strips_once_unicode (uni := examples.unicode)
              ("int(11) " +:+ String "195" (String "169" EmptyString))
              (fun s Hs => Hs))
    as (strippedType & didStrip & Hrun & _).
  by exists strippedType, didStrip.
Defined.

(** * SplitHostOptionalPort *)

Section host_and_port.

Import gostrings tengo.

Variable SplitHostPort : string -> string * string * option error.
Variable Atoi : string -> Z * option error.

Lemma Split_nonempty s sep : (1 <= length (Split s sep))%nat.
Proof.
  induction s as [|c s IH]; cbn [Split length]; [lia|].
  destruct (Ascii.eqb c sep); cbn [length]; [lia|].
  destruct (Split s sep); cbn [length] in *; lia.
Qed.

(** [Split] gives one token exactly when the text holds no separator. *)
Lemma Split_single s sep :
  (length (Split s sep) =? 1)%nat = true <-> IndexByte s sep = -1.
Proof.
  rewrite Nat.eqb_eq. induction s as [|c s IH]; [done|].
  rewrite IndexByte_cons. cbn [Split].
  pose proof (Split_nonempty s sep).
  destruct (Ascii.eqb_spec c sep) as [->|Hne]; cbn [length].
  - split; [lia|]. by intros [? _].
  - destruct (Split s sep) as [|first others]; cbn [length] in *; [lia|].
    rewrite <- IH. intuition.
Qed.

Lemma byteAt_0 s : byteAt s 0 = match s with
                                | EmptyString => None
                                | String c _ => Some c
                                end.
Proof. by destruct s. Qed.

Lemma byteAt_last_Some s :
  s <> EmptyString ->
  exists c, byteAt s (Z.of_nat (String.length s) - 1) = Some c.
Proof.
  intros Hs. unfold byteAt.
  destruct s as [|c s]; [done|]. clear Hs. cbn [String.length].
  destruct (Z.leb_spec 0 (Z.of_nat (S (String.length s)) - 1)); [|lia].
  replace (Z.to_nat (Z.of_nat (S (String.length s)) - 1))
    with (String.length s) by lia.
  clear. revert c. induction s as [|d s IH]; intros c; [by exists c|].
  change (String.get (String.length (String d s)) (String c (String d s)))
    with (String.get (String.length s) (String d s)).
  apply IH.
Qed.

(** A host address without a colon, and one that starts with an opening and
    ends with a closing bracket, is returned as it is with port 0 and no
    error, whatever the two library functions would make of it. *)
Theorem SplitHostOptionalPort_without_port (hostaddr : string) :
  hostaddr <> EmptyString ->
  IndexByte hostaddr ":" = -1
  \/ (byteAt hostaddr 0 = Some "["%char
      /\ byteAt hostaddr (Z.of_nat (String.length hostaddr) - 1)
         = Some "]"%char) ->
  SplitHostOptionalPort SplitHostPort Atoi hostaddr
  = Done (hostaddr, 0, None).
Proof.
  intros Hne Hcase. unfold SplitHostOptionalPort.
  destruct (Nat.eqb_spec (String.length hostaddr) 0) as [Hlen|_].
  { by destruct hostaddr. }
  destruct (byteAt_last_Some hostaddr Hne) as [final Hfinal].
  rewrite Hfinal, byteAt_0 in *. destruct hostaddr as [|first rest]; [done|].
  destruct Hcase as [Hcolon|[[= ->] [= ->]]].
  - apply Split_single in Hcolon. rewrite Hcolon. by rewrite orb_true_r.
  - done.
Qed.

(** What a call that returns, returns: with an error, the host is empty and
    the port is 0; without an error, either the host is the host address as
    it was given and the port is 0, or the port is at least 1; and the host
    of an address that starts with an opening bracket starts with one. *)
Theorem SplitHostOptionalPort_result (hostaddr : string) :
  match SplitHostOptionalPort SplitHostPort Atoi hostaddr with
  | Panic => True
  | Done (host, port, Some _) => host = EmptyString /\ port = 0
  | Done (host, port, None) =>
      ((host = hostaddr /\ port = 0) \/ 1 <= port)
      /\ (byteAt hostaddr 0 = Some "["%char -> byteAt host 0 = Some "["%char)
  end.
Proof.
  unfold SplitHostOptionalPort.
  destruct (String.length hostaddr =? 0)%nat; [done|].
  destruct (byteAt hostaddr 0) as [first|] eqn:Hfirst; [|done].
  destruct (byteAt hostaddr (Z.of_nat (String.length hostaddr) - 1))
    as [final|]; [|done].
  destruct (_ || _).
  { split; [by left|]. by intros [= <-]. }
  destruct (SplitHostPort hostaddr) as [[host portString] [err|]];
    cbn [isNil negb]; [done|].
  destruct (Atoi portString) as [port [err|]]; cbn [isNil negb]; [done|].
  destruct (Z.ltb_spec port 1); [done|].
  destruct (Ascii.eqb_spec first "[") as [->|Hne].
  - destruct (byteAt host 0) as [h|] eqn:Hh; [|done].
    destruct (Ascii.eqb_spec h "[") as [->|_]; cbn [negb].
    + split; [by right|done].
    + split; [by right|]. intros _. reflexivity.
  - split; [by right|]. by intros [= ->].
Qed.

(** The call panics exactly when the host address starts with an opening
    bracket, does not end with a closing one, holds a colon, and the library
    splits it without error into an empty host and a port text that is a
    number of at least 1: the first byte of the empty host is then read. *)
Theorem SplitHostOptionalPort_panics_iff (hostaddr : string) :
  SplitHostOptionalPort SplitHostPort Atoi hostaddr = Panic
  <-> exists portString port,
        byteAt hostaddr 0 = Some "["%char
        /\ byteAt hostaddr (Z.of_nat (String.length hostaddr) - 1)
           <> Some "]"%char
        /\ 0 <= IndexByte hostaddr ":"
        /\ SplitHostPort hostaddr = (EmptyString, portString, None)
        /\ Atoi portString = (port, None)
        /\ 1 <= port.
Proof.
  unfold SplitHostOptionalPort.
  destruct (Nat.eqb_spec (String.length hostaddr) 0) as [Hlen|Hlen].
  { destruct hostaddr; [|done]. split; [done|].
    by intros (? & ? & ? & _). }
  assert (hostaddr <> EmptyString) as Hne by (by intros ->).
  destruct (byteAt_last_Some hostaddr Hne) as [final Hfinal].
  rewrite Hfinal, byteAt_0. destruct hostaddr as [|first rest]; [done|].
  pose proof (Split_single (String first rest) ":") as Hsingle.
  pose proof (IndexByte_range (String first rest) ":") as Hrange.
  destruct (length (Split (String first rest) ":") =? 1)%nat.
  { rewrite orb_true_r. split; [done|].
    intros (? & ? & _ & _ & Hcolon & _). destruct Hsingle as [Hs _].
    specialize (Hs eq_refl). lia. }
  assert (0 <= IndexByte (String first rest) ":") as Hcolon.
  { destruct Hrange as [Hr|?]; [|lia]. by apply Hsingle in Hr. }
  rewrite orb_false_r.
  destruct (Ascii.eqb_spec first "[") as [->|Hfirst]; cbn [andb].
  2: { destruct (SplitHostPort _) as [[host portString] [err|]];
         cbn [isNil negb].
       { split; [done|]. by intros (? & ? & [= ?] & _). }
       destruct (Atoi portString) as [port [err|]]; cbn [isNil negb].
       { split; [done|]. by intros (? & ? & [= ?] & _). }
       destruct (port <? 1); split; try done;
         by intros (? & ? & [= ?] & _). }
  destruct (Ascii.eqb_spec final "]") as [->|Hfinal'].
  { split; [done|]. by intros (? & ? & _ & ? & _). }
  destruct (SplitHostPort _) as [[host portString] [err|]] eqn:Hsplit;
    cbn [isNil negb].
  { split; [done|]. by intros (? & ? & _ & _ & _ & [= ] & _). }
  destruct (Atoi portString) as [port [err|]] eqn:Hatoi; cbn [isNil negb].
  { split; [done|]. intros (? & ? & _ & _ & _ & [= _ <-] & Ha & _).
    rewrite Hatoi in Ha. done. }
  destruct (Z.ltb_spec port 1) as [Hport|Hport].
  { split; [done|]. intros (? & ? & _ & _ & _ & [= _ <-] & Ha & ?).
    rewrite Hatoi in Ha. injection Ha as <-. lia. }
  rewrite byteAt_0. destruct host as [|h host].
  - split; [|done]. intros _. exists portString, port.
    split_and!; try done. congruence.
  - split; [by destruct (negb _)|].
    by intros (? & ? & _ & _ & _ & [= ] & _).
Qed.

End host_and_port.

Lemma SplitHostOptionalPort_without_port_witness :
  tengo.SplitHostOptionalPort
    (fun _ => (EmptyString, EmptyString, None)) (fun _ => (0, None))
    "db.example.com"
  = Done ("db.example.com", 0, None).
Proof.
  apply SplitHostOptionalPort_without_port; [done|].
  left. reflexivity.
Defined.

(** * reformatCreateOptions *)

Section create_options.

Import gostrings tengo.

Context {uni : Unicode}.

Lemma byteAt_0_None s : byteAt s 0 = None <-> s = EmptyString.
Proof. rewrite byteAt_0. by destruct s. Qed.

Lemma slice_inner_None value :
  value <> EmptyString ->
  slice value 1 (Z.of_nat (String.length value) - 1) = None
  <-> String.length value = 1%nat.
Proof.
  intros Hne. unfold slice. destruct value as [|c value]; [done|].
  cbn [String.length].
  destruct (Z.leb_spec 0 1); [|lia]. cbn [andb].
  destruct (Z.leb_spec 1 (Z.of_nat (S (String.length value)) - 1));
    cbn [andb].
  - destruct (Z.leb_spec (Z.of_nat (S (String.length value)) - 1)
                (Z.of_nat (S (String.length value)))); [|lia].
    split; [done|lia].
  - split; [lia|done].
Qed.

Lemma length_1_byte value c :
  byteAt value 0 = Some c -> String.length value = 1%nat ->
  value = String c EmptyString.
Proof.
  rewrite byteAt_0. destruct value as [|d [|? ?]]; [done| |done].
  by intros [= ->].
Qed.

(** One option makes the function panic exactly when it is empty, has an
    empty name before its first [=], has nothing after its first [=], or
    has a lone double quote after it. *)
Lemma reformatOption_panics_iff kv :
  reformatOption kv = Panic
  <-> kv = EmptyString
      \/ exists name value,
           cut kv "=" = Some (name, value)
           /\ (name = EmptyString \/ value = EmptyString
               \/ value = String doubleQuote EmptyString).
Proof.
  unfold reformatOption, SplitN2.
  destruct (cut kv "=") as [[name value]|] eqn:Hcut.
  - assert (kv <> EmptyString) as Hkv by (by intros ->).
    destruct (byteAt name 0) as [c|] eqn:Hname.
    2: { apply byteAt_0_None in Hname as ->. split; [|done]. intros _.
         right. exists EmptyString, value. split; [done|by left]. }
    assert (name <> EmptyString) as Hn by (by intros ->).
    destruct (byteAt value 0) as [v0|] eqn:Hvalue.
    2: { apply byteAt_0_None in Hvalue as ->. split; [|done]. intros _.
         right. exists name, EmptyString. split; [done|by right; left]. }
    assert (value <> EmptyString) as Hv by (by intros ->).
    destruct (Ascii.eqb_spec v0 doubleQuote) as [->|Hv0].
    2: { split; [done|]. intros [?|(n & v & [= <- <-] & [?|[?|Hq]])];
           try done. subst value. rewrite byteAt_0 in Hvalue.
         injection Hvalue as <-. done. }
    destruct (byteAt_last_Some value Hv) as [vn Hlast]. rewrite Hlast.
    destruct (Ascii.eqb_spec vn doubleQuote) as [->|Hvn].
    2: { split; [done|]. intros [?|(n & v & [= <- <-] & [?|[?|Hq]])];
           try done. subst value. vm_compute in Hlast.
         injection Hlast as <-. done. }
    destruct (slice value 1 _) as [inner|] eqn:Hslice.
    + split; [done|]. intros [?|(n & v & [= <- <-] & [?|[?|Hq]])];
        try done. subst value. by vm_compute in Hslice.
    + apply slice_inner_None in Hslice; [|done].
      apply (length_1_byte _ _ Hvalue) in Hslice. split; [|done]. intros _.
      right. exists name, value. split; [done|by right; right].
  - destruct kv as [|c kv].
    + split; [by left|done].
    + rewrite byteAt_0. split.
      * cbv zeta. destruct (negb (Ascii.eqb c backtick));
          by destruct (negb (String.eqb _ _)).
      * intros [?|(? & ? & ? & _)]; done.
Qed.

Lemma reformatOptions_panics_iff options : forall result,
  reformatOptions options result = Panic
  <-> exists kv, kv ∈ options /\ reformatOption kv = Panic.
Proof.
  induction options as [|kv options IH]; intros result;
    cbn [reformatOptions].
  - split; [done|]. by intros (? & ?%elem_of_nil & _).
  - destruct (reformatOption kv) as [[option|]|] eqn:Hkv.
    + rewrite IH. split.
      * intros (kv' & ? & ?). exists kv'. split; [by right|done].
      * intros (kv' & [->|?]%elem_of_cons & ?); [congruence|by exists kv'].
    + rewrite IH. split.
      * intros (kv' & ? & ?). exists kv'. split; [by right|done].
      * intros (kv' & [->|?]%elem_of_cons & ?); [congruence|by exists kv'].
    + split; [|done]. intros _. exists kv. split; [by left|done].
Qed.

(** The function panics on an index or a slice out of range exactly when
    the input is not empty and one of the options that single spaces
    separate in it is empty (the input starts or ends with a space, or has
    two spaces in a row), has an empty name before its first [=], has
    nothing after its first [=], or has a lone double quote after it. *)
Theorem reformatCreateOptions_panics_iff (input : string) :
  reformatCreateOptions input = Panic
  <-> input <> EmptyString
      /\ exists kv,
           kv ∈ Split input " "
           /\ (kv = EmptyString
               \/ exists name value,
                    cut kv "=" = Some (name, value)
                    /\ (name = EmptyString \/ value = EmptyString
                        \/ value = String doubleQuote EmptyString)).
Proof.
  unfold reformatCreateOptions.
  destruct (String.eqb_spec input EmptyString) as [->|Hne].
  { split; [done|]. by intros [? _]. }
  pose proof (reformatOptions_panics_iff (Split input " ") []) as Hiff.
  destruct (reformatOptions (Split input " ") []) as [result|].
  - split; [done|]. intros [_ (kv & Hin & Hkv)].
    apply reformatOption_panics_iff in Hkv.
    destruct Hiff as [_ Hiff]. discriminate Hiff. by exists kv.
  - destruct Hiff as [(kv & Hin & Hkv) _]; [done|].
    split; [|done]. intros _. split; [done|]. exists kv. split; [done|].
    by apply reformatOption_panics_iff.
Qed.

End create_options.

(** ** Reformatting what was reformatted *)

Section create_options_again.

Import gostrings tengo.

Context {uni : Unicode}.

Lemma upperAscii_keeps (c : ascii) :
  upperAscii (upperAscii c) = upperAscii c
  /\ (upperAscii c = " "%char <-> c = " "%char)
  /\ (upperAscii c = "="%char <-> c = "="%char)
  /\ (upperAscii c = backtick <-> c = backtick).
Proof.
  destruct c as [[] [] [] [] [] [] [] []]; vm_compute;
    intuition congruence.
Qed.

Lemma ToUpperASCII_idempotent s :
  ToUpperASCII (ToUpperASCII s) = ToUpperASCII s.
Proof.
  induction s as [|c s IH]; [done|]. cbn [ToUpperASCII]. rewrite IH.
  by destruct (upperAscii_keeps c) as [-> _].
Qed.

Lemma IndexByte_ToUpperASCII s (x : ascii) :
  x = " "%char \/ x = "="%char ->
  IndexByte s x = -1 -> IndexByte (ToUpperASCII s) x = -1.
Proof.
  intros Hx. induction s as [|c s IH]; [done|]. cbn [ToUpperASCII].
  rewrite !IndexByte_cons. intros [Hne Hs]. split; [|by apply IH].
  destruct (upperAscii_keeps c) as (_ & Hsp & Heq & _).
  destruct Hx as [->| ->]; tauto.
Qed.

Lemma upperAscii_below_128 (c : ascii) :
  (nat_of_ascii c <? 128)%nat = true ->
  (nat_of_ascii (upperAscii c) <? 128)%nat = true.
Proof.
  destruct c as [[] [] [] [] [] [] [] []]; vm_compute; congruence.
Qed.

Lemma isASCII_ToUpperASCII s :
  isASCII s = true -> isASCII (ToUpperASCII s) = true.
Proof.
  induction s as [|c s IH]; [done|]. cbn [isASCII ToUpperASCII].
  intros [Hc Hs]%andb_true_iff.
  by rewrite (upperAscii_below_128 c Hc), IH.
Qed.

(** Upper-casing a text of ASCII bytes is the mapping of the letters a-z,
    and upper-casing it again changes nothing. *)
Lemma ToUpper_ASCII s :
  isASCII s = true ->
  ToUpper s = ToUpperASCII s /\ ToUpper (ToUpper s) = ToUpper s.
Proof.
  intros Hs. unfold ToUpper. rewrite Hs, (isASCII_ToUpperASCII s Hs).
  by rewrite ToUpperASCII_idempotent.
Qed.

Lemma Split_isASCII s sep :
  isASCII s = true ->
  Forall (fun token => isASCII token = true) (Split s sep).
Proof.
  induction s as [|c s IH]; cbn [Split]; [by repeat constructor|].
  cbn [isASCII]. intros [Hc Hs]%andb_true_iff. specialize (IH Hs).
  destruct (Ascii.eqb c sep); [by constructor|].
  destruct (Split s sep) as [|first others].
  { constructor; [|constructor]. cbn [isASCII]. by rewrite Hc. }
  inversion IH; subst. constructor; [|done]. cbn [isASCII].
  by rewrite Hc.
Qed.

Lemma cut_Some s sep a b :
  cut s sep = Some (a, b) ->
  s = a +:+ String sep b /\ IndexByte a sep = -1.
Proof.
  revert a. induction s as [|c s IH]; intros a; cbn [cut]; [done|].
  destruct (Ascii.eqb_spec c sep) as [->|Hne].
  - by intros [= <- <-].
  - destruct (cut s sep) as [[a' b']|]; [|done]. intros [= <- <-].
    destruct (IH a' eq_refl) as [-> Ha]. split; [done|].
    apply IndexByte_cons. by split.
Qed.

Lemma cut_None s sep : cut s sep = None -> IndexByte s sep = -1.
Proof.
  induction s as [|c s IH]; cbn [cut]; [done|].
  destruct (Ascii.eqb_spec c sep) as [->|Hne]; [done|].
  destruct (cut s sep) as [[a' b']|]; [done|]. intros _.
  apply IndexByte_cons. by split; [|apply IH].
Qed.

Lemma cut_absent s sep : IndexByte s sep = -1 -> cut s sep = None.
Proof.
  induction s as [|c s IH]; [done|]. intros [Hne Hs]%IndexByte_cons.
  cbn [cut]. apply Ascii.eqb_neq in Hne. by rewrite Hne, IH.
Qed.

Lemma cut_first a sep b :
  IndexByte a sep = -1 -> cut (a +:+ String sep b) sep = Some (a, b).
Proof.
  induction a as [|c a IH].
  - intros _. rewrite append_nil_l. cbn [cut]. by rewrite Ascii.eqb_refl.
  - intros [Hne Ha]%IndexByte_cons. rewrite append_cons. cbn [cut].
    apply Ascii.eqb_neq in Hne. by rewrite Hne, IH.
Qed.

(** The name of an option as the function writes it. *)
Lemma option_name_fixed (c : ascii) (rest : string) :
  let name := String c rest in
  let written := if negb (Ascii.eqb c backtick) then ToUpper name else name in
  isASCII name = true ->
  exists c0 rest0,
    written = String c0 rest0
    /\ (if negb (Ascii.eqb c0 backtick) then ToUpper written else written)
       = written
    /\ forall x : ascii,
         x = " "%char \/ x = "="%char ->
         IndexByte name x = -1 -> IndexByte written x = -1.
Proof.
  cbv zeta. intros Hascii.
  destruct (Ascii.eqb_spec c backtick) as [->|Hne]; cbn [negb].
  - exists backtick, rest. by split_and!.
  - destruct (ToUpper_ASCII _ Hascii) as [Hupper Hagain].
    exists (upperAscii c), (ToUpperASCII rest). split_and!; [done| |].
    + destruct (Ascii.eqb_spec (upperAscii c) backtick) as [Hb|_]; cbn [negb].
      * destruct (upperAscii_keeps c) as (_ & _ & _ & Hbt).
        by apply Hbt in Hb.
      * done.
    + intros x Hx. rewrite Hupper.
      apply (IndexByte_ToUpperASCII (String c rest) x Hx).
Qed.

Lemma IndexByte_substring s (x : ascii) : forall n m,
  IndexByte s x = -1 -> IndexByte (String.substring n m s) x = -1.
Proof.
  induction s as [|c s IH]; intros n m Hs.
  - by destruct n, m.
  - apply IndexByte_cons in Hs as [Hne Hs].
    destruct n as [|n]; cbn [String.substring]; [|by apply IH].
    destruct m as [|m]; [done|]. apply IndexByte_cons. split; [done|].
    by apply IH.
Qed.

Lemma slice_absent s lo hi t (x : ascii) :
  slice s lo hi = Some t -> IndexByte s x = -1 -> IndexByte t x = -1.
Proof.
  unfold slice. destruct (_ && _); [|done]. intros [= <-].
  apply IndexByte_substring.
Qed.

(** An option with a name and a value that the function would write as
    they are is written as it is. *)
Lemma reformatOption_pair (name value : string) c0 rest0 v0 vrest :
  name = String c0 rest0 ->
  (if negb (Ascii.eqb c0 backtick) then ToUpper name else name) = name ->
  IndexByte name "=" = -1 ->
  value = String v0 vrest ->
  v0 <> doubleQuote
  \/ byteAt value (Z.of_nat (String.length value) - 1) <> Some doubleQuote ->
  reformatOption (name +:+ "=" +:+ value)
  = Done (Some (name +:+ "=" +:+ value)).
Proof.
  intros -> Hfixed Heq -> Hquotes. unfold reformatOption, SplitN2.
  change (String c0 rest0 +:+ "=" +:+ String v0 vrest)
    with (String c0 rest0 +:+ String "=" (String v0 vrest)).
  rewrite (cut_first _ "=" _ Heq), !byteAt_0. cbv zeta. rewrite Hfixed.
  destruct (Ascii.eqb_spec v0 doubleQuote) as [->|_]; [|done].
  destruct Hquotes as [?|Hlast]; [done|].
  destruct (byteAt_last_Some (String doubleQuote vrest)) as [vn Hvn];
    [done|].
  rewrite Hvn in Hlast |- *.
  destruct (Ascii.eqb_spec vn doubleQuote) as [->|_]; done.
Qed.

(** What the function writes for an option without a space holds no space,
    is not the bare word PARTITIONED, and is written as it is when it is
    given to the function again. *)
Lemma reformatOption_output kv o :
  isASCII kv = true ->
  IndexByte kv " " = -1 ->
  reformatOption kv = Done (Some o) ->
  IndexByte o " " = -1
  /\ o <> "PARTITIONED"
  /\ reformatOption o = Done (Some o).
Proof.
  intros Hascii Hsp. unfold reformatOption at 1. unfold SplitN2.
  destruct (cut kv "=") as [[name value]|] eqn:Hcut.
  - apply cut_Some in Hcut as [-> Hname].
    apply IndexByte_append in Hsp as [Hsp_name Hsp_value].
    apply IndexByte_cons in Hsp_value as [_ Hsp_value].
    rewrite isASCII_append in Hascii.
    apply andb_true_iff in Hascii as [Hascii _].
    rewrite byteAt_0. destruct name as [|c rest]; [done|].
    destruct (option_name_fixed c rest Hascii)
      as (c0 & rest0 & Hw & Hfixed & Hkeep).
    cbv zeta in *.
    set (written := if negb (Ascii.eqb c backtick)
                    then ToUpper (String c rest) else String c rest) in *.
    assert (IndexByte written " " = -1) as Hw_sp by (apply Hkeep; auto).
    assert (IndexByte written "=" = -1) as Hw_eq by (apply Hkeep; auto).
    rewrite Hw in Hfixed.
    rewrite byteAt_0. destruct value as [|v0 vrest] eqn:Hvalue; [done|].
    rewrite <- Hvalue in *.
    assert (forall V v vr,
              V = String v vr ->
              IndexByte V " " = -1 ->
              v <> doubleQuote
              \/ byteAt V (Z.of_nat (String.length V) - 1)
                 <> Some doubleQuote ->
              Done (Some (written +:+ "=" +:+ V)) = Done (Some o) ->
              IndexByte o " " = -1
              /\ o <> "PARTITIONED"
              /\ reformatOption o = Done (Some o)) as Hout.
    { intros V v vr HV HVsp HVq [= <-]. split_and!.
      - apply IndexByte_append. split; [done|].
        apply IndexByte_append. by split.
      - intros Hp. apply (f_equal (fun s => IndexByte s "=")) in Hp.
        change (written +:+ "=" +:+ V) with (written +:+ String "=" V) in Hp.
        pose proof (IndexByte_append written (String "=" V) "=") as Happ.
        change (IndexByte "PARTITIONED" "=") with (-1) in Hp.
        apply Happ in Hp as [_ Hp]. by apply IndexByte_cons in Hp as [? _].
      - rewrite <- Hw in Hfixed.
        by apply (reformatOption_pair written V c0 rest0 v vr). }
    destruct (Ascii.eqb_spec v0 doubleQuote) as [->|Hv0].
    2: { apply (Hout value v0 vrest); [done|done|by left]. }
    destruct (byteAt_last_Some value) as [vn Hvn]; [by rewrite Hvalue|].
    rewrite Hvn.
    destruct (Ascii.eqb_spec vn doubleQuote) as [->|Hvn'].
    2: { apply (Hout value doubleQuote vrest); [done|done|right].
         rewrite Hvn. by intros [= ?]. }
    destruct (slice value 1 _) as [inner|] eqn:Hinner; [|done].
    apply (Hout ("'" +:+ inner +:+ "'") "'"%char (inner +:+ "'")); [done| |].
    + rewrite append_cons, append_nil_l. apply IndexByte_cons.
      split; [done|]. apply IndexByte_append. split; [|done].
      by apply (slice_absent _ _ _ _ _ Hinner).
    + by left.
  - apply cut_None in Hcut as Heq.
    rewrite byteAt_0. destruct kv as [|c rest]; [done|].
    destruct (option_name_fixed c rest Hascii)
      as (c0 & rest0 & Hw & Hfixed & Hkeep).
    cbv zeta in *.
    set (written := if negb (Ascii.eqb c backtick)
                    then ToUpper (String c rest) else String c rest) in *.
    assert (IndexByte written " " = -1) as Hw_sp by (apply Hkeep; auto).
    assert (IndexByte written "=" = -1) as Hw_eq by (apply Hkeep; auto).
    destruct (String.eqb_spec written "PARTITIONED") as [|Hp]; [done|].
    cbn [negb]. intros [= <-]. split_and!; [done|done|].
    unfold reformatOption, SplitN2. rewrite (cut_absent _ _ Hw_eq).
    clearbody written. subst written. rewrite byteAt_0. cbv zeta.
    rewrite Hfixed.
    by destruct (String.eqb_spec (String c0 rest0) "PARTITIONED").
Qed.

Lemma Split_elements s sep :
  Forall (fun token => IndexByte token sep = -1) (Split s sep).
Proof.
  induction s as [|c s IH]; cbn [Split]; [by repeat constructor|].
  destruct (Ascii.eqb_spec c sep) as [->|Hne]; [by constructor|].
  destruct (Split s sep) as [|first others].
  { constructor; [by apply IndexByte_cons|constructor]. }
  inversion IH; subst. constructor; [|done]. apply IndexByte_cons. by split.
Qed.

Lemma Split_absent s sep : IndexByte s sep = -1 -> Split s sep = [s].
Proof.
  induction s as [|c s IH]; [done|]. intros [Hne Hs]%IndexByte_cons.
  cbn [Split]. apply Ascii.eqb_neq in Hne. by rewrite Hne, IH.
Qed.

Lemma Split_first a sep b :
  IndexByte a sep = -1 ->
  Split (a +:+ String sep b) sep = a :: Split b sep.
Proof.
  induction a as [|c a IH].
  - intros _. rewrite append_nil_l. cbn [Split]. by rewrite Ascii.eqb_refl.
  - intros [Hne Ha]%IndexByte_cons. rewrite append_cons. cbn [Split].
    apply Ascii.eqb_neq in Hne. by rewrite Hne, IH.
Qed.

(** Splitting what was joined gives the tokens back. *)
Lemma Split_Join (tokens : list string) sep :
  tokens <> [] ->
  Forall (fun token => IndexByte token sep = -1) tokens ->
  Split (Join tokens (String sep EmptyString)) sep = tokens.
Proof.
  induction tokens as [|token tokens IH]; [done|]. intros _ Hall.
  inversion Hall as [|? ? Htoken Hrest]; subst.
  destruct tokens as [|next tokens].
  - cbn [Join]. by apply Split_absent.
  - change (Join (token :: next :: tokens) (String sep EmptyString))
      with (token +:+ String sep EmptyString
            +:+ Join (next :: tokens) (String sep EmptyString)).
    rewrite append_cons, append_nil_l, Split_first by done.
    f_equal. by apply IH.
Qed.

Lemma reformatOptions_Done options : forall acc result,
  reformatOptions options acc = Done result ->
  exists written,
    result = acc ++ written
    /\ forall o, o ∈ written ->
         exists kv, kv ∈ options /\ reformatOption kv = Done (Some o).
Proof.
  induction options as [|kv options IH]; intros acc result;
    cbn [reformatOptions].
  - intros [= <-]. exists []. rewrite app_nil_r. split; [done|].
    by intros ? ?%elem_of_nil.
  - destruct (reformatOption kv) as [[o|]|] eqn:Hkv; [| |done].
    + intros (written & -> & Hfrom)%IH. exists (o :: written).
      rewrite <- app_assoc. split; [done|].
      intros o' [->|Hin]%elem_of_cons.
      * exists kv. split; [by left|done].
      * destruct (Hfrom o' Hin) as (kv' & ? & ?). exists kv'.
        split; [by right|done].
    + intros (written & -> & Hfrom)%IH. exists written. split; [done|].
      intros o' Hin. destruct (Hfrom o' Hin) as (kv' & ? & ?). exists kv'.
      split; [by right|done].
Qed.

Lemma reformatOptions_fixed options : forall acc,
  Forall (fun o => reformatOption o = Done (Some o)) options ->
  reformatOptions options acc = Done (acc ++ options).
Proof.
  induction options as [|o options IH]; intros acc Hall;
    cbn [reformatOptions].
  - by rewrite app_nil_r.
  - inversion Hall as [|? ? Ho Hrest]; subst. rewrite Ho, IH by done.
    by rewrite <- app_assoc.
Qed.

(** What the function returns for an input of ASCII bytes, it returns
    unchanged when it is given it again; and the bare word PARTITIONED is
    not among the options of what it returns. *)
Theorem reformatCreateOptions_idempotent (input output : string) :
  isASCII input = true ->
  reformatCreateOptions input = Done output ->
  reformatCreateOptions output = Done output
  /\ "PARTITIONED" ∉ Split output " ".
Proof.
  assert (reformatCreateOptions EmptyString = Done EmptyString
          /\ "PARTITIONED" ∉ Split EmptyString " ") as Hempty.
  { split; [done|]. intros [[=]|?%elem_of_nil]%elem_of_cons; done. }
  intros Hascii. unfold reformatCreateOptions at 1.
  destruct (String.eqb_spec input EmptyString) as [->|Hne].
  { by intros [= <-]. }
  destruct (reformatOptions (Split input " ") []) as [result|] eqn:Hrun;
    [|done].
  intros [= <-].
  apply reformatOptions_Done in Hrun as (written & -> & Hfrom).
  rewrite app_nil_l.
  assert (forall o, o ∈ written ->
            IndexByte o " " = -1
            /\ o <> "PARTITIONED"
            /\ reformatOption o = Done (Some o)) as Hout.
  { intros o (kv & Hkv & Ho)%Hfrom.
    pose proof (Split_elements input " ") as Hall.
    pose proof (Split_isASCII input " " Hascii) as Hallascii.
    rewrite Forall_forall in Hall, Hallascii.
    apply (reformatOption_output kv); [by apply Hallascii|by apply Hall|done]. }
  destruct written as [|o written]; [done|].
  assert (Split (Join (o :: written) " ") " " = o :: written) as Hsplit.
  { apply Split_Join; [done|]. apply Forall_forall. intros o' Ho'.
    by apply Hout. }
  split.
  - unfold reformatCreateOptions.
    destruct (String.eqb_spec (Join (o :: written) " ") EmptyString)
      as [->|_]; [done|].
    rewrite Hsplit, reformatOptions_fixed; [done|].
    apply Forall_forall. intros o' Ho'. by apply Hout.
  - rewrite Hsplit. intros Hin. by apply Hout in Hin as (_ & ? & _).
Qed.

End create_options_again.

Lemma reformatCreateOptions_idempotent_witness :
  tengo.reformatCreateOptions (uni := examples.unicode)
       "ROW_FORMAT=DYNAMIC"
  = Done "ROW_FORMAT=DYNAMIC".
Proof.
  apply (reformatCreateOptions_idempotent (uni := examples.unicode)
           "row_format=DYNAMIC partitioned" "ROW_FORMAT=DYNAMIC");
    reflexivity.
Defined.

(** * Reserved words *)

Section reserved_words.

Import gostrings keyword.

Context {uni : Unicode} `{FlavorAPI Flavor}.

Implicit Types (st : Keywords Flavor) (flavor : Flavor) (m : gmap string bool).

Lemma insert_true_reads m (k word : string) :
  default false (<[word := true]> m !! k) = true
  <-> default false (m !! k) = true \/ k = word.
Proof.
  destruct (decide (word = k)) as [->|Hne].
  - rewrite lookup_insert_eq. split; [by right|done].
  - rewrite lookup_insert_ne by done. split; [by left|].
    intros [?|?]; [done|congruence].
Qed.

Lemma common_words_read (words : list string) : forall m k,
  default false (foldl (fun rwm word => <[word := true]> rwm) m words !! k)
  = true
  <-> default false (m !! k) = true \/ k ∈ words.
Proof.
  induction words as [|word words IH]; intros m k; cbn [foldl].
  - split; [by left|]. intros [?|?%elem_of_nil]; done.
  - rewrite IH, insert_true_reads, elem_of_cons. tauto.
Qed.

Lemma added_words_read flavor (table : list (string * list Flavor)) :
  forall m k,
  default false
    (foldl
       (fun rwm '(word, flavors) =>
          if existsb (fun flavorAddedIn => Flavor_Min flavor flavorAddedIn)
               flavors
          then <[word := true]> rwm else rwm)
       m table !! k)
  = true
  <-> default false (m !! k) = true
      \/ exists flavors flavorAddedIn,
           (k, flavors) ∈ table
           /\ flavorAddedIn ∈ flavors
           /\ Flavor_Min flavor flavorAddedIn = true.
Proof.
  induction table as [|[word flavors] table IH]; intros m k; cbn [foldl].
  - split; [by left|]. intros [?|(? & ? & ?%elem_of_nil & _)]; done.
  - rewrite IH. clear IH.
    destruct (existsb _ flavors) eqn:Hany.
    + apply existsb_exists in Hany as (f & Hf%list_elem_of_In & Hmin).
      rewrite insert_true_reads. split.
      * intros [[?| ->]|(fs & f' & ? & ? & ?)]; [by left| |].
        -- right. exists flavors, f. split_and!; [by left|done|done].
        -- right. exists fs, f'. split_and!; [by right|done|done].
      * intros [?|(fs & f' & [[= -> ->]|?]%elem_of_cons & ? & ?)].
        -- by left; left.
        -- by left; right.
        -- right. by exists fs, f'.
    + split.
      * intros [?|(fs & f' & ? & ? & ?)]; [by left|].
        right. exists fs, f'. split_and!; [by right|done|done].
      * intros [?|(fs & f' & [[= -> ->]|?]%elem_of_cons & Hf & Hmin)].
        -- by left.
        -- assert (existsb (fun flavorAddedIn =>
                              Flavor_Min flavor flavorAddedIn) flavors
                    = true) as Hyes.
           { apply existsb_exists. exists f'.
             by rewrite <- list_elem_of_In. }
           congruence.
        -- right. by exists fs, f'.
Qed.

(** The map that is built for a flavor holds the words that the tables list
    for it, and no other. *)
Lemma newReservedWordMap_reads flavor k :
  default false (newReservedWordMap flavor !! k) = true <-> listed flavor k.
Proof.
  unfold newReservedWordMap, listed.
  rewrite added_words_read, common_words_read, lookup_empty. cbn [default].
  split.
  - intros [[?|?]|?]; [done|by left|by right].
  - intros [?|?]; [by left; right|by right].
Qed.

Lemma cached_call flavor st : cached st -> cached (ReservedWordMap flavor st).2.
Proof.
  intros Hst. unfold ReservedWordMap.
  destruct (reservedWordsByFlavor st ≫= _) as [rwm|] eqn:Hhit; [done|].
  intros flavor' rwm'. cbn [snd reservedWordsByFlavor wordMaps mbind option_bind].
  destruct (decide (flavor' = flavor)) as [->|Hne].
  - rewrite lookup_insert_eq. intros [= <-]. by rewrite lookup_insert_eq.
  - rewrite lookup_insert_ne by done. intros Hold.
    assert (reservedWordsByFlavor st
              ≫= (fun byFlavor => byFlavor !! flavor') = Some rwm') as Hst'.
    { destruct (reservedWordsByFlavor st); [done|].
      cbn [default] in Hold. by rewrite lookup_empty in Hold. }
    apply Hst in Hst'. rewrite lookup_insert_ne; [done|].
    intros <-. apply (is_fresh (dom (wordMaps st))).
    by apply elem_of_dom.
Qed.

Lemma reachable_cached st : reachable st -> cached st.
Proof.
  induction 1 as [|flavor st _ IH]; [by intros ? ? [=]|by apply cached_call].
Qed.

Lemma IsReservedWord_listed_iff (word : string) flavor st :
  reachable st ->
  (IsReservedWord word flavor st).1 = true <-> listed flavor (ToLower word).
Proof.
  intros Hst. unfold IsReservedWord.
  pose proof (reachable_call flavor st Hst) as Hnext.
  pose proof (reachable_cached _ Hnext) as Hcached.
  destruct (ReservedWordMap flavor st) as [rwm st'] eqn:Hcall.
  cbn [fst snd] in *.
  assert (reservedWordsByFlavor st'
            ≫= (fun byFlavor => byFlavor !! flavor) = Some rwm) as Hentry.
  { unfold ReservedWordMap in Hcall.
    destruct (reservedWordsByFlavor st ≫= _) as [r|] eqn:Hhit.
    - by injection Hcall as <- <-.
    - injection Hcall as <- <-. cbn. by rewrite lookup_insert_eq. }
  unfold lookupWord. rewrite (Hcached _ _ Hentry). cbn [mbind option_bind].
  apply newReservedWordMap_reads.
Qed.

(** In a state that calls of [ReservedWordMap] led to, [IsReservedWord]
    reports a word exactly when the tables list its lower-case form for the
    flavor, whatever was asked before; the state it leaves is such a state
    again. *)
Theorem IsReservedWord_listed (word : string) flavor st :
  reachable st ->
  ((IsReservedWord word flavor st).1 = true <-> listed flavor (ToLower word))
  /\ reachable (IsReservedWord word flavor st).2.
Proof.
  intros Hst. split; [by apply IsReservedWord_listed_iff|].
  unfold IsReservedWord.
  pose proof (reachable_call flavor st Hst) as Hnext.
  by destruct (ReservedWordMap flavor st).
Qed.

(** A second call for the same flavor returns the reference that the first
    call returned and leaves the state as the first call left it. *)
Theorem ReservedWordMap_same_reference flavor st :
  ReservedWordMap flavor (ReservedWordMap flavor st).2
  = ReservedWordMap flavor st.
Proof.
  unfold ReservedWordMap at 2 3.
  destruct (reservedWordsByFlavor st ≫= _) as [rwm|] eqn:Hhit.
  - cbn [snd]. unfold ReservedWordMap. by rewrite Hhit.
  - cbn [snd]. unfold ReservedWordMap.
    cbn [reservedWordsByFlavor mbind option_bind].
    by rewrite lookup_insert_eq.
Qed.

Lemma lower_case_words (words : list string) (word : string) :
  forallb (fun w => String.eqb (ToLower w) w
                    && String.eqb (ToLower (ToUpper w)) w) words = true ->
  word ∈ words ->
  ToLower word = word /\ ToLower (ToUpper word) = word.
Proof.
  rewrite forallb_forall. intros Hall Hin%list_elem_of_In.
  apply Hall in Hin. apply andb_true_iff in Hin as [Hl Hu].
  by apply String.eqb_eq in Hl, Hu.
Qed.

Lemma listed_lower_case flavor (word : string) :
  listed flavor word ->
  ToLower word = word /\ ToLower (ToUpper word) = word.
Proof.
  intros [Hin|(flavors & f & Hin & _)].
  - apply (lower_case_words commonReservedWords); [|done].
    vm_compute. reflexivity.
  - apply (lower_case_words (map fst reservedWordsAddedInFlavor)).
    + vm_compute. reflexivity.
    + apply list_elem_of_fmap. by exists (word, flavors).
Qed.

(** The words of the two tables are written in lower case, so that a word
    that the tables list for a flavor is reported as reserved when it is
    asked as the table has it and when it is asked in upper case. *)
Theorem listed_words_are_reserved (word : string) flavor st :
  reachable st ->
  listed flavor word ->
  (IsReservedWord word flavor st).1 = true
  /\ (IsReservedWord (ToUpper word) flavor st).1 = true.
Proof.
  intros Hst Hword. destruct (listed_lower_case _ _ Hword) as [Hl Hu].
  split; apply IsReservedWord_listed_iff; try done; congruence.
Qed.

End reserved_words.

Lemma IsReservedWord_listed_witness :
  (keyword.IsReservedWord (uni := examples.unicode) (H0 := exampleFlavors)
     "Window" (false, 80%nat) keyword.initialKeywords).1 = true.
Proof.
  apply (proj1 (IsReservedWord_listed (uni := examples.unicode)
                  (H0 := exampleFlavors) "Window" (false, 80%nat)
                  keyword.initialKeywords keyword.reachable_initial)).
  right. exists [(false, 80%nat)], (false, 80%nat).
  split_and!; [|by left|reflexivity].
  by apply (list_elem_of_lookup_2 _ 35).
Defined.

Lemma listed_words_are_reserved_witness :
  (keyword.IsReservedWord (uni := examples.unicode) (H0 := exampleFlavors)
     "SELECT" (true, 101%nat) keyword.initialKeywords).1 = true.
Proof.
  apply (listed_words_are_reserved (uni := examples.unicode)
           (H0 := exampleFlavors) "select" (true, 101%nat)
           keyword.initialKeywords keyword.reachable_initial).
  left. by apply (list_elem_of_lookup_2 _ 172).
Defined.

(** * longestIncreasingSubsequence *)

Section lis.

Import tengo.

Lemma incr_le_last l x b : incr l -> x ∈ l -> last l = Some b -> x <= b.
Proof.
  intros Hl Hx [l' ->]%last_Some.
  apply elem_of_app in Hx as [Hx|Hx%list_elem_of_singleton]; [|lia].
  apply Z.lt_le_incl.
  eapply (StronglySorted_app_1_elem_of Z.lt); [exact Hl | exact Hx | left].
Qed.

Lemma incr_snoc l c :
  incr (l ++ [c]) <-> incr l /\ forall b, last l = Some b -> b < c.
Proof.
  unfold incr. rewrite StronglySorted_app. split.
  - intros (Hlt & Hl & _). split; [done|]. intros b Hb.
    apply Hlt; [by eapply last_Some_elem_of | left].
  - intros [Hl Hlast]. split_and!; [|done|repeat constructor].
    intros x1 x2 Hx1 ->%list_elem_of_singleton.
    destruct (last l) as [b|] eqn:Hb.
    + pose proof (incr_le_last l x1 b Hl Hx1 Hb). specialize (Hlast b eq_refl).
      lia.
    + apply last_None in Hb as ->. by apply elem_of_nil in Hx1.
Qed.

Lemma sublist_snoc_inv (s P : list Z) c :
  s `sublist_of` P ++ [c] ->
  s `sublist_of` P \/ exists s', s = s' ++ [c] /\ s' `sublist_of` P.
Proof.
  intros (s1 & s2 & -> & H1 & H2)%sublist_app_r.
  apply sublist_cons_r in H2 as [->%sublist_nil_r|(s3 & -> & ->%sublist_nil_r)].
  - left. by rewrite app_nil_r.
  - right. eauto.
Qed.

Lemma Inv_tail cl P k l :
  Inv cl P -> cl !! k = Some l -> exists a, last l = Some a.
Proof.
  intros (_ & Hb & _) Hk. destruct (Hb k l Hk) as (Hlen & _).
  destruct (last l) eqn:E; [by eauto|].
  apply last_None in E as ->. discriminate Hlen.
Qed.

Lemma Inv_best cl P s b :
  Inv cl P -> s `sublist_of` P -> incr s -> last s = Some b ->
  exists l a, cl !! (length s - 1)%nat = Some l /\ last l = Some a /\ a <= b.
Proof.
  intros HI Hs Hincr Hb. pose proof HI as (_ & _ & Hc & Hd).
  pose proof (Hd s Hs Hincr) as Hlen.
  assert (length s <> 0%nat) as Hne.
  { intros ->%length_zero_iff_nil. discriminate Hb. }
  destruct (lookup_lt_is_Some_2 cl (length s - 1)) as [l Hl]; [lia|].
  destruct (Inv_tail cl P _ l HI Hl) as [a Ha].
  exists l, a. split_and!; [done..|].
  eapply Hc; eauto. lia.
Qed.

Lemma Inv_mono cl P k k' l l' a a' :
  Inv cl P -> (k < k')%nat ->
  cl !! k = Some l -> cl !! k' = Some l' ->
  last l = Some a -> last l' = Some a' -> a < a'.
Proof.
  intros HI Hlt Hk Hk' Ha Ha'. pose proof HI as (_ & Hb & Hc & _).
  destruct (Hb k' l' Hk') as (Hlen' & Hsub' & Hincr').
  rewrite <- (take_drop (S k) l') in Hincr', Ha'.
  assert (length (take (S k) l') = S k) as Htake
    by (rewrite length_take; lia).
  destruct (last (take (S k) l')) as [b|] eqn:Hb'.
  2: { apply last_None in Hb'. rewrite Hb' in Htake. discriminate Htake. }
  assert (a <= b) as Hab.
  { eapply (Hc k l a (take (S k) l') b); eauto.
    - etrans; [apply sublist_take | done].
    - by eapply (StronglySorted_app_1_l Z.lt). }
  assert (drop (S k) l' <> []) as Hdrop.
  { intros Hnil%(f_equal length). rewrite length_drop in Hnil.
    simpl in Hnil. lia. }
  rewrite last_app in Ha'.
  destruct (last (drop (S k) l')) as [a''|] eqn:Hd;
    [|by apply last_None in Hd].
  injection Ha' as ->.
  assert (b < a'); [|lia].
  eapply (StronglySorted_app_1_elem_of Z.lt); eauto using last_Some_elem_of.
Qed.

Lemma newList_snoc (longestList : list Z) (comp : Z) :
  <[length longestList := comp]>
    (copy (replicate (length longestList + 1) 0) longestList)
  = longestList ++ [comp].
Proof.
  unfold copy. rewrite length_replicate, take_ge by lia.
  rewrite drop_replicate.
  replace (length longestList + 1 - length longestList)%nat with 1%nat by lia.
  simpl. rewrite insert_app_r_alt by lia.
  by replace (length longestList - length longestList)%nat with 0%nat by lia.
Qed.

Lemma copy_setLast (nextList thisList : list Z) (comp : Z) :
  length nextList = S (length thisList) ->
  setLast (copy nextList thisList) comp = Some (thisList ++ [comp]).
Proof.
  intros Hlen. unfold copy, setLast. rewrite Hlen, take_ge by lia.
  destruct (drop (length thisList) nextList) as [|x [|y rest]] eqn:Hdrop;
    apply (f_equal length) in Hdrop; rewrite length_drop, Hlen in Hdrop;
    simpl in Hdrop; try lia.
  rewrite length_app. simpl.
  replace (length thisList + 1)%nat with (S (length thisList)) by lia.
  rewrite insert_app_r_alt by lia.
  by replace (length thisList - length thisList)%nat with 0%nat by lia.
Qed.

Lemma lisReplace_spec cl c n :
  (forall k l, cl !! k = Some l -> length l = S k) ->
  (n < length cl)%nat ->
  (exists j l a,
      (j < n)%nat /\ cl !! j = Some l /\ last l = Some a /\ a < c
      /\ (forall i li ai,
            (j < i < n)%nat -> cl !! i = Some li -> last li = Some ai ->
            c <= ai)
      /\ lisReplace cl c n = Some (<[S j := l ++ [c]]> cl))
  \/ ((forall i li ai,
          (i < n)%nat -> cl !! i = Some li -> last li = Some ai -> c <= ai)
      /\ lisReplace cl c n = Some cl).
Proof.
  intros Hlen. induction n as [|j IH]; intros Hn.
  { right. split; [lia | done]. }
  destruct (lookup_lt_is_Some_2 cl j) as [thisList Hthis]; [lia|].
  destruct (lookup_lt_is_Some_2 cl (S j)) as [nextList Hnext]; [lia|].
  pose proof (Hlen _ _ Hthis) as Hlthis. pose proof (Hlen _ _ Hnext) as Hlnext.
  destruct (last thisList) as [t|] eqn:Ht.
  2: { apply last_None in Ht. subst. discriminate Hlthis. }
  cbn [lisReplace]. rewrite Hthis, Hnext. cbn [mbind option_bind].
  rewrite Ht. cbn [mbind option_bind].
  destruct (c >? t) eqn:Hct.
  - apply Z.gtb_lt in Hct. left. exists j, thisList, t.
    split_and!; [lia | done | done | done | lia |].
    rewrite copy_setLast by lia. done.
  - assert (c <= t) as Hle.
    { destruct (Z.gtb_spec c t); [discriminate | lia]. }
    destruct IH as [(j' & l & a & Hj' & Hl & Ha & Hac & Hbetween & Hrun)
                   |[Hall Hrun]]; [lia | |].
    + left. exists j', l, a. split_and!; [lia | done..| |done].
      intros i li ai Hi Hli Hai.
      destruct (decide (i = j)) as [->|]; [|eapply Hbetween; eauto; lia].
      rewrite Hthis in Hli. injection Hli as <-. rewrite Ht in Hai.
      injection Hai as <-. done.
    + right. split; [|done]. intros i li ai Hi Hli Hai.
      destruct (decide (i = j)) as [->|]; [|eapply Hall; eauto; lia].
      rewrite Hthis in Hli. injection Hli as <-. rewrite Ht in Hai.
      injection Hai as <-. done.
Qed.

(** No increasing subsequence of [P] can be extended by [c] when [c] is at
    most the last element of every candidate list. *)
Lemma Inv_no_extension cl P c s' :
  Inv cl P ->
  (forall i li ai, cl !! i = Some li -> last li = Some ai -> c <= ai) ->
  s' `sublist_of` P -> incr (s' ++ [c]) -> s' = [].
Proof.
  intros HI Hall Hsub [Hincr Hlast]%incr_snoc.
  destruct (last s') as [b'|] eqn:Hb'; [|by apply last_None in Hb'].
  destruct (Inv_best cl P s' b' HI Hsub Hincr Hb') as (l & a & Hl & Ha & Hab).
  specialize (Hlast b' eq_refl). specialize (Hall _ _ _ Hl Ha). lia.
Qed.

Lemma Inv_keep cl P c :
  Inv cl P ->
  (forall i li ai, cl !! i = Some li -> last li = Some ai -> c <= ai) ->
  (forall l0 a0, cl !! 0%nat = Some l0 -> last l0 = Some a0 -> a0 <= c) ->
  Inv cl (P ++ [c]).
Proof.
  intros HI Hall Hfirst. pose proof HI as (Ha & Hb & Hc & Hd).
  split_and!; [done | | |].
  - intros k l Hk. destruct (Hb k l Hk) as (? & ? & ?).
    split_and!; [done | by apply sublist_inserts_r | done].
  - intros k l a s b Hk Hlast [Hs|(s' & -> & Hs')]%sublist_snoc_inv
      Hincr Hlen Hb'; [by eauto|].
    pose proof (Inv_no_extension cl P c s' HI Hall Hs' Hincr) as ->.
    simpl in Hlen, Hb'. injection Hlen as <-. injection Hb' as <-.
    by eapply Hfirst.
  - intros s [Hs|(s' & -> & Hs')]%sublist_snoc_inv Hincr; [by eauto|].
    pose proof (Inv_no_extension cl P c s' HI Hall Hs' Hincr) as ->.
    simpl. lia.
Qed.

Lemma Inv_replace_first cl P c h :
  Inv cl P -> cl !! 0%nat = Some [h] -> c < h ->
  Inv (<[0%nat := [c]]> cl) (P ++ [c]).
Proof.
  intros HI H0 Hch. pose proof HI as (Ha & Hb & Hc & Hd).
  assert (Hall : forall i li ai,
             cl !! i = Some li -> last li = Some ai -> c <= ai).
  { intros i li ai Hi Hai. destruct (decide (i = 0%nat)) as [->|Hne].
    - rewrite H0 in Hi. injection Hi as <-. injection Hai as <-. lia.
    - assert (h < ai); [|lia].
      eapply (Inv_mono cl P 0 i); eauto. lia. }
  split_and!.
  - by rewrite length_insert.
  - intros k l Hk. destruct (decide (k = 0%nat)) as [->|Hne].
    + rewrite list_lookup_insert_eq in Hk by done. injection Hk as <-.
      split_and!; [done | | repeat constructor].
      apply singleton_sublist_l, elem_of_app. right. left.
    + rewrite list_lookup_insert_ne in Hk by done.
      destruct (Hb k l Hk) as (? & ? & ?).
      split_and!; [done | by apply sublist_inserts_r | done].
  - intros k l a s b Hk Hlast Hsub Hincr Hlen Hb'.
    apply sublist_snoc_inv in Hsub as [Hs|(s' & -> & Hs')].
    + destruct (decide (k = 0%nat)) as [->|Hne].
      * rewrite list_lookup_insert_eq in Hk by done. injection Hk as <-.
        injection Hlast as <-.
        assert (h <= b); [|lia]. eapply (Hc 0%nat [h] h s b); eauto.
      * rewrite list_lookup_insert_ne in Hk by done. eauto.
    + pose proof (Inv_no_extension cl P c s' HI Hall Hs' Hincr) as ->.
      simpl in Hlen, Hb'. injection Hlen as <-. injection Hb' as <-.
      rewrite list_lookup_insert_eq in Hk by done. injection Hk as <-.
      injection Hlast as <-. lia.
  - intros s [Hs|(s' & -> & Hs')]%sublist_snoc_inv Hincr;
      rewrite length_insert; [by eauto|].
    pose proof (Inv_no_extension cl P c s' HI Hall Hs' Hincr) as ->.
    simpl. lia.
Qed.

Lemma Inv_extend cl P c L t :
  Inv cl P -> last cl = Some L -> last L = Some t -> t < c ->
  Inv (cl ++ [L ++ [c]]) (P ++ [c]).
Proof.
  intros HI HL Ht Htc. pose proof HI as (Ha & Hb & Hc & Hd).
  rewrite last_lookup in HL.
  assert (Htail : forall k l a,
             cl !! k = Some l -> last l = Some a -> a <= t).
  { intros k l a Hk Hlast.
    pose proof (lookup_lt_Some _ _ _ Hk) as Hlt.
    destruct (decide (k = pred (length cl))) as [->|Hne].
    - rewrite HL in Hk. injection Hk as <-. rewrite Ht in Hlast.
      injection Hlast as <-. lia.
    - assert (a < t); [|lia].
      eapply (Inv_mono cl P k (pred (length cl))); eauto. lia. }
  destruct (Hb _ _ HL) as (HlenL & HsubL & HincrL).
  split_and!.
  - rewrite length_app. simpl. lia.
  - intros k l Hk. apply lookup_app_Some in Hk as [Hk|[Hge Hk]].
    + destruct (Hb k l Hk) as (? & ? & ?).
      split_and!; [done | by apply sublist_inserts_r | done].
    + apply list_lookup_singleton_Some in Hk as [Hk <-].
      split_and!.
      * rewrite length_app. simpl. lia.
      * by apply sublist_app.
      * apply incr_snoc. split; [done|]. intros b Hb'.
        rewrite Ht in Hb'. by injection Hb' as <-.
  - intros k l a s b Hk Hlast Hsub Hincr Hlen Hb'.
    apply lookup_app_Some in Hk as [Hk|[Hge Hk]].
    + apply sublist_snoc_inv in Hsub as [Hs|(s' & -> & Hs')]; [by eauto|].
      rewrite last_snoc in Hb'. injection Hb' as <-.
      pose proof (Htail k l a Hk Hlast). lia.
    + apply list_lookup_singleton_Some in Hk as [Hk <-].
      rewrite last_snoc in Hlast. injection Hlast as <-.
      apply sublist_snoc_inv in Hsub as [Hs|(s' & -> & Hs')].
      * pose proof (Hd s Hs Hincr). lia.
      * rewrite last_snoc in Hb'. injection Hb' as <-. lia.
  - intros s [Hs|(s' & -> & Hs')]%sublist_snoc_inv Hincr;
      rewrite !length_app; simpl.
    + pose proof (Hd s Hs Hincr). lia.
    + apply incr_snoc in Hincr as [Hincr _].
      pose proof (Hd s' Hs' Hincr). lia.
Qed.

Lemma Inv_replace cl P c j l a :
  Inv cl P -> (S j < length cl)%nat ->
  cl !! j = Some l -> last l = Some a -> a < c ->
  (forall i li ai,
      (j < i)%nat -> cl !! i = Some li -> last li = Some ai -> c <= ai) ->
  (forall l0 a0, cl !! 0%nat = Some l0 -> last l0 = Some a0 -> a0 <= c) ->
  Inv (<[S j := l ++ [c]]> cl) (P ++ [c]).
Proof.
  intros HI Hj Hl Ha Hac Habove Hfirst.
  pose proof HI as (Hpos & Hb & Hc & Hd).
  destruct (Hb _ _ Hl) as (Hlenl & Hsubl & Hincrl).
  assert (Hbelow : forall k lk ak,
             (k <= j)%nat -> cl !! k = Some lk -> last lk = Some ak ->
             ak < c).
  { intros k lk ak Hk Hlk Hak. destruct (decide (k = j)) as [->|Hne].
    - rewrite Hl in Hlk. injection Hlk as <-. rewrite Ha in Hak.
      injection Hak as <-. done.
    - assert (ak < a); [|lia]. eapply (Inv_mono cl P k j); eauto. lia. }
  (* an increasing subsequence of [P] that [c] extends has at most [j + 1]
     elements *)
  assert (Hext : forall s', s' `sublist_of` P -> incr (s' ++ [c]) ->
                            (length s' <= S j)%nat).
  { intros s' Hs' [Hincr Hlast]%incr_snoc.
    destruct (last s') as [b'|] eqn:Hb'.
    2: { apply last_None in Hb' as ->. simpl. lia. }
    destruct (Inv_best cl P s' b' HI Hs' Hincr Hb')
      as (l'' & a'' & Hl'' & Ha'' & Hle).
    specialize (Hlast b' eq_refl).
    destruct (decide (j < length s' - 1)%nat) as [Hgt|]; [|lia].
    specialize (Habove _ _ _ Hgt Hl'' Ha''). lia. }
  split_and!.
  - by rewrite length_insert.
  - intros k lk Hk. destruct (decide (k = S j)) as [->|Hne].
    + rewrite list_lookup_insert_eq in Hk by done. injection Hk as <-.
      split_and!.
      * rewrite length_app. simpl. lia.
      * by apply sublist_app.
      * apply incr_snoc. split; [done|]. intros b Hb'.
        rewrite Ha in Hb'. by injection Hb' as <-.
    + rewrite list_lookup_insert_ne in Hk by done.
      destruct (Hb k lk Hk) as (? & ? & ?).
      split_and!; [done | by apply sublist_inserts_r | done].
  - intros k lk ak s b Hk Hlast Hsub Hincr Hlen Hb'.
    apply sublist_snoc_inv in Hsub as [Hs|(s' & -> & Hs')].
    + destruct (decide (k = S j)) as [->|Hne].
      * rewrite list_lookup_insert_eq in Hk by done. injection Hk as <-.
        rewrite last_snoc in Hlast. injection Hlast as <-.
        destruct (lookup_lt_is_Some_2 cl (S j) Hj) as [lnext Hnext].
        destruct (Inv_tail cl P _ _ HI Hnext) as [anext Hanext].
        assert (anext <= b) by (eapply Hc; eauto).
        assert (c <= anext) by (eapply Habove; eauto).
        lia.
      * rewrite list_lookup_insert_ne in Hk by done. eauto.
    + rewrite last_snoc in Hb'. injection Hb' as <-.
      rewrite length_app in Hlen. simpl in Hlen.
      pose proof (Hext s' Hs' Hincr) as Hs'len.
      destruct (decide (k = S j)) as [->|Hne].
      * rewrite list_lookup_insert_eq in Hk by done. injection Hk as <-.
        rewrite last_snoc in Hlast. injection Hlast as <-. lia.
      * rewrite list_lookup_insert_ne in Hk by done.
        destruct (decide (k = 0%nat)) as [->|Hk0]; [by eauto|].
        assert (ak < c); [|lia]. eapply (Hbelow k); eauto. lia.
  - intros s [Hs|(s' & -> & Hs')]%sublist_snoc_inv Hincr;
      rewrite length_insert; [by eauto|].
    pose proof (Hext s' Hs' Hincr). rewrite length_app. simpl. lia.
Qed.

Lemma lisStep_Inv cl P c :
  Inv cl P -> exists cl', lisStep cl c = Some cl' /\ Inv cl' (P ++ [c]).
Proof.
  intros HI. pose proof HI as (Hpos & Hb & Hc & Hd).
  destruct (lookup_lt_is_Some_2 cl 0) as [l0 H0]; [lia|].
  destruct (Hb _ _ H0) as (Hlen0 & _).
  destruct l0 as [|h [|? ?]]; try discriminate Hlen0.
  destruct (last cl) as [L|] eqn:HL.
  2: { apply last_None in HL. subst. simpl in Hpos. lia. }
  pose proof HL as HL'. rewrite last_lookup in HL'.
  destruct (Inv_tail cl P _ _ HI HL') as [t Ht].
  assert (Hfirst : forall l0 a0,
             cl !! 0%nat = Some l0 -> last l0 = Some a0 -> a0 = h).
  { intros l0 a0 Hl0 Ha0. rewrite H0 in Hl0. injection Hl0 as <-.
    by injection Ha0 as <-. }
  unfold lisStep. rewrite H0. cbn [mbind option_bind lookup list_lookup].
  destruct (c <? h) eqn:Hch.
  { apply Z.ltb_lt in Hch. eexists. split; [reflexivity|].
    by apply (Inv_replace_first cl P c h). }
  apply Z.ltb_ge in Hch.
  rewrite HL. cbn [mbind option_bind]. rewrite Ht. cbn [mbind option_bind].
  destruct (c >? t) eqn:Hct.
  { apply Z.gtb_lt in Hct. eexists. split; [reflexivity|].
    rewrite newList_snoc. by eapply Inv_extend. }
  assert (c <= t) as Hle.
  { destruct (Z.gtb_spec c t); [discriminate | lia]. }
  assert (Hlast : forall i li ai,
             (length cl - 1 <= i)%nat -> cl !! i = Some li ->
             last li = Some ai -> c <= ai).
  { intros i li ai Hi Hli Hai.
    pose proof (lookup_lt_Some _ _ _ Hli).
    replace i with (pred (length cl)) in Hli by lia.
    rewrite HL' in Hli. injection Hli as <-. rewrite Ht in Hai.
    by injection Hai as <-. }
  destruct (lisReplace_spec cl c (length cl - 1))
    as [(j & l & a & Hj & Hl & Ha & Hac & Hbetween & Hrun)|[Hall Hrun]];
    [by intros k l Hk; apply (Hb k l Hk) | lia | |].
  - exists (<[S j := l ++ [c]]> cl). split; [done|].
    eapply Inv_replace; eauto; [lia | |].
    + intros i li ai Hi Hli Hai.
      destruct (decide (i < length cl - 1)%nat);
        [by apply (Hbetween i li ai); [lia|..]|].
      apply (Hlast i li ai); [lia | done | done].
    + intros l0 a0 Hl0 Ha0. rewrite (Hfirst _ _ Hl0 Ha0). done.
  - exists cl. split; [done|]. apply Inv_keep; [done | |].
    + intros i li ai Hli Hai.
      destruct (decide (i < length cl - 1)%nat);
        [by apply (Hall i li ai); [lia|..]|].
      apply (Hlast i li ai); [lia | done | done].
    + intros l0 a0 Hl0 Ha0. rewrite (Hfirst _ _ Hl0 Ha0). done.
Qed.

Lemma lisLoop_Inv rest : forall cl P,
  Inv cl P -> exists cl', lisLoop cl rest = Some cl' /\ Inv cl' (P ++ rest).
Proof.
  induction rest as [|c rest IH]; intros cl P HI.
  { exists cl. by rewrite app_nil_r. }
  destruct (lisStep_Inv cl P c HI) as (cl1 & Hstep & HI1).
  destruct (IH cl1 (P ++ [c]) HI1) as (cl' & Hloop & HI').
  exists cl'. cbn [lisLoop]. rewrite Hstep. cbn [mbind option_bind].
  by rewrite <- (assoc_L (++)) in HI'.
Qed.

Lemma Inv_initial x : Inv [[x]] [x].
Proof.
  split_and!.
  - simpl. lia.
  - intros [|k] l Hk; [|done]. injection Hk as <-.
    split_and!; [done | done | repeat constructor].
  - intros [|k] l a s b Hk Hlast Hsub Hincr Hlen Hb; [|done].
    injection Hk as <-. injection Hlast as <-.
    destruct s as [|y [|? ?]]; try discriminate Hlen.
    injection Hb as <-. apply singleton_sublist_l, list_elem_of_singleton in Hsub.
    lia.
  - intros s Hsub _. by apply sublist_length in Hsub.
Qed.

(** The function never panics, and what it returns is a strictly increasing
    subsequence of its input. *)
Theorem lis_increasing_subsequence (input : list Z) :
  exists result,
    longestIncreasingSubsequence input = Some result
    /\ result `sublist_of` input
    /\ StronglySorted Z.lt result.
Proof.
  unfold longestIncreasingSubsequence.
  destruct input as [|x [|y rest]].
  - exists []. split_and!; [done | done | constructor].
  - exists [x]. split_and!; [done | done | repeat constructor].
  - cbn [length Nat.ltb Nat.leb lookup list_lookup mbind option_bind drop].
    destruct (lisLoop_Inv (y :: rest) [[x]] [x] (Inv_initial x))
      as (cl & -> & HI).
    cbn [mbind option_bind]. pose proof HI as (Hpos & Hb & _).
    destruct (last cl) as [L|] eqn:HL.
    2: { apply last_None in HL. subst. simpl in Hpos. lia. }
    rewrite last_lookup in HL. destruct (Hb _ _ HL) as (_ & Hsub & Hincr).
    by exists L.
Qed.

(** No strictly increasing subsequence of the input is longer than the one
    returned. *)
Theorem lis_longest (input result s : list Z) :
  longestIncreasingSubsequence input = Some result ->
  s `sublist_of` input -> StronglySorted Z.lt s ->
  (length s <= length result)%nat.
Proof.
  unfold longestIncreasingSubsequence.
  destruct input as [|x [|y rest]].
  - intros [= <-] Hs _. by apply sublist_length in Hs.
  - intros [= <-] Hs _. by apply sublist_length in Hs.
  - cbn [length Nat.ltb Nat.leb lookup list_lookup mbind option_bind drop].
    destruct (lisLoop_Inv (y :: rest) [[x]] [x] (Inv_initial x))
      as (cl & -> & HI).
    cbn [mbind option_bind]. intros HL Hs Hincr.
    pose proof HI as (Hpos & Hb & _ & Hd).
    rewrite last_lookup in HL. destruct (Hb _ _ HL) as (Hlen & _).
    pose proof (Hd s Hs Hincr). lia.
Qed.

Lemma lis_longest_witness :
  longestIncreasingSubsequence [3; 1; 4; 1; 5; 9; 2; 6] = Some [1; 4; 5; 6]
  /\ (length [3; 4; 5; 9] <= length [1; 4; 5; 6])%nat.
Proof.
  split; [reflexivity|].
  apply (lis_longest [3; 1; 4; 1; 5; 9; 2; 6] [1; 4; 5; 6] [3; 4; 5; 9]).
  - reflexivity.
  - apply sublist_skip, sublist_cons, sublist_skip, sublist_cons,
      sublist_skip, sublist_skip, sublist_nil_l.
  - repeat constructor.
Defined.

End lis.
